(** * aura-pass: vault key management and envelope encryption

    A shallow embedding of the key/crypto slice of the password manager:
    - [src/hooks/useVaultKey.ts]: key derivation, the envelope codec
      ([encryptWithKey], [decryptWithKey], [isEncryptedBundle]) and the
      process-wide key store;
    - [usePasswords] with encryption ([src/unnamed/part_001], and its
      earlier revision [src/unnamed/part_000]): [safeDecrypt], the local
      [persist] effect and the remote [updatePassword] path;
    - [src/contexts/SecurityContext.tsx]: the auto-lock timer, [lock],
      [unlock], [panic];
    - [src/lib/passwordGenerator.ts] and [supabase/functions/verify-totp]:
      the other two key-derivation call sites;
    - around them: the master-password prompt of [src/pages/Index.tsx];
      [addPassword], [deletePassword], [markAsUsed] and [toggleFavorite] of
      [usePasswords]; the sharing links (the codec of [src/lib/crypto.ts],
      the dialog that makes a link, the remote procedure
      [view_shared_password] and the page that shows a link); the TOTP
      function (the codec of the stored secret, the request handler) and the
      sign-in dialog that calls it; the password generator and the strength
      meter.

    The browser built-ins the code calls ([TextEncoder], [TextDecoder],
    [btoa], [atob], [JSON.parse], [JSON.stringify]) are modelled concretely
    after their standards.  The cryptographic primitives of WebCrypto
    (PBKDF2, AES-GCM, the random source) are an interface, [WebCrypto]. *)

From Stdlib Require Import ZArith List Bool Lia QArith.
From Stdlib Require Import Strings.String Strings.Ascii Strings.Byte.
Import ListNotations.
Open Scope Z_scope.

(** * Part I: the embedding *)

(** ** Completion of a call: a value, or a thrown exception / rejected promise *)

Inductive Exn : Type :=
| InvalidCharacterError   (* DOMException of btoa / atob *)
| SyntaxError             (* JSON.parse *)
| TypeError               (* property read on null / undefined *)
| OperationError          (* crypto.subtle.decrypt: authentication failed *)
| SecurityError           (* storage access denied *)
| AuthError.              (* the auth collaborator rejected *)

Inductive Outcome (A : Type) : Type :=
| Returned (a : A)
| Thrown (e : Exn).
Arguments Returned {A} a.
Arguments Thrown {A} e.

Definition bind {A B : Type} (m : Outcome A) (k : A -> Outcome B) : Outcome B :=
  match m with
  | Returned a => k a
  | Thrown e => Thrown e
  end.

Declare Scope outcome_scope.
Delimit Scope outcome_scope with outcome.
Notation "x <- m ;; k" := (bind m (fun x => k))
  (at level 61, m at next level, right associativity) : outcome_scope.
Open Scope outcome_scope.

(** [try { body } catch { handler }] *)
Definition try_catch {A : Type} (body : Outcome A) (handler : A) : A :=
  match body with
  | Returned a => a
  | Thrown _ => handler
  end.

(** ** JavaScript strings: sequences of UTF-16 code units *)

Definition jsstring : Type := list Z.

Definition is_code_unit (u : Z) : bool := (0 <=? u) && (u <? 65536).

(** An ASCII literal as a JavaScript string. *)
Definition js (s : string) : jsstring :=
  map (fun a => Z.of_N (N_of_ascii a)) (list_ascii_of_string s).

(** The same, with an apostrophe in the literal standing for a double quote
    in the string (for JSON texts). *)
Definition jsq (s : string) : jsstring :=
  map (fun c => if c =? 39 then 34 else c) (js s).

Fixpoint jsstring_eqb (a b : jsstring) : bool :=
  match a, b with
  | [], [] => true
  | x :: a', y :: b' => (x =? y) && jsstring_eqb a' b'
  | _, _ => false
  end.

(** [s.startsWith(prefix)] *)
Fixpoint startsWith (s prefix : jsstring) {struct prefix} : bool :=
  match prefix, s with
  | [], _ => true
  | p :: prefix', c :: s' => (c =? p) && startsWith s' prefix'
  | _ :: _, [] => false
  end.

(** A string is truthy when it is not empty. *)
Definition truthy (s : jsstring) : bool :=
  match s with [] => false | _ :: _ => true end.

(** ** Bytes of an ArrayBuffer / Uint8Array *)

Definition bytes : Type := list byte.

Definition Z_of_byte (b : byte) : Z := Z.of_N (Byte.to_N b).

(** Storing a number into a [Uint8Array] keeps it modulo 256. *)
Definition byte_of_Z (z : Z) : byte :=
  match Byte.of_N (Z.to_N (z mod 256)) with
  | Some b => b
  | None => x00
  end.

(** ** TextEncoder / TextDecoder (WHATWG Encoding, UTF-8) *)

Definition is_high_surrogate (u : Z) : bool := (0xD800 <=? u) && (u <=? 0xDBFF).
Definition is_low_surrogate (u : Z) : bool := (0xDC00 <=? u) && (u <=? 0xDFFF).

Definition REPLACEMENT : Z := 0xFFFD.
Definition BOM : Z := 0xFEFF.

(** The code points of a string read as a USVString: a surrogate pair is one
    supplementary code point, a lone surrogate becomes U+FFFD. *)
Fixpoint code_points (s : jsstring) : list Z :=
  match s with
  | [] => []
  | u :: rest =>
      if is_high_surrogate u then
        match rest with
        | l :: rest' =>
            if is_low_surrogate l
            then (0x10000 + (u - 0xD800) * 0x400 + (l - 0xDC00)) :: code_points rest'
            else REPLACEMENT :: code_points rest
        | [] => [REPLACEMENT]
        end
      else if is_low_surrogate u then REPLACEMENT :: code_points rest
      else u :: code_points rest
  end.

(** [String.prototype.isWellFormed]: 16-bit code units, no lone surrogate. *)
Fixpoint isWellFormed (s : jsstring) : bool :=
  match s with
  | [] => true
  | u :: rest =>
      is_code_unit u &&
      (if is_high_surrogate u then
         match rest with
         | l :: rest' => is_low_surrogate l && isWellFormed rest'
         | [] => false
         end
       else negb (is_low_surrogate u) && isWellFormed rest)
  end.

Definition utf8_encode_cp (cp : Z) : list Z :=
  if cp <? 0x80 then [cp]
  else if cp <? 0x800 then [0xC0 + cp / 64; 0x80 + cp mod 64]
  else if cp <? 0x10000 then
    [0xE0 + cp / 4096; 0x80 + (cp / 64) mod 64; 0x80 + cp mod 64]
  else
    [0xF0 + cp / 262144; 0x80 + (cp / 4096) mod 64;
     0x80 + (cp / 64) mod 64; 0x80 + cp mod 64].

(** [new TextEncoder().encode(s)].  The argument is a USVString: Web IDL
    converts the string by replacing every unpaired surrogate with U+FFFD
    before the UTF-8 encoder sees it. *)
Definition TextEncoder_encode (s : jsstring) : bytes :=
  map byte_of_Z (flat_map utf8_encode_cp (code_points s)).

(** The UTF-8 decoder's state between bytes: the code point so far, the
    continuation bytes still needed, and the bounds of the next byte. *)
Record utf8_pending : Type := mkPending {
  pending_cp : Z;
  pending_needed : nat;
  pending_lower : Z;
  pending_upper : Z
}.

(** A byte read with no sequence in progress. *)
Definition utf8_lead (b : Z) : list Z * option utf8_pending :=
  if b <=? 0x7F then ([b], None)
  else if (0xC2 <=? b) && (b <=? 0xDF) then
    ([], Some (mkPending (b - 0xC0) 0 0x80 0xBF))
  else if (0xE0 <=? b) && (b <=? 0xEF) then
    ([], Some (mkPending (b - 0xE0) 1
                 (if b =? 0xE0 then 0xA0 else 0x80)
                 (if b =? 0xED then 0x9F else 0xBF)))
  else if (0xF0 <=? b) && (b <=? 0xF4) then
    ([], Some (mkPending (b - 0xF0) 2
                 (if b =? 0xF0 then 0x90 else 0x80)
                 (if b =? 0xF4 then 0x8F else 0xBF)))
  else ([REPLACEMENT], None).

(** The decoder in replacement mode ([fatal] unset): a byte that cannot
    continue the sequence in progress ends it with U+FFFD and is read again as
    a lead byte; the end of input inside a sequence gives U+FFFD.
    [pending_needed] counts the continuation bytes after the next one. *)
Fixpoint utf8_decode (st : option utf8_pending) (bs : list Z) : list Z :=
  match bs with
  | [] => match st with None => [] | Some _ => [REPLACEMENT] end
  | b :: rest =>
      match st with
      | None =>
          let '(out, st') := utf8_lead b in out ++ utf8_decode st' rest
      | Some p =>
          if (pending_lower p <=? b) && (b <=? pending_upper p) then
            let cp := pending_cp p * 64 + b mod 64 in
            match pending_needed p with
            | O => cp :: utf8_decode None rest
            | S n => utf8_decode (Some (mkPending cp n 0x80 0xBF)) rest
            end
          else
            let '(out, st') := utf8_lead b in
            REPLACEMENT :: out ++ utf8_decode st' rest
      end
  end.

Definition utf16_encode_cp (cp : Z) : jsstring :=
  if cp <? 0x10000 then [cp]
  else [0xD800 + (cp - 0x10000) / 0x400; 0xDC00 + (cp - 0x10000) mod 0x400].

(** With [ignoreBOM] unset (the default of [new TextDecoder()]), the
    decoder's output is serialized without a first code point U+FEFF
    (Encoding, "serialize I/O queue": BOM seen is set at the first item, and
    the item is skipped when it is U+FEFF). *)
Definition strip_bom (cps : list Z) : list Z :=
  match cps with
  | cp :: rest => if cp =? BOM then rest else cps
  | [] => []
  end.

(** [new TextDecoder().decode(buf)] *)
Definition TextDecoder_decode (buf : bytes) : jsstring :=
  flat_map utf16_encode_cp (strip_bom (utf8_decode None (map Z_of_byte buf))).

(** ** btoa / atob (WHATWG HTML: forgiving-base64) *)

Definition PAD : Z := 61.   (* '=' *)

Definition b64_char (n : Z) : Z :=
  if n <? 26 then 65 + n                  (* A-Z *)
  else if n <? 52 then 97 + (n - 26)      (* a-z *)
  else if n <? 62 then 48 + (n - 52)      (* 0-9 *)
  else if n =? 62 then 43                 (* + *)
  else 47.                                (* / *)

Definition b64_value (c : Z) : option Z :=
  if (65 <=? c) && (c <=? 90) then Some (c - 65)
  else if (97 <=? c) && (c <=? 122) then Some (c - 97 + 26)
  else if (48 <=? c) && (c <=? 57) then Some (c - 48 + 52)
  else if c =? 43 then Some 62
  else if c =? 47 then Some 63
  else None.

Fixpoint b64_encode (bs : list Z) : jsstring :=
  match bs with
  | [] => []
  | a :: [] =>
      [b64_char (a / 4); b64_char (a mod 4 * 16); PAD; PAD]
  | a :: b :: [] =>
      [b64_char (a / 4); b64_char (a mod 4 * 16 + b / 16);
       b64_char (b mod 16 * 4); PAD]
  | a :: b :: c :: rest =>
      b64_char (a / 4) :: b64_char (a mod 4 * 16 + b / 16)
      :: b64_char (b mod 16 * 4 + c / 64) :: b64_char (c mod 64)
      :: b64_encode rest
  end.

Definition is_latin1 (c : Z) : bool := (0 <=? c) && (c <=? 255).

(** [btoa(s)]: throws when a code unit is above U+00FF. *)
Definition btoa (s : jsstring) : Outcome jsstring :=
  if forallb is_latin1 s then Returned (b64_encode s)
  else Thrown InvalidCharacterError.

Definition is_ascii_whitespace (c : Z) : bool :=
  (c =? 9) || (c =? 10) || (c =? 12) || (c =? 13) || (c =? 32).

(** Drops one or two ['='] at the end of the data. *)
Fixpoint strip_padding (s : jsstring) : jsstring :=
  match s with
  | [] => []
  | c :: rest =>
      if (c =? PAD) &&
         match rest with
         | [] => true
         | d :: [] => d =? PAD
         | _ => false
         end
      then []
      else c :: strip_padding rest
  end.

Fixpoint b64_values (s : jsstring) : option (list Z) :=
  match s with
  | [] => Some []
  | c :: rest =>
      match b64_value c, b64_values rest with
      | Some v, Some vs => Some (v :: vs)
      | _, _ => None
      end
  end.

(** Four sextets give three bytes; two or three left at the end give one or
    two bytes, the spare bits being discarded. *)
Fixpoint b64_decode (vs : list Z) : list Z :=
  match vs with
  | a :: b :: c :: d :: rest =>
      (a * 4 + b / 16) :: (b mod 16 * 16 + c / 4) :: (c mod 4 * 64 + d)
      :: b64_decode rest
  | a :: b :: c :: [] => [a * 4 + b / 16; b mod 16 * 16 + c / 4]
  | a :: b :: [] => [a * 4 + b / 16]
  | _ => []
  end.

Definition length_mod4 (s : jsstring) : Z := Z.of_nat (List.length s) mod 4.

(** The decode proper, on data with the whitespace removed. *)
Definition forgiving_base64_decode (data : jsstring) : Outcome jsstring :=
  let data := if length_mod4 data =? 0 then strip_padding data else data in
  if length_mod4 data =? 1 then Thrown InvalidCharacterError
  else match b64_values data with
       | None => Thrown InvalidCharacterError
       | Some vs => Returned (b64_decode vs)
       end.

(** [atob(s)] *)
Definition atob (s : jsstring) : Outcome jsstring :=
  forgiving_base64_decode (filter (fun c => negb (is_ascii_whitespace c)) s).

(** [ab2b64] and [b642ab] of [useVaultKey.ts]. *)
Definition ab2b64 (buf : bytes) : Outcome jsstring :=
  btoa (map Z_of_byte buf).

Definition b642ab (b64 : jsstring) : Outcome bytes :=
  bin <- atob b64 ;;
  Returned (map byte_of_Z bin).

(** ** JSON.parse / JSON.stringify (ECMA-262, ECMA-404) *)

Set Warnings "-register-all".

(** A parsed JSON value.  A number keeps its source text: nothing in the
    modelled code reads a number's value.  An object keeps its members in
    source order, repeated names included. *)
Inductive json : Type :=
| JNull
| JBool (b : bool)
| JNumber (lexeme : jsstring)
| JString (s : jsstring)
| JArray (elems : list json)
| JObject (members : list (jsstring * json)).

Inductive token : Type :=
| TLBrace | TRBrace | TLBracket | TRBracket | TColon | TComma
| TStr (s : jsstring)
| TNum (lexeme : jsstring)
| TTrue | TFalse | TNull.

(** Where the lexer stands inside a number: an optional minus, then zero or
    a run of digits that does not begin with zero, then an optional fraction
    (a dot and digits), then an optional exponent (e or E, a sign, digits). *)
Inductive num_state : Type :=
| NMinus | NZero | NInt | NDot | NFrac | NExp | NExpSign | NExpDigits.

Inductive lex_state : Type :=
| LIdle
| LString (acc_rev : jsstring)
| LEscape (acc_rev : jsstring)
| LUnicode (acc_rev : jsstring) (digits : list Z)
| LNumber (st : num_state) (lexeme_rev : jsstring)
| LLiteral (tok : token) (expected : jsstring).

Definition is_json_whitespace (c : Z) : bool :=
  (c =? 9) || (c =? 10) || (c =? 13) || (c =? 32).

Definition is_digit (c : Z) : bool := (48 <=? c) && (c <=? 57).

Definition hex_value (c : Z) : option Z :=
  if (48 <=? c) && (c <=? 57) then Some (c - 48)
  else if (97 <=? c) && (c <=? 102) then Some (c - 97 + 10)
  else if (65 <=? c) && (c <=? 70) then Some (c - 65 + 10)
  else None.

Definition num_accepting (st : num_state) : bool :=
  match st with
  | NZero | NInt | NFrac | NExpDigits => true
  | NMinus | NDot | NExp | NExpSign => false
  end.

(** The next state of a number on one more character, if it continues it. *)
Definition num_step (st : num_state) (c : Z) : option num_state :=
  match st with
  | NMinus => if c =? 48 then Some NZero else if is_digit c then Some NInt else None
  | NZero =>
      if c =? 46 then Some NDot
      else if (c =? 101) || (c =? 69) then Some NExp else None
  | NInt =>
      if is_digit c then Some NInt
      else if c =? 46 then Some NDot
      else if (c =? 101) || (c =? 69) then Some NExp else None
  | NDot => if is_digit c then Some NFrac else None
  | NFrac =>
      if is_digit c then Some NFrac
      else if (c =? 101) || (c =? 69) then Some NExp else None
  | NExp =>
      if (c =? 43) || (c =? 45) then Some NExpSign
      else if is_digit c then Some NExpDigits else None
  | NExpSign => if is_digit c then Some NExpDigits else None
  | NExpDigits => if is_digit c then Some NExpDigits else None
  end.

(** One character read between tokens: the state it leads to and the token
    it completes, if any. *)
Definition idle_step (c : Z) : option (lex_state * option token) :=
  if is_json_whitespace c then Some (LIdle, None)
  else if c =? 123 then Some (LIdle, Some TLBrace)
  else if c =? 125 then Some (LIdle, Some TRBrace)
  else if c =? 91 then Some (LIdle, Some TLBracket)
  else if c =? 93 then Some (LIdle, Some TRBracket)
  else if c =? 58 then Some (LIdle, Some TColon)
  else if c =? 44 then Some (LIdle, Some TComma)
  else if c =? 34 then Some (LString [], None)
  else if c =? 45 then Some (LNumber NMinus [c], None)
  else if c =? 48 then Some (LNumber NZero [c], None)
  else if is_digit c then Some (LNumber NInt [c], None)
  else if c =? 116 then Some (LLiteral TTrue (js "rue"), None)
  else if c =? 102 then Some (LLiteral TFalse (js "alse"), None)
  else if c =? 110 then Some (LLiteral TNull (js "ull"), None)
  else None.

Definition escape_value (c : Z) : option Z :=
  if c =? 34 then Some 34            (* a double quote *)
  else if c =? 92 then Some 92       (* a backslash *)
  else if c =? 47 then Some 47       (* a slash *)
  else if c =? 98 then Some 8        (* b: backspace *)
  else if c =? 102 then Some 12      (* f: form feed *)
  else if c =? 110 then Some 10      (* n: line feed *)
  else if c =? 114 then Some 13      (* r: carriage return *)
  else if c =? 116 then Some 9       (* t: tab *)
  else None.

Definition push_token (t : option token) (toks_rev : list token) : list token :=
  match t with Some t => t :: toks_rev | None => toks_rev end.

Fixpoint lex (st : lex_state) (toks_rev : list token) (s : jsstring)
  : option (list token) :=
  match s with
  | [] =>
      match st with
      | LIdle => Some (rev toks_rev)
      | LNumber n lexeme_rev =>
          if num_accepting n then Some (rev (TNum (rev lexeme_rev) :: toks_rev))
          else None
      | _ => None
      end
  | c :: rest =>
      match st with
      | LIdle =>
          match idle_step c with
          | Some (st', t) => lex st' (push_token t toks_rev) rest
          | None => None
          end
      | LString acc =>
          if c =? 34 then lex LIdle (TStr (rev acc) :: toks_rev) rest
          else if c =? 92 then lex (LEscape acc) toks_rev rest
          else if c <? 32 then None
          else lex (LString (c :: acc)) toks_rev rest
      | LEscape acc =>
          if c =? 117 then lex (LUnicode acc []) toks_rev rest
          else match escape_value c with
               | Some v => lex (LString (v :: acc)) toks_rev rest
               | None => None
               end
      | LUnicode acc digits =>
          match hex_value c with
          | None => None
          | Some d =>
              match digits with
              | d3 :: d2 :: d1 :: [] =>
                  lex (LString (((d1 * 16 + d2) * 16 + d3) * 16 + d :: acc))
                      toks_rev rest
              | _ => lex (LUnicode acc (d :: digits)) toks_rev rest
              end
          end
      | LNumber n lexeme_rev =>
          match num_step n c with
          | Some n' => lex (LNumber n' (c :: lexeme_rev)) toks_rev rest
          | None =>
              if num_accepting n then
                match idle_step c with
                | Some (st', t) =>
                    lex st' (push_token t (TNum (rev lexeme_rev) :: toks_rev)) rest
                | None => None
                end
              else None
          end
      | LLiteral tok expected =>
          match expected with
          | [] => None
          | e :: [] =>
              if c =? e then lex LIdle (tok :: toks_rev) rest else None
          | e :: expected' =>
              if c =? e then lex (LLiteral tok expected') toks_rev rest else None
          end
      end
  end.

(** The value under construction around the one being read. *)
Inductive frame : Type :=
| FArr (elems_rev : list json)
| FObj (members_rev : list (jsstring * json)) (key : jsstring).

Inductive pstate : Type :=
| PValue (stack : list frame)
| PArrStart (stack : list frame)
| PArrNext (elems_rev : list json) (stack : list frame)
| PObjStart (stack : list frame)
| PObjNext (members_rev : list (jsstring * json)) (stack : list frame)
| PKey (members_rev : list (jsstring * json)) (stack : list frame)
| PColon (members_rev : list (jsstring * json)) (key : jsstring) (stack : list frame)
| PDone (v : json)
| PError.

(** A value is complete: it goes into the frame that waits for it. *)
Definition complete (v : json) (stack : list frame) : pstate :=
  match stack with
  | [] => PDone v
  | FArr elems_rev :: stack' => PArrNext (v :: elems_rev) stack'
  | FObj members_rev key :: stack' => PObjNext ((key, v) :: members_rev) stack'
  end.

Definition value_step (stack : list frame) (t : token) : pstate :=
  match t with
  | TStr s => complete (JString s) stack
  | TNum l => complete (JNumber l) stack
  | TTrue => complete (JBool true) stack
  | TFalse => complete (JBool false) stack
  | TNull => complete JNull stack
  | TLBracket => PArrStart stack
  | TLBrace => PObjStart stack
  | _ => PError
  end.

Definition pstep (st : pstate) (t : token) : pstate :=
  match st with
  | PValue stack => value_step stack t
  | PArrStart stack =>
      match t with
      | TRBracket => complete (JArray []) stack
      | _ => value_step (FArr [] :: stack) t
      end
  | PArrNext elems_rev stack =>
      match t with
      | TComma => PValue (FArr elems_rev :: stack)
      | TRBracket => complete (JArray (rev elems_rev)) stack
      | _ => PError
      end
  | PObjStart stack =>
      match t with
      | TRBrace => complete (JObject []) stack
      | TStr k => PColon [] k stack
      | _ => PError
      end
  | PObjNext members_rev stack =>
      match t with
      | TComma => PKey members_rev stack
      | TRBrace => complete (JObject (rev members_rev)) stack
      | _ => PError
      end
  | PKey members_rev stack =>
      match t with
      | TStr k => PColon members_rev k stack
      | _ => PError
      end
  | PColon members_rev key stack =>
      match t with
      | TColon => PValue (FObj members_rev key :: stack)
      | _ => PError
      end
  | PDone _ => PError
  | PError => PError
  end.

(** [JSON.parse(text)] *)
Definition JSON_parse (text : jsstring) : Outcome json :=
  match lex LIdle [] text with
  | None => Thrown SyntaxError
  | Some toks =>
      match fold_left pstep toks (PValue []) with
      | PDone v => Returned v
      | _ => Thrown SyntaxError
      end
  end.

(** The value of an object's member: of a repeated name, the last one. *)
Fixpoint lookup_member (members : list (jsstring * json)) (k : jsstring)
  : option json :=
  match members with
  | [] => None
  | (k', v) :: rest =>
      match lookup_member rest k with
      | Some v' => Some v'
      | None => if jsstring_eqb k' k then Some v else None
      end
  end.

(** [v.k] for a parsed value [v] and a name [k] that no built-in prototype
    defines ([iv], [ct]): [None] is [undefined]; reading a property of [null]
    throws. *)
Definition get_property (v : json) (k : jsstring) : Outcome (option json) :=
  match v with
  | JNull => Thrown TypeError
  | JObject members => Returned (lookup_member members k)
  | _ => Returned None
  end.

(** [typeof x === 'string'] *)
Definition typeof_string (x : option json) : bool :=
  match x with
  | Some (JString _) => true
  | _ => false
  end.

Definition hex_digit (n : Z) : Z := if n <? 10 then 48 + n else 87 + n.

Definition unicode_escape (u : Z) : jsstring :=
  [92; 117; hex_digit (u / 4096); hex_digit (u / 256 mod 16);
   hex_digit (u / 16 mod 16); hex_digit (u mod 16)].

Definition quote_unit (u : Z) : jsstring :=
  if u =? 8 then [92; 98]
  else if u =? 9 then [92; 116]
  else if u =? 10 then [92; 110]
  else if u =? 12 then [92; 102]
  else if u =? 13 then [92; 114]
  else if u =? 34 then [92; 34]
  else if u =? 92 then [92; 92]
  else if u <? 32 then unicode_escape u
  else [u].

Fixpoint quote_body (s : jsstring) : jsstring :=
  match s with
  | [] => []
  | u :: rest =>
      if is_high_surrogate u then
        match rest with
        | l :: rest' =>
            if is_low_surrogate l then u :: l :: quote_body rest'
            else unicode_escape u ++ quote_body rest
        | [] => unicode_escape u
        end
      else if is_low_surrogate u then unicode_escape u ++ quote_body rest
      else quote_unit u ++ quote_body rest
  end.

(** QuoteJSONString *)
Definition quote (s : jsstring) : jsstring := 34 :: quote_body s ++ [34].

Fixpoint join_comma (parts : list jsstring) : jsstring :=
  match parts with
  | [] => []
  | p :: [] => p
  | p :: rest => p ++ 44 :: join_comma rest
  end.

(** [JSON.stringify(v)], without indentation. *)
Fixpoint JSON_stringify (v : json) : jsstring :=
  match v with
  | JNull => js "null"
  | JBool true => js "true"
  | JBool false => js "false"
  | JNumber lexeme => lexeme
  | JString s => quote s
  | JArray elems => 91 :: join_comma (map JSON_stringify elems) ++ [93]
  | JObject members =>
      123 :: join_comma
               (map (fun kv => quote (fst kv) ++ 58 :: JSON_stringify (snd kv))
                    members)
          ++ [125]
  end.

(** ** WebCrypto: what the code asks of [crypto.subtle] and [crypto] *)

Inductive HashName : Type := SHA_1 | SHA_256 | SHA_384 | SHA_512.
Inductive KdfName : Type := PBKDF2 | HKDF.
Inductive CipherName : Type := AES_GCM | AES_CBC | AES_CTR.
Inductive KeyFormat : Type := Raw | Pkcs8 | Spki | Jwk.
Inductive KeyUsage : Type := UEncrypt | UDecrypt | UDeriveKey | UDeriveBits.

(** The arguments of [crypto.subtle.importKey]. *)
Record ImportKeyCall : Type := mkImportKey {
  ik_format : KeyFormat;
  ik_data : bytes;
  ik_algorithm : KdfName;
  ik_extractable : bool;
  ik_usages : list KeyUsage
}.

(** [{ name: 'PBKDF2', salt, iterations, hash }] *)
Record Pbkdf2Params : Type := mkPbkdf2 {
  kdf_name : KdfName;
  kdf_salt : bytes;
  kdf_iterations : Z;
  kdf_hash : HashName
}.

(** [{ name: 'AES-GCM', length }] *)
Record AesKeyGenParams : Type := mkAesKeyGen {
  aes_name : CipherName;
  aes_length : Z
}.

(** The arguments of [crypto.subtle.deriveKey]. *)
Record DeriveKeyCall : Type := mkDeriveKey {
  dk_algorithm : Pbkdf2Params;
  dk_baseKey : ImportKeyCall;
  dk_derived : AesKeyGenParams;
  dk_extractable : bool;
  dk_usages : list KeyUsage
}.

(** The primitives themselves are not modelled: a host provides keys, PBKDF2
    key derivation as a function of the call's arguments, AES-GCM (encryption
    of a plaintext the cipher accepts; decryption, [None] when the
    authentication fails), the stream of the random source, and the text of
    a number ([Number::toString], of the number a JSON lexeme denotes). *)
Class Host : Type := {
  CryptoKey : Type;
  subtle_deriveKey : DeriveKeyCall -> CryptoKey;
  aes_gcm_encrypt : CryptoKey -> bytes -> bytes -> bytes;
  aes_gcm_decrypt : CryptoKey -> bytes -> bytes -> option bytes;
  entropy : nat -> byte;
  Number_toString : jsstring -> jsstring
}.

(** AES-GCM decrypts what it encrypted under the same key and the same
    96-bit nonce. *)
Class HostLaws (H : Host) : Prop := {
  aes_gcm_correct :
    forall (k : CryptoKey) (iv pt : bytes),
      List.length iv = 12%nat ->
      aes_gcm_decrypt k iv (aes_gcm_encrypt k iv pt) = Some pt
}.

(** The random source: how many bytes have been drawn so far. *)
Definition Rng : Type := nat.

Section Vault.
Context {H : Host}.

(** [crypto.getRandomValues(new Uint8Array(n))] *)
Definition getRandomValues (n : nat) (g : Rng) : bytes * Rng :=
  (map entropy (seq g n), (g + n)%nat).

(** [ToString] of a parsed value or [undefined]; an array joins its
    elements with commas, [null] among them giving the empty string. *)
Fixpoint json_ToString (v : json) : jsstring :=
  match v with
  | JNull => js "null"
  | JBool true => js "true"
  | JBool false => js "false"
  | JNumber lexeme => Number_toString lexeme
  | JString s => s
  | JArray elems =>
      join_comma
        (map (fun e => match e with JNull => [] | _ => json_ToString e end) elems)
  | JObject _ => js "[object Object]"
  end.

Definition ToString (x : option json) : jsstring :=
  match x with
  | None => js "undefined"
  | Some v => json_ToString v
  end.

(** ** src/hooks/useVaultKey.ts *)

Definition PBKDF2_ITERATIONS : Z := 200000.

Definition APP_SALT_PREFIX : jsstring := js "securevault-v1-".

(** The two WebCrypto calls of [deriveAesKey], with their arguments. *)
Definition deriveAesKey_call (token saltStr : jsstring) : DeriveKeyCall :=
  let salt := TextEncoder_encode (APP_SALT_PREFIX ++ saltStr) in
  let keyMaterial :=
    mkImportKey Raw (TextEncoder_encode token) PBKDF2 false [UDeriveKey] in
  mkDeriveKey (mkPbkdf2 PBKDF2 salt PBKDF2_ITERATIONS SHA_256)
              keyMaterial
              (mkAesKeyGen AES_GCM 256)
              false
              [UEncrypt; UDecrypt].

Definition deriveAesKey (token saltStr : jsstring) : CryptoKey :=
  subtle_deriveKey (deriveAesKey_call token saltStr).

Definition encryptWithKey (plaintext : jsstring) (key : CryptoKey) (g : Rng)
  : Outcome jsstring * Rng :=
  let '(iv, g') := getRandomValues 12 g in
  let encoded := TextEncoder_encode plaintext in
  let ciphertext := aes_gcm_encrypt key iv encoded in
  (iv64 <- ab2b64 iv ;;
   ct64 <- ab2b64 ciphertext ;;
   let packed :=
     JSON_stringify (JObject [(js "iv", JString iv64); (js "ct", JString ct64)]) in
   btoa packed,
   g').

Definition decryptWithKey (bundle : jsstring) (key : CryptoKey) : Outcome jsstring :=
  bin <- atob bundle ;;
  parsed <- JSON_parse bin ;;
  iv <- get_property parsed (js "iv") ;;
  ct <- get_property parsed (js "ct") ;;
  iv_bytes <- b642ab (ToString iv) ;;
  ct_bytes <- b642ab (ToString ct) ;;
  match aes_gcm_decrypt key iv_bytes ct_bytes with
  | Some decrypted => Returned (TextDecoder_decode decrypted)
  | None => Thrown OperationError
  end.

End Vault.

(** [isEncryptedBundle]: the [&&] reads [parsed.ct] only when [parsed.iv] is a
    string; whatever is thrown inside the [try] gives [false]. *)
Definition isEncryptedBundle (value : jsstring) : bool :=
  try_catch
    (bin <- atob value ;;
     parsed <- JSON_parse bin ;;
     iv <- get_property parsed (js "iv") ;;
     if typeof_string iv then
       ct <- get_property parsed (js "ct") ;;
       Returned (typeof_string ct)
     else Returned false)
    false.

(** ** The process-wide key store of [useVaultKey.ts] *)

Section KeyStore.
Context {H : Host}.

Record VaultKeyState : Type := mkVaultKeyState {
  cloudKey : option CryptoKey;
  localKey : option CryptoKey
}.

(** [_globalState], the React state of every hook instance registered in
    [_setters] (as [notifySetters] last set it), and the session-storage
    entry [local_vault_unlocked]. *)
Record KeyStore : Type := mkKeyStore {
  globalState : VaultKeyState;
  setters : list VaultKeyState;
  local_vault_unlocked : option jsstring
}.

Definition initial_KeyStore : KeyStore :=
  mkKeyStore (mkVaultKeyState None None) [] None.

Definition notifySetters (ks : KeyStore) : KeyStore :=
  mkKeyStore (globalState ks)
             (map (fun _ => globalState ks) (setters ks))
             (local_vault_unlocked ks).

(** A component mounts [useVaultKey]: its state starts as a copy of
    [_globalState] and its setter is pushed on [_setters]. *)
Definition useVaultKey_mount (ks : KeyStore) : KeyStore :=
  mkKeyStore (globalState ks) (setters ks ++ [globalState ks])
             (local_vault_unlocked ks).

Definition setCloudKey (userId : jsstring) (ks : KeyStore) : KeyStore :=
  let key := deriveAesKey userId (js "cloud-" ++ userId) in
  notifySetters
    (mkKeyStore (mkVaultKeyState (Some key) (localKey (globalState ks)))
                (setters ks) (local_vault_unlocked ks)).

Definition setLocalKey (masterPassword userId : jsstring) (ks : KeyStore)
  : KeyStore :=
  let key := deriveAesKey masterPassword (js "local-" ++ userId) in
  let ks' :=
    notifySetters
      (mkKeyStore (mkVaultKeyState (cloudKey (globalState ks)) (Some key))
                  (setters ks) (local_vault_unlocked ks)) in
  mkKeyStore (globalState ks') (setters ks') (Some (js "1")).

Definition clearKeys (ks : KeyStore) : KeyStore :=
  notifySetters (mkKeyStore (mkVaultKeyState None None) (setters ks) None).

(** [sessionStorage.getItem('local_vault_unlocked') === '1'] *)
Definition isLocalUnlocked (ks : KeyStore) : bool :=
  match local_vault_unlocked ks with
  | Some v => jsstring_eqb v (js "1")
  | None => false
  end.

End KeyStore.

(** ** usePasswords (the hook with encryption) *)

Inductive Strength : Type := Weak | Medium | Strong.
Inductive StorageType : Type := LocalStorage | CloudStorage.

Module Entry.
Record t : Type := mk {
  id : jsstring;
  title : jsstring;
  username : jsstring;
  password : jsstring;
  url : option jsstring;
  category : jsstring;
  tags : list jsstring;
  strength : Strength;
  storageType : StorageType;
  createdAt : Z;
  lastUsed : option Z;
  notes : option jsstring;
  isFavorite : bool
}.

(** [{ ...p, password: pw }] *)
Definition with_password (p : t) (pw : jsstring) : t :=
  mk (id p) (title p) (username p) pw (url p) (category p) (tags p)
     (strength p) (storageType p) (createdAt p) (lastUsed p) (notes p)
     (isFavorite p).

Definition with_storageType (p : t) (st : StorageType) : t :=
  mk (id p) (title p) (username p) (password p) (url p) (category p) (tags p)
     (strength p) st (createdAt p) (lastUsed p) (notes p) (isFavorite p).
End Entry.

(** [Partial<PasswordEntry>], the fields [updatePassword] passes on. *)
Module Partial.
Record t : Type := mk {
  title : option jsstring;
  username : option jsstring;
  password : option jsstring;
  url : option jsstring;
  category : option jsstring;
  tags : option (list jsstring);
  strength : option Strength;
  notes : option jsstring;
  isFavorite : option bool;
  lastUsed : option Z
}.

Definition with_password (u : t) (pw : option jsstring) : t :=
  mk (title u) (username u) pw (url u) (category u) (tags u) (strength u)
     (notes u) (isFavorite u) (lastUsed u).

Definition or_else {A : Type} (x : option A) (d : A) : A :=
  match x with Some a => a | None => d end.

Definition or_keep {A : Type} (x : option A) (d : option A) : option A :=
  match x with Some a => Some a | None => d end.

(** A record with the given fields written over it, the others kept:
    [{ ...p, ...updates }] locally, the [update] of the remote table. *)
Definition apply (u : t) (p : Entry.t) : Entry.t :=
  Entry.mk (Entry.id p)
           (or_else (title u) (Entry.title p))
           (or_else (username u) (Entry.username p))
           (or_else (password u) (Entry.password p))
           (or_keep (url u) (Entry.url p))
           (or_else (category u) (Entry.category p))
           (or_else (tags u) (Entry.tags p))
           (or_else (strength u) (Entry.strength p))
           (Entry.storageType p)
           (Entry.createdAt p)
           (or_keep (lastUsed u) (Entry.lastUsed p))
           (or_keep (notes u) (Entry.notes p))
           (or_else (isFavorite u) (Entry.isFavorite p)).
End Partial.

(** The lock emoji U+1F512, a surrogate pair, and the two sentinels. *)
Definition LOCK : jsstring := [0xD83D; 0xDD12].
Definition LOCKED : jsstring := LOCK ++ js " (locked)".
Definition WRONG_KEY : jsstring := LOCK ++ js " (wrong key)".

Section UsePasswords.
Context {H : Host}.

Definition safeDecrypt (value : jsstring) (key : option CryptoKey) : jsstring :=
  if negb (isEncryptedBundle value) then value
  else match key with
       | None => LOCKED
       | Some k => try_catch (decryptWithKey value k) WRONG_KEY
       end.

(** The state of the hook. *)
Record Passwords : Type := mkPasswords {
  localPasswords : list Entry.t;
  cloudPasswords : list Entry.t;
  isLoading : bool;
  localLoaded : bool
}.

Definition initial_Passwords : Passwords := mkPasswords [] [] true false.

(** What the page shares with the world: the entries that the JSON text
    under [securevault_passwords] in local storage denotes ([None]: no such
    item), the rows of the signed-in user in the remote table, and the random
    source. *)
Record Stores : Type := mkStores {
  stored_passwords : option (list Entry.t);
  remote_passwords : list Entry.t;
  rng : Rng
}.

(** [loadLocal], the effect on [localKey]. *)
Definition loadLocal (key : option CryptoKey) (w : Stores) (st : Passwords)
  : Passwords :=
  let loaded :=
    match stored_passwords w with
    | Some parsed =>
        map (fun p =>
               Entry.with_password (Entry.with_storageType p LocalStorage)
                                   (safeDecrypt (Entry.password p) key))
            parsed
    | None => []
    end in
  mkPasswords loaded (cloudPasswords st) false true.

(** The body of [persist]'s [map] for one entry. *)
Definition persist_entry (key : option CryptoKey) (p : Entry.t) (g : Rng)
  : Outcome Entry.t * Rng :=
  let encPw := Entry.password p in
  match key with
  | Some k =>
      if truthy encPw && negb (startsWith encPw LOCK)
         && negb (isEncryptedBundle encPw)
      then
        let '(r, g') := encryptWithKey encPw k g in
        (encPw' <- r ;; Returned (Entry.with_password p encPw'), g')
      else (Returned (Entry.with_password p encPw), g)
  | None => (Returned (Entry.with_password p encPw), g)
  end.

(** The same in the earlier revision of the hook: no test for a value that
    is an envelope already. *)
Definition persist_entry_rev0 (key : option CryptoKey) (p : Entry.t) (g : Rng)
  : Outcome Entry.t * Rng :=
  match key with
  | Some k =>
      if truthy (Entry.password p) && negb (startsWith (Entry.password p) LOCK)
      then
        let '(r, g') := encryptWithKey (Entry.password p) k g in
        (encPw <- r ;; Returned (Entry.with_password p encPw), g')
      else (Returned (Entry.with_password p (Entry.password p)), g)
  | None => (Returned (Entry.with_password p (Entry.password p)), g)
  end.

(** [Promise.all(list.map(async ...))]: every callback runs, in order; the
    result is the list of their values, or the first rejection. *)
Fixpoint promise_all_map {A B : Type} (f : A -> Rng -> Outcome B * Rng)
  (l : list A) (g : Rng) : Outcome (list B) * Rng :=
  match l with
  | [] => (Returned [], g)
  | a :: rest =>
      let '(r, g') := f a g in
      let '(rs, g'') := promise_all_map f rest g' in
      (x <- r ;; xs <- rs ;; Returned (x :: xs), g'')
  end.

(** The persist effect: nothing before the first local load; then every
    entry goes through [persist_entry] and the list replaces the stored one. *)
Definition persist (key : option CryptoKey) (st : Passwords) (w : Stores)
  : Stores :=
  if negb (localLoaded st) then w
  else
    let '(r, g') := promise_all_map (persist_entry key) (localPasswords st) (rng w) in
    match r with
    | Returned toStore => mkStores (Some toStore) (remote_passwords w) g'
    | Thrown _ => mkStores (stored_passwords w) (remote_passwords w) g'
    end.

Definition persist_rev0 (key : option CryptoKey) (st : Passwords) (w : Stores)
  : Stores :=
  if isLoading st then w
  else
    let '(r, g') :=
      promise_all_map (persist_entry_rev0 key) (localPasswords st) (rng w) in
    match r with
    | Returned toStore => mkStores (Some toStore) (remote_passwords w) g'
    | Thrown _ => mkStores (stored_passwords w) (remote_passwords w) g'
    end.

(** Modelled from the spec: the remote record store's [update(id, fields)],
    which writes the given fields of the rows with that id. *)
Definition remote_update (id : jsstring) (fields : Partial.t)
  (table : list Entry.t) : list Entry.t :=
  map (fun row => if jsstring_eqb (Entry.id row) id
                  then Partial.apply fields row else row)
      table.

(** [loadCloudPasswords]: the rows, each password through [safeDecrypt]. *)
Definition loadCloudPasswords (user : option jsstring) (key : option CryptoKey)
  (w : Stores) (st : Passwords) : Passwords :=
  match user, key with
  | Some _, Some _ =>
      mkPasswords (localPasswords st)
                  (map (fun p =>
                          Entry.with_password (Entry.with_storageType p CloudStorage)
                                              (safeDecrypt (Entry.password p) key))
                       (remote_passwords w))
                  (isLoading st) (localLoaded st)
  | _, _ => st
  end.

Definition find_id (id : jsstring) (l : list Entry.t) : option Entry.t :=
  find (fun p => jsstring_eqb (Entry.id p) id) l.

(** [updatePassword(id, updates)] *)
Definition updatePassword (user : option jsstring) (key : option CryptoKey)
  (id : jsstring) (updates : Partial.t) (st : Passwords) (w : Stores)
  : Outcome unit * Passwords * Stores :=
  match find_id id (cloudPasswords st), user, key with
  | Some _, Some _, Some k =>
      let '(encPw, g') :=
        match Partial.password updates with
        | Some pw =>
            if truthy pw && negb (startsWith pw LOCK)
            then let '(r, g') := encryptWithKey pw k (rng w) in
                 (pw' <- r ;; Returned (Some pw'), g')
            else (Returned (Some pw), rng w)
        | None => (Returned None, rng w)
        end in
      match encPw with
      | Thrown e => (Thrown e, st, mkStores (stored_passwords w) (remote_passwords w) g')
      | Returned encPw =>
          let w' :=
            mkStores (stored_passwords w)
                     (remote_update id (Partial.with_password updates encPw)
                                    (remote_passwords w))
                     g' in
          (Returned tt, loadCloudPasswords user key w' st, w')
      end
  | _, _, _ =>
      (Returned tt,
       mkPasswords
         (map (fun p => if jsstring_eqb (Entry.id p) id
                        then Partial.apply updates p else p)
              (localPasswords st))
         (cloudPasswords st) (isLoading st) (localLoaded st),
       w)
  end.

End UsePasswords.

(** ** The other key-derivation call sites *)

(** [deriveKey] of [src/lib/passwordGenerator.ts] (sharing links): the salt
    is the caller's, 16 random bytes drawn by [encryptData]. *)
Definition passwordGenerator_deriveKey_call (token : jsstring) (salt : bytes)
  : DeriveKeyCall :=
  let keyMaterial :=
    mkImportKey Raw (TextEncoder_encode token) PBKDF2 false [UDeriveKey] in
  mkDeriveKey (mkPbkdf2 PBKDF2 salt 100000 SHA_256)
              keyMaterial
              (mkAesKeyGen AES_GCM 256)
              false
              [UEncrypt; UDecrypt].

(** [getEncryptionKey] of [supabase/functions/verify-totp/index.ts]: the
    master key is the service-role key of the environment. *)
Definition getEncryptionKey_call (masterKey : jsstring) : DeriveKeyCall :=
  let keyMaterial :=
    mkImportKey Raw (TextEncoder_encode masterKey) PBKDF2 false [UDeriveKey] in
  let salt := TextEncoder_encode (js "totp-secret-encryption-salt-v1") in
  mkDeriveKey (mkPbkdf2 PBKDF2 salt 100000 SHA_256)
              keyMaterial
              (mkAesKeyGen AES_GCM 256)
              false
              [UEncrypt; UDecrypt].

(** ** src/contexts/SecurityContext.tsx: the lock state and its timer *)

(** The provider's state, the user of the auth context, and the interval of
    the auto-lock effect: [Some t] when [setInterval] was called at time [t]
    and not cleared since.  Times are milliseconds, the timeout is minutes. *)
Record Security : Type := mkSecurity {
  isLocked : bool;
  autoLockEnabled : bool;
  autoLockTimeout : Z;
  lastActivity : Z;
  user : option jsstring;
  interval : option Z
}.

Definition CHECK_PERIOD : Z := 10000.

Definition has_user (s : Security) : bool :=
  match user s with Some _ => true | None => false end.

(** The auto-lock effect, run when one of its dependencies changed: the
    previous interval is cleared; a new one is set unless the guard returns. *)
Definition autoLock_effect (now : Z) (s : Security) : Security :=
  mkSecurity (isLocked s) (autoLockEnabled s) (autoLockTimeout s)
             (lastActivity s) (user s)
             (if negb (autoLockEnabled s) || negb (has_user s) || isLocked s
              then None else Some now).

Definition setIsLocked (now : Z) (b : bool) (s : Security) : Security :=
  if Bool.eqb (isLocked s) b then s
  else autoLock_effect now
         (mkSecurity b (autoLockEnabled s) (autoLockTimeout s)
                     (lastActivity s) (user s) (interval s)).

(** Every [new Date()] is a new object, so the effect runs again. *)
Definition setLastActivity (now : Z) (s : Security) : Security :=
  autoLock_effect now
    (mkSecurity (isLocked s) (autoLockEnabled s) (autoLockTimeout s)
                now (user s) (interval s)).

(** The minutes since the last activity, [(now - lastActivity) / 1000 / 60]. *)
Definition idle_minutes (now : Z) (s : Security) : Q :=
  (inject_Z (now - lastActivity s) / 1000 / 60)%Q.

Definition checkLock (now : Z) (s : Security) : Security :=
  if Qle_bool (inject_Z (autoLockTimeout s)) (idle_minutes now s)
  then setIsLocked now true s
  else s.

Definition settings_effect (now : Z) (enabled : bool) (timeout : Z)
  (s : Security) : Security :=
  if Bool.eqb (autoLockEnabled s) enabled && (autoLockTimeout s =? timeout)
  then s
  else autoLock_effect now
         (mkSecurity (isLocked s) enabled timeout (lastActivity s) (user s)
                     (interval s)).

Inductive Event : Type :=
| Tick (now : Z)                       (* the interval calls checkLock *)
| Activity (now : Z)                   (* mousemove, keydown, click, scroll *)
| DoLock (now : Z)                     (* lock() *)
| DoUnlock (now : Z)                   (* unlock() *)
| SetAutoLockEnabled (now : Z) (enabled : bool)
| SetAutoLockTimeout (now : Z) (minutes : Z)
| PreferencesLoaded (now : Z) (enabled : bool) (minutes : Z)
| UserChanged (now : Z) (u : option jsstring).   (* sign-in, sign-out *)

Definition option_jsstring_eqb (a b : option jsstring) : bool :=
  match a, b with
  | Some x, Some y => jsstring_eqb x y
  | None, None => true
  | _, _ => false
  end.

Definition step (s : Security) (e : Event) : Security :=
  match e with
  | Tick now =>
      match interval s with
      | Some _ => checkLock now s
      | None => s
      end
  | Activity now => setLastActivity now s
  | DoLock now => setIsLocked now true s
  | DoUnlock now => setLastActivity now (setIsLocked now false s)
  | SetAutoLockEnabled now enabled =>
      settings_effect now enabled (autoLockTimeout s) s
  | SetAutoLockTimeout now minutes =>
      settings_effect now (autoLockEnabled s) minutes s
  | PreferencesLoaded now enabled minutes =>
      settings_effect now enabled minutes s
  | UserChanged now u =>
      if option_jsstring_eqb (user s) u then s
      else autoLock_effect now
             (mkSecurity (isLocked s) (autoLockEnabled s) (autoLockTimeout s)
                         (lastActivity s) u (interval s))
  end.

(** The provider mounts at time [now] with the auth context's user. *)
Definition initial_Security (now : Z) (u : option jsstring) : Security :=
  autoLock_effect now (mkSecurity false true 5 now u None).

Inductive reachable : Security -> Prop :=
| reachable_initial (now : Z) (u : option jsstring) :
    reachable (initial_Security now u)
| reachable_step (s : Security) (e : Event) :
    reachable s -> reachable (step s e).

(** The interval set at [t0] fires at [t0 + k * CHECK_PERIOD], [k = 1, 2, ...]:
    [n] firings from the [k]-th on, with no other event in between. *)
Fixpoint run_ticks (n : nat) (k : Z) (t0 : Z) (s : Security) : Security :=
  match n with
  | O => s
  | S n' => run_ticks n' (k + 1) t0 (step s (Tick (t0 + k * CHECK_PERIOD)))
  end.

(** The state at time [t] when nothing but the timer happens until then. *)
Definition elapse (t : Z) (s : Security) : Security :=
  match interval s with
  | None => s
  | Some t0 => run_ticks (Z.to_nat ((t - t0) / CHECK_PERIOD)) 1 t0 s
  end.

(** ** [panic] *)

(** How the page's collaborators behave during a [panic]: whether
    [navigator.clipboard] exists and what its [writeText] does, whether
    local storage refuses access, whether sign-out rejects. *)
Inductive ClipboardApi : Type :=
| ClipboardAbsent
| ClipboardResolves
| ClipboardRejects      (* the promise rejects; nothing awaits it *)
| ClipboardThrows.      (* writeText throws when called *)

Record Environment : Type := mkEnvironment {
  env_clipboard : ClipboardApi;
  env_storage_denied : bool;
  env_signOut_rejects : bool
}.

Section Panic.
Context {H : Host}.

(** The page: the lock state (with the signed-in user), the key store, the
    stored entries, the clipboard's text, and whether a reload was asked
    for. *)
Record Page : Type := mkPage {
  security : Security;
  keyStore : KeyStore;
  page_stored_passwords : option (list Entry.t);
  clipboard : jsstring;
  reload_requested : bool
}.

(** A step of an async function: it changes the page, and returns or throws. *)
Definition Action (A : Type) : Type := Page -> Outcome A * Page.

Definition and_then {A B : Type} (m : Action A) (k : A -> Action B) : Action B :=
  fun pg =>
    match m pg with
    | (Returned a, pg') => k a pg'
    | (Thrown e, pg') => (Thrown e, pg')
    end.

Definition panic_setIsLocked (now : Z) : Action unit :=
  fun pg =>
    (Returned tt,
     mkPage (setIsLocked now true (security pg)) (keyStore pg)
            (page_stored_passwords pg) (clipboard pg) (reload_requested pg)).

(** [navigator.clipboard?.writeText('')] *)
Definition clipboard_writeText (env : Environment) (text : jsstring) : Action unit :=
  fun pg =>
    match env_clipboard env with
    | ClipboardAbsent | ClipboardRejects => (Returned tt, pg)
    | ClipboardResolves =>
        (Returned tt,
         mkPage (security pg) (keyStore pg) (page_stored_passwords pg) text
                (reload_requested pg))
    | ClipboardThrows => (Thrown TypeError, pg)
    end.

(** [localStorage.removeItem('securevault_passwords')] *)
Definition localStorage_removeItem (env : Environment) : Action unit :=
  fun pg =>
    if env_storage_denied env then (Thrown SecurityError, pg)
    else
      (Returned tt,
       mkPage (security pg) (keyStore pg) None (clipboard pg)
              (reload_requested pg)).

(** Modelled from the spec: [signOut] of the auth context terminates the
    authenticated session; the provider sees the user become absent. *)
Definition signOut (env : Environment) (now : Z) : Action unit :=
  fun pg =>
    if env_signOut_rejects env then (Thrown AuthError, pg)
    else
      (Returned tt,
       mkPage (step (security pg) (UserChanged now None)) (keyStore pg)
              (page_stored_passwords pg) (clipboard pg) (reload_requested pg)).

(** [window.location.reload()] *)
Definition location_reload : Action unit :=
  fun pg =>
    (Returned tt,
     mkPage (security pg) (keyStore pg) (page_stored_passwords pg)
            (clipboard pg) true).

Definition panic (env : Environment) (now : Z) : Action unit :=
  and_then (panic_setIsLocked now) (fun _ =>
  and_then (clipboard_writeText env []) (fun _ =>
  and_then (localStorage_removeItem env) (fun _ =>
  and_then (signOut env now) (fun _ =>
  location_reload)))).

(** The page after the reload: the scripts start again, so the provider
    and the key store are in their initial states; what the browser keeps
    (storage, clipboard, session storage, the auth session) stays. *)
Definition reloaded (now : Z) (pg : Page) : Page :=
  mkPage (initial_Security now (user (security pg)))
         (mkKeyStore (mkVaultKeyState None None) []
                     (local_vault_unlocked (keyStore pg)))
         (page_stored_passwords pg) (clipboard pg) false.

End Panic.

(** ** A small host, to run the statements on

    Its keys are the derivation calls themselves; its cipher prefixes the
    plaintext with a tag made of the nonce and the key's material, and
    refuses a ciphertext whose tag is not the one of the key and nonce. *)

Fixpoint bytes_eqb (a b : bytes) : bool :=
  match a, b with
  | [], [] => true
  | x :: a', y :: b' => Byte.eqb x y && bytes_eqb a' b'
  | _, _ => false
  end.

Definition toy_tag (k : DeriveKeyCall) (iv : bytes) : bytes :=
  iv ++ ik_data (dk_baseKey k) ++ kdf_salt (dk_algorithm k).

Definition toy_encrypt (k : DeriveKeyCall) (iv pt : bytes) : bytes :=
  toy_tag k iv ++ pt.

Definition toy_decrypt (k : DeriveKeyCall) (iv ct : bytes) : option bytes :=
  let n := List.length (toy_tag k iv) in
  if bytes_eqb (firstn n ct) (toy_tag k iv) then Some (skipn n ct) else None.

Definition toy_host : Host := {|
  CryptoKey := DeriveKeyCall;
  subtle_deriveKey := fun call => call;
  aes_gcm_encrypt := toy_encrypt;
  aes_gcm_decrypt := toy_decrypt;
  entropy := fun n => byte_of_Z (Z.of_nat (7 * n + 1));
  Number_toString := fun lexeme => lexeme
|}.

(** A key of the small host, another one, and an envelope made under the
    first. *)
Definition toy_key : @CryptoKey toy_host :=
  @deriveAesKey toy_host (js "correct-horse-battery") (js "local-user42").

Definition toy_other_key : @CryptoKey toy_host :=
  @deriveAesKey toy_host (js "incorrect-horse") (js "local-user42").

Definition toy_envelope : jsstring :=
  match fst (@encryptWithKey toy_host (js "hunter2") toy_key 0%nat) with
  | Returned e => e
  | Thrown _ => []
  end.

(** An entry with a given password, and an update of the password alone. *)
Definition toy_entry (pw : jsstring) : Entry.t :=
  Entry.mk (js "7f3c") (js "Mail") (js "ada") pw None (js "email") []
           Strong LocalStorage 1700000000000 None None false.

Definition password_only (pw : jsstring) : Partial.t :=
  Partial.mk None None (Some pw) None None None None None None None.

(** A page of the small host: a user signed in, the local key published,
    one entry stored, a password on the clipboard. *)
Definition toy_page : @Page toy_host :=
  mkPage (initial_Security 0 (Some (js "user42")))
         (@setLocalKey toy_host (js "correct-horse-battery") (js "user42")
            (useVaultKey_mount initial_KeyStore))
         (Some [toy_entry toy_envelope])
         (js "hunter2")
         false.

(** ** Shorthands of the statements *)

(** A Unicode scalar value: a code point that is not a surrogate. *)
Definition is_scalar (cp : Z) : Prop :=
  0 <= cp < 0xD800 \/ 0xDFFF < cp < 0x110000.

(** Every element is a 16-bit code unit. *)
Definition code_units (s : jsstring) : Prop :=
  Forall (fun u => is_code_unit u = true) s.

Definition is_sextet (n : Z) : Prop := 0 <= n < 64.
Definition is_octet (z : Z) : Prop := 0 <= z < 256.

(** The characters [btoa] writes: from the plus sign to the letter z, and
    never a backslash. *)
Definition b64_text (c : Z) : Prop := 43 <= c <= 122 /\ c <> 92.

(** The time from which the idle check locks: the timeout after the last
    activity. *)
Definition deadline (s : Security) : Z :=
  lastActivity s + autoLockTimeout s * 60000.

(** The guard of the auto-lock effect. *)
Definition effect_returns_early (s : Security) : bool :=
  negb (autoLockEnabled s) || negb (has_user s) || isLocked s.

(** The interval is there exactly when the guard let the effect through. *)
Definition timer_matches (s : Security) : Prop :=
  interval s = None <-> effect_returns_early s = true.

(** The JSON text of an envelope: an object of two members, [iv] and [ct]. *)
Definition packed (iv64 ct64 : jsstring) : jsstring :=
  JSON_stringify (JObject [(js "iv", JString iv64); (js "ct", JString ct64)]).

(** The envelope of a nonce and a ciphertext, as [encryptWithKey] builds it. *)
Definition envelope (iv ct : bytes) : jsstring :=
  b64_encode (packed (b64_encode (map Z_of_byte iv))
                     (b64_encode (map Z_of_byte ct))).

(** ** The life of the key store, and the master-password prompt of
    [src/pages/Index.tsx] *)

Section VaultPage.
Context {H : Host}.

(** What the components of a page do to the key store: one mounts the hook,
    or calls one of its three functions.  (The function that the hook's
    registration returns, which would take the setter off [_setters], is the
    initial value of a state: nothing calls it.) *)
Inductive KeyStoreOp : Type :=
| OpMount
| OpSetCloudKey (userId : jsstring)
| OpSetLocalKey (masterPassword userId : jsstring)
| OpClearKeys.

Definition run_op (ks : KeyStore) (op : KeyStoreOp) : KeyStore :=
  match op with
  | OpMount => useVaultKey_mount ks
  | OpSetCloudKey userId => setCloudKey userId ks
  | OpSetLocalKey masterPassword userId => setLocalKey masterPassword userId ks
  | OpClearKeys => clearKeys ks
  end.

Inductive MasterPwMode : Type := PwHidden | PwSetup | PwUnlock.

(** The page [Index]: the page, the items [local_vault_setup_done] and
    [securevault_welcome_seen] of local storage, and the mode of the
    master-password dialog. *)
Record IndexPage : Type := mkIndexPage {
  index_page : Page;
  local_vault_setup_done : option jsstring;
  securevault_welcome_seen : option jsstring;
  masterPwMode : MasterPwMode
}.

(** [!!localStorage.getItem(LOCAL_VAULT_SETUP_KEY)] *)
Definition hasLocalSetup (ix : IndexPage) : bool :=
  match local_vault_setup_done ix with
  | Some v => truthy v
  | None => false
  end.

(** The mount effect of [Index]: the dialog opens when entries are stored
    and the session marker is not there.  (The stored item is the JSON text
    of a list, which is not the empty string.) *)
Definition Index_mount (ix : IndexPage) : IndexPage :=
  match page_stored_passwords (index_page ix) with
  | Some _ =>
      if negb (isLocalUnlocked (keyStore (index_page ix)))
      then mkIndexPage (index_page ix) (local_vault_setup_done ix)
                       (securevault_welcome_seen ix)
                       (if hasLocalSetup ix then PwUnlock else PwSetup)
      else ix
  | None => ix
  end.

(** [handleMasterPasswordSubmit]: the scope of the local key is the id of
    the signed-in user, [anonymous] when nobody is signed in. *)
Definition handleMasterPasswordSubmit (password : jsstring) (ix : IndexPage)
  : IndexPage :=
  let pg := index_page ix in
  let uid := match user (security pg) with
             | Some id => id
             | None => js "anonymous"
             end in
  mkIndexPage
    (mkPage (security pg) (setLocalKey password uid (keyStore pg))
            (page_stored_passwords pg) (clipboard pg) (reload_requested pg))
    (Some (js "1")) (Some (js "1")) PwHidden.

(** The page is loaded again: the dialog starts hidden, then the mount
    effect runs. *)
Definition Index_reloaded (now : Z) (ix : IndexPage) : IndexPage :=
  Index_mount
    (mkIndexPage (reloaded now (index_page ix)) (local_vault_setup_done ix)
                 (securevault_welcome_seen ix) PwHidden).

End VaultPage.

(** ** usePasswords: the list, and adding, deleting, marking *)

(** What [addPassword] takes: an entry without [id] and [createdAt], its
    [storageType] optional. *)
Module Draft.
Record t : Type := mk {
  title : jsstring;
  username : jsstring;
  password : jsstring;
  url : option jsstring;
  category : jsstring;
  tags : list jsstring;
  strength : Strength;
  storageType : option StorageType;
  lastUsed : option Z;
  notes : option jsstring;
  isFavorite : bool
}.

(** [{ ...entry, id, createdAt, storageType }] *)
Definition entry (d : t) (id : jsstring) (createdAt : Z) (st : StorageType)
  : Entry.t :=
  Entry.mk id (title d) (username d) (password d) (url d) (category d)
           (tags d) (strength d) st createdAt (lastUsed d) (notes d)
           (isFavorite d).
End Draft.

(** Modelled from the spec: the answer of the remote record store to
    [insert(row).select().single()]: the store gives the row an id and a
    creation time and answers with them, or answers with an error and
    stores nothing. *)
Inductive InsertResponse : Type :=
| Inserted (id : jsstring) (created_at : Z)
| InsertFailed.

Section UsePasswordsList.
Context {H : Host}.


(** Modelled from the spec: the row that [insert] stores, first in the
    order of the query (the newest row first).  [last_used] is not among
    the columns that [addPassword] sends. *)
Definition remote_insert (id : jsstring) (created_at : Z) (entry : Draft.t)
  (encryptedPassword : jsstring) (table : list Entry.t) : list Entry.t :=
  Entry.mk id (Draft.title entry) (Draft.username entry) encryptedPassword
           (Draft.url entry) (Draft.category entry) (Draft.tags entry)
           (Draft.strength entry) CloudStorage created_at None
           (Draft.notes entry) (Draft.isFavorite entry)
  :: table.

(** [addPassword(entry)]; [uuid] is what [crypto.randomUUID()] gives and
    [now] the time of [new Date()]. *)
Definition addPassword (user : option jsstring) (key : option CryptoKey)
  (entry : Draft.t) (response : InsertResponse) (uuid : jsstring) (now : Z)
  (st : Passwords) (w : Stores) : Outcome Entry.t * Passwords * Stores :=
  let storage := match Draft.storageType entry with
                 | Some s => s
                 | None => LocalStorage
                 end in
  let local (w' : Stores) :=
    let newEntry := Draft.entry entry uuid now LocalStorage in
    (Returned newEntry,
     mkPasswords (newEntry :: localPasswords st) (cloudPasswords st)
                 (isLoading st) (localLoaded st),
     w') in
  match storage, user, key with
  | CloudStorage, Some _, Some k =>
      let '(r, g') := encryptWithKey (Draft.password entry) k (rng w) in
      match r with
      | Thrown e =>
          (Thrown e, st, mkStores (stored_passwords w) (remote_passwords w) g')
      | Returned encryptedPassword =>
          match response with
          | Inserted id created_at =>
              let w' :=
                mkStores (stored_passwords w)
                         (remote_insert id created_at entry encryptedPassword
                                        (remote_passwords w))
                         g' in
              (Returned (Draft.entry entry id created_at CloudStorage),
               loadCloudPasswords user key w' st, w')
          | InsertFailed =>
              local (mkStores (stored_passwords w) (remote_passwords w) g')
          end
      end
  | _, _, _ => local w
  end.





End UsePasswordsList.

(** ** src/lib/crypto.ts: the codec of the sharing links

    (In the sources this module is the second part of
    [src/lib/passwordGenerator.ts].) *)

Section Sharing.
Context {H : Host}.

(** The loop appends [String.fromCharCode(bytes[i])] for every byte. *)
Definition arrayBufferToBase64 (buffer : bytes) : Outcome jsstring :=
  let binary := fold_left (fun binary b => binary ++ [Z_of_byte b]) buffer [] in
  btoa binary.

(** The loop stores [binary.charCodeAt(i)] at every index. *)
Definition base64ToArrayBuffer (base64 : jsstring) : Outcome bytes :=
  binary <- atob base64 ;;
  Returned (map byte_of_Z binary).

Definition deriveKey (token : jsstring) (salt : bytes) : CryptoKey :=
  subtle_deriveKey (passwordGenerator_deriveKey_call token salt).

Definition encryptData (plaintext token : jsstring) (g : Rng)
  : Outcome jsstring * Rng :=
  let '(salt, g1) := getRandomValues 16 g in
  let '(iv, g2) := getRandomValues 12 g1 in
  let key := deriveKey token salt in
  let encrypted := aes_gcm_encrypt key iv (TextEncoder_encode plaintext) in
  (s64 <- arrayBufferToBase64 salt ;;
   iv64 <- arrayBufferToBase64 iv ;;
   ct64 <- arrayBufferToBase64 encrypted ;;
   let packed :=
     JSON_stringify (JObject [(js "s", JString s64); (js "iv", JString iv64);
                              (js "ct", JString ct64)]) in
   btoa packed,
   g2).

Definition decryptData (encryptedBundle token : jsstring) : Outcome jsstring :=
  bin <- atob encryptedBundle ;;
  packed <- JSON_parse bin ;;
  s <- get_property packed (js "s") ;;
  salt <- base64ToArrayBuffer (ToString s) ;;
  iv64 <- get_property packed (js "iv") ;;
  iv <- base64ToArrayBuffer (ToString iv64) ;;
  ct64 <- get_property packed (js "ct") ;;
  ciphertext <- base64ToArrayBuffer (ToString ct64) ;;
  let key := deriveKey token salt in
  match aes_gcm_decrypt key iv ciphertext with
  | Some decrypted => Returned (TextDecoder_decode decrypted)
  | None => Thrown OperationError
  end.

(** [x !== undefined] *)
Definition is_defined (x : option json) : bool :=
  match x with Some _ => true | None => false end.

(** [isLegacyEncryption]: the [&&] reads [parsed.password] only when
    [parsed.title] is defined; whatever is thrown gives [false]. *)
Definition isLegacyEncryption (data : jsstring) : bool :=
  try_catch
    (decoded <- atob data ;;
     parsed <- JSON_parse decoded ;;
     title <- get_property parsed (js "title") ;;
     if is_defined title then
       password <- get_property parsed (js "password") ;;
       Returned (is_defined password)
     else Returned false)
    false.

Definition decodeLegacy (data : jsstring) : Outcome jsstring := atob data.

(** ** The sharing dialog ([SharePasswordModal], src/unnamed/part_005) *)

(** [b.toString(16).padStart(2, '0')] of a byte. *)
Definition hex_byte (b : byte) : jsstring :=
  [hex_digit (Z_of_byte b / 16); hex_digit (Z_of_byte b mod 16)].

(** [Array.from(tokenArray, ...).join('')] *)
Definition hex_token (tokenArray : bytes) : jsstring :=
  flat_map hex_byte tokenArray.

(** The values that the two selects of the dialog offer. *)
Inductive Expiry : Type := Expiry1h | Expiry24h | Expiry7d.
Inductive MaxViews : Type := Views1 | Views3 | Views5 | Views10.

Definition expiryMs (e : Expiry) : Z :=
  match e with
  | Expiry1h => 3600000
  | Expiry24h => 86400000
  | Expiry7d => 604800000
  end.

(** [parseInt(maxViews)] *)
Definition parseInt_maxViews (m : MaxViews) : Z :=
  match m with
  | Views1 => 1
  | Views3 => 3
  | Views5 => 5
  | Views10 => 10
  end.

(** A row of the table [shared_passwords]; [view_count] is 0 by default. *)
Record Share : Type := mkShare {
  share_id : jsstring;
  share_password_id : jsstring;
  shared_by : jsstring;
  share_token : jsstring;
  encrypted_data : jsstring;
  expires_at : Z;
  max_views : Z;
  view_count : Z
}.

(** [JSON.stringify({ title, username, password, url })]: a member whose
    value is [undefined] is left out. *)
Definition share_data (entry : Entry.t) : json :=
  JObject ([(js "title", JString (Entry.title entry));
            (js "username", JString (Entry.username entry));
            (js "password", JString (Entry.password entry))]
           ++ match Entry.url entry with
              | Some u => [(js "url", JString u)]
              | None => []
              end).

(** [handleCreate], up to the insert: the token, and the row that is sent
    to the table ([id] is the id that the table gives the row). *)
Definition handleCreate (user : jsstring) (entry : Entry.t) (expiry : Expiry)
  (maxViews : MaxViews) (now : Z) (id : jsstring) (g : Rng)
  : Outcome (jsstring * Share) * Rng :=
  let '(tokenArray, g1) := getRandomValues 32 g in
  let token := hex_token tokenArray in
  let expiresAt := now + expiryMs expiry in
  let data := JSON_stringify (share_data entry) in
  let '(r, g2) := encryptData data token g1 in
  (encrypted <- r ;;
   Returned (token,
             mkShare id (Entry.id entry) user token encrypted expiresAt
                     (parseInt_maxViews maxViews) 0),
   g2).

(** ** [view_shared_password] (src/unnamed/part_010) *)

(** The answer of the remote procedure: the rows it returns, or the message
    of the exception it raised. *)
Inductive RpcResult : Type :=
| RpcData (rows : list jsstring)
| RpcError (message : jsstring).

Definition is_lower_hex (c : Z) : bool :=
  ((97 <=? c) && (c <=? 102)) || ((48 <=? c) && (c <=? 57)).

(** [p_share_token !~ '^[a-f0-9]{64}$'] *)
Definition not_a_share_token (t : jsstring) : bool :=
  negb (forallb is_lower_hex t && (List.length t =? 64)%nat).

(** The function runs in one transaction: it selects the row of the token,
    raises when there is none, when it has expired or when its views are
    used up, and otherwise counts one more view on the row of that id and
    returns the encrypted data. *)
Definition view_shared_password (now : Z) (p_share_token : option jsstring)
  (table : list Share) : RpcResult * list Share :=
  match p_share_token with
  | None => (RpcError (js "Invalid share token"), table)
  | Some t =>
      if not_a_share_token t then (RpcError (js "Invalid share token"), table)
      else
        match find (fun sp => jsstring_eqb (share_token sp) t) table with
        | None => (RpcError (js "Share not found"), table)
        | Some v_record =>
            if expires_at v_record <? now
            then (RpcError (js "Share expired"), table)
            else if max_views v_record <=? view_count v_record
            then (RpcError (js "View limit reached"), table)
            else
              (RpcData [encrypted_data v_record],
               map (fun sp =>
                      if jsstring_eqb (share_id sp) (share_id v_record)
                      then mkShare (share_id sp) (share_password_id sp)
                                   (shared_by sp) (share_token sp)
                                   (encrypted_data sp) (expires_at sp)
                                   (max_views sp) (view_count sp + 1)
                      else sp)
                   table)
        end
  end.

(** ** The page of a shared link ([SharedPassword], src/unnamed/part_008) *)

(** [msg.includes(sub)] *)
Fixpoint includes (msg sub : jsstring) : bool :=
  startsWith msg sub
  || match msg with
     | [] => false
     | _ :: msg' => includes msg' sub
     end.

(** What the page shows in the end. *)
Inductive SharedView : Type :=
| ShowLoading
| ShowData (data : json)
| ShowError (message : jsstring).

(** The inner [try] of [loadShared]. *)
Definition decrypt_shared (encryptedData token : jsstring) : SharedView :=
  try_catch
    (decryptedJson <-
       (if isLegacyEncryption encryptedData then decodeLegacy encryptedData
        else decryptData encryptedData token) ;;
     decrypted <- JSON_parse decryptedJson ;;
     Returned (ShowData decrypted))
    (ShowError (js "Failed to decrypt shared data.")).

(** [loadShared], on the answer of the remote procedure. *)
Definition loadShared (token : jsstring) (rpc : RpcResult) : SharedView :=
  if negb (truthy token) then ShowLoading else
  match rpc with
  | RpcError msg =>
      if includes msg (js "expired")
      then ShowError (js "This share link has expired.")
      else if includes msg (js "limit")
      then ShowError (js "This link has reached its maximum number of views.")
      else ShowError (js "This link is invalid or has expired.")
  | RpcData [] => ShowError (js "This link is invalid or has expired.")
  | RpcData (row :: _) => decrypt_shared row token
  end.

(** Opening the link [/shared/<token>] at time [now]. *)
Definition open_shared_link (now : Z) (token : jsstring) (table : list Share)
  : SharedView * list Share :=
  let '(rpc, table') := view_shared_password now (Some token) table in
  (loadShared token rpc, table').

End Sharing.

(** ** supabase/functions/verify-totp: the codec of the stored secret *)

Section Totp.
Context {H : Host}.

(** [!!x] of a parsed value or [undefined].  A number is falsy when it is
    zero, that is when its text is [0]. *)
Definition json_truthy (x : option json) : bool :=
  match x with
  | None => false
  | Some JNull => false
  | Some (JBool b) => b
  | Some (JNumber lexeme) => negb (jsstring_eqb (Number_toString lexeme) (js "0"))
  | Some (JString s) => truthy s
  | Some (JArray _) => true
  | Some (JObject _) => true
  end.

(** The key of the function: the master key is the service-role key of the
    environment. *)
Definition getEncryptionKey (masterKey : jsstring) : CryptoKey :=
  subtle_deriveKey (getEncryptionKey_call masterKey).

Definition toBase64 (buf : bytes) : Outcome jsstring :=
  let binary := fold_left (fun binary b => binary ++ [Z_of_byte b]) buf [] in
  btoa binary.

Definition fromBase64 (b64 : jsstring) : Outcome bytes :=
  binary <- atob b64 ;;
  Returned (map byte_of_Z binary).

Definition encryptSecret (masterKey plaintext : jsstring) (g : Rng)
  : Outcome jsstring * Rng :=
  let key := getEncryptionKey masterKey in
  let '(iv, g') := getRandomValues 12 g in
  let encrypted := aes_gcm_encrypt key iv (TextEncoder_encode plaintext) in
  (iv64 <- toBase64 iv ;;
   ct64 <- toBase64 encrypted ;;
   Returned
     (JSON_stringify (JObject [(js "iv", JString iv64); (js "ct", JString ct64)])),
   g').

(** [decryptSecret]: the [try] spans the whole body, so whatever is thrown
    (by the parse, by a property read, by [atob], by the decryption) gives
    the bundle itself. *)
Definition decryptSecret (masterKey encryptedBundle : jsstring) : jsstring :=
  try_catch
    (parsed <- JSON_parse encryptedBundle ;;
     iv <- get_property parsed (js "iv") ;;
     if negb (json_truthy iv) then Returned encryptedBundle
     else
       ct <- get_property parsed (js "ct") ;;
       if negb (json_truthy ct) then Returned encryptedBundle
       else
         let key := getEncryptionKey masterKey in
         iv_bytes <- fromBase64 (ToString iv) ;;
         ciphertext <- fromBase64 (ToString ct) ;;
         match aes_gcm_decrypt key iv_bytes ciphertext with
         | Some decrypted => Returned (TextDecoder_decode decrypted)
         | None => Thrown OperationError
         end)
    encryptedBundle.

End Totp.

(** ** supabase/functions/verify-totp: the request handler *)

(** A row of the table [totp_secrets], kept under its [user_id]. *)
Record TotpRow : Type := mkTotpRow {
  totp_secret : jsstring;
  totp_is_enabled : bool
}.

Definition TotpTable : Type := list (jsstring * TotpRow).

Fixpoint totp_lookup (user_id : jsstring) (table : TotpTable) : option TotpRow :=
  match table with
  | [] => None
  | (u, row) :: rest =>
      if jsstring_eqb u user_id then Some row else totp_lookup user_id rest
  end.

(** [upsert(row, { onConflict: 'user_id' })] *)
Fixpoint totp_upsert (user_id : jsstring) (row : TotpRow) (table : TotpTable)
  : TotpTable :=
  match table with
  | [] => [(user_id, row)]
  | (u, old) :: rest =>
      if jsstring_eqb u user_id then (u, row) :: rest
      else (u, old) :: totp_upsert user_id row rest
  end.

(** [update({ is_enabled: false }).eq('user_id', user.id)] *)
Definition totp_disable (user_id : jsstring) (table : TotpTable) : TotpTable :=
  map (fun ur => if jsstring_eqb (fst ur) user_id
                 then (fst ur, mkTotpRow (totp_secret (snd ur)) false)
                 else ur)
      table.

Record Request : Type := mkRequest {
  req_options : bool;                       (* the method is OPTIONS *)
  req_authorization : option jsstring;      (* the Authorization header *)
  req_body : jsstring
}.

Record Response : Type := mkResponse {
  resp_status : Z;
  resp_body : option jsstring
}.

(** Which of the three calls to the table answer with an error. *)
Record TotpFailures : Type := mkTotpFailures {
  upsert_fails : bool;
  fetch_fails : bool;
  update_fails : bool
}.

Definition json_response (status : Z) (body : json) : Response :=
  mkResponse status (Some (JSON_stringify body)).

Definition error_response (status : Z) (message : string) : Response :=
  json_response status (JObject [(js "error", JString (js message))]).

(** [/^\d{6}$/.test(code)] *)
Definition six_digits (code : jsstring) : bool :=
  forallb is_digit code && (List.length code =? 6)%nat.

(** [action === name] *)
Definition is_action (action : option json) (name : string) : bool :=
  match action with
  | Some (JString a) => jsstring_eqb a (js name)
  | _ => false
  end.

Section TotpHandler.
Context {H : Host}.

(** The TOTP library: what [new TOTP({ ..., secret: Secret.fromBase32(secret) })
    .validate({ token: code, window: 1 })] gives at a time, [None] being
    [null]; [Secret.fromBase32] throws on a text that is not base32. *)
Variable totp_validate : jsstring -> jsstring -> Z -> Outcome (option Z).

(** [userClient.auth.getUser()] under the request's Authorization header:
    the id of the user, [None] on an error or when there is none. *)
Variable auth_getUser : jsstring -> option jsstring.

(** [SUPABASE_SERVICE_ROLE_KEY] *)
Variable masterKey : jsstring.

(** [!secret || typeof secret !== 'string' || secret.length > 64] *)
Definition invalid_secret (secret : option json) : bool :=
  negb (json_truthy secret)
  || match secret with
     | Some (JString s) => 64 <? Z.of_nat (List.length s)
     | _ => true
     end.

(** [!code || typeof code !== 'string' || !/^\d{6}$/.test(code)] *)
Definition invalid_code (code : option json) : bool :=
  negb (json_truthy code)
  || match code with
     | Some (JString c) => negb (six_digits c)
     | _ => true
     end.

(** [const { action, code, secret } = await req.json()] *)
Definition read_body (body : jsstring)
  : Outcome (option json * option json * option json) :=
  parsed <- JSON_parse body ;;
  action <- get_property parsed (js "action") ;;
  code <- get_property parsed (js "code") ;;
  secret <- get_property parsed (js "secret") ;;
  Returned (action, code, secret).

(** The handler.  Whatever is thrown inside the [try] gives the answer 500
    [Internal server error].  The branch of [check-status] reads
    [adminClient] above the [const] that declares it, in the same block: the
    read throws, so this branch gives that answer. *)
Definition serve (fails : TotpFailures) (now : Z) (req : Request)
  (table : TotpTable) (g : Rng) : Response * TotpTable * Rng :=
  let internal := error_response 500 "Internal server error" in
  let unauthorized := error_response 401 "Unauthorized" in
  if req_options req then (mkResponse 200 None, table, g)
  else
    match req_authorization req with
    | None => (unauthorized, table, g)
    | Some authHeader =>
        if negb (truthy authHeader) then (unauthorized, table, g)
        else
          match auth_getUser authHeader with
          | None => (unauthorized, table, g)
          | Some user_id =>
              match read_body (req_body req) with
              | Thrown _ => (internal, table, g)
              | Returned (action, code, secret) =>
                  if is_action action "check-status" then (internal, table, g)
                  else if is_action action "verify-and-enable" then
                    if invalid_secret secret
                    then (error_response 400 "Invalid secret", table, g)
                    else if invalid_code code
                    then (error_response 400 "Invalid code format", table, g)
                    else
                      match totp_validate (ToString secret) (ToString code) now with
                      | Thrown _ => (internal, table, g)
                      | Returned None =>
                          (error_response 400 "Invalid TOTP code", table, g)
                      | Returned (Some _) =>
                          let '(r, g') :=
                            encryptSecret masterKey (ToString secret) g in
                          match r with
                          | Thrown _ => (internal, table, g')
                          | Returned encryptedSecret =>
                              if upsert_fails fails
                              then (error_response 500 "Failed to save 2FA settings",
                                    table, g')
                              else
                                (json_response 200
                                   (JObject [(js "success", JBool true)]),
                                 totp_upsert user_id
                                   (mkTotpRow encryptedSecret true) table,
                                 g')
                          end
                      end
                  else if is_action action "verify" then
                    if invalid_code code
                    then (error_response 400 "Invalid code format", table, g)
                    else
                      match (if fetch_fails fails then None
                             else totp_lookup user_id table) with
                      | Some totpData =>
                          if totp_is_enabled totpData then
                            let decryptedSecret :=
                              decryptSecret masterKey (totp_secret totpData) in
                            match totp_validate decryptedSecret (ToString code) now with
                            | Thrown _ => (internal, table, g)
                            | Returned delta =>
                                (json_response 200
                                   (JObject
                                      [(js "valid",
                                        JBool match delta with
                                              | Some _ => true
                                              | None => false
                                              end)]),
                                 table, g)
                            end
                          else (error_response 400 "2FA not enabled", table, g)
                      | None => (error_response 400 "2FA not enabled", table, g)
                      end
                  else if is_action action "disable" then
                    if update_fails fails
                    then (error_response 500 "Failed to disable 2FA", table, g)
                    else
                      (json_response 200 (JObject [(js "success", JBool true)]),
                       totp_disable user_id table, g)
                  else (error_response 400 "Invalid action", table, g)
              end
          end
    end.

End TotpHandler.

(** ** src/components/AuthModal.tsx: sign-in and the second factor *)

Inductive SignInOutcome : Type :=
| SignInError              (* the credentials were refused *)
| SignedIn                 (* Welcome back: the dialog closes *)
| AskTotp.                 (* the dialog asks for the six-digit code *)

Section AuthModal.
Context {H : Host}.

(** [supabase.functions.invoke]: the parsed body of an answer whose status
    is 2xx; an error, and no data, for any other status. *)
Definition functions_invoke (resp : Response) : option json :=
  if (200 <=? resp_status resp) && (resp_status resp <=? 299) then
    match resp_body resp with
    | Some text =>
        match JSON_parse text with
        | Returned data => Some data
        | Thrown _ => None
        end
    | None => None
    end
  else None.

(** The request that the dialog sends after the credentials were accepted;
    the client puts the session's token in the Authorization header. *)
Definition check_status_request (authHeader : jsstring) : Request :=
  mkRequest false (Some authHeader)
            (JSON_stringify (JObject [(js "action", JString (js "check-status"))])).

(** The sign-in branch of [handleSubmit], on the answer of the function:
    when the status cannot be read the dialog goes on as if there were no
    second factor. *)
Definition handleSubmit_signIn (signIn_failed : bool) (statusResponse : Response)
  : SignInOutcome :=
  if signIn_failed then SignInError
  else
    match functions_invoke statusResponse with
    | None => SignedIn
    | Some statusData =>
        if negb (json_truthy (Some statusData)) then SignedIn
        else
          match get_property statusData (js "enabled") with
          | Returned enabled => if json_truthy enabled then AskTotp else SignedIn
          | Thrown _ => SignedIn
          end
    end.

End AuthModal.

(** ** src/lib/passwordGenerator.ts: the generator and the strength meter *)

Record GeneratorOptions : Type := mkGeneratorOptions {
  opt_length : nat;
  includeLetters : bool;
  includeNumbers : bool;
  includeSymbols : bool;
  excludeAmbiguous : bool;
  excludeSimilar : bool
}.

Definition LOWERCASE : jsstring := js "abcdefghijklmnopqrstuvwxyz".
Definition UPPERCASE : jsstring := js "ABCDEFGHIJKLMNOPQRSTUVWXYZ".
Definition NUMBERS : jsstring := js "0123456789".
Definition SYMBOLS : jsstring := js "!@#$%^&*()_+-=[]{}|;:,.<>?".
Definition AMBIGUOUS : jsstring := js "l1IO0".
Definition SIMILAR : jsstring := js "iIlL1oO0".

(** The alphabet that [generatePassword] draws from. *)
Definition password_chars (options : GeneratorOptions) : jsstring :=
  let chars := [] in
  let chars := if includeLetters options then chars ++ LOWERCASE ++ UPPERCASE
               else chars in
  let chars := if includeNumbers options then chars ++ NUMBERS else chars in
  let chars := if includeSymbols options then chars ++ SYMBOLS else chars in
  let chars := if excludeAmbiguous options
               then filter (fun c => negb (includes AMBIGUOUS [c])) chars
               else chars in
  let chars := if excludeSimilar options
               then filter (fun c => negb (includes SIMILAR [c])) chars
               else chars in
  if (List.length chars =? 0)%nat then LOWERCASE ++ UPPERCASE else chars.

Section Generator.
Context {H : Host}.

(** An element of a [Uint32Array] that [getRandomValues] filled: four bytes
    of the random source, the low byte first. *)
Definition uint32_at (g : nat) : Z :=
  Z_of_byte (entropy g) + 256 * Z_of_byte (entropy (g + 1))
  + 65536 * Z_of_byte (entropy (g + 2))
  + 16777216 * Z_of_byte (entropy (g + 3)).

Fixpoint uint32s (n : nat) (g : nat) : list Z :=
  match n with
  | O => []
  | S n' => uint32_at g :: uint32s n' (g + 4)
  end.

(** [crypto.getRandomValues(new Uint32Array(n))]: [None] when the array is
    larger than 65536 bytes (the call throws [QuotaExceededError]). *)
Definition getRandomUint32s (n : nat) (g : Rng) : option (list Z) * Rng :=
  if 65536 <? 4 * Z.of_nat n then (None, g)
  else (Some (uint32s n g), (g + 4 * n)%nat).

(** [generatePassword(options)]: [None] when [getRandomValues] throws. *)
Definition generatePassword (options : GeneratorOptions) (g : Rng)
  : option jsstring * Rng :=
  let chars := password_chars options in
  match getRandomUint32s (opt_length options) g with
  | (None, g') => (None, g')
  | (Some array, g') =>
      (Some (map (fun v =>
                    nth (Z.to_nat (v mod Z.of_nat (List.length chars))) chars 0)
                 array),
       g')
  end.

End Generator.

Record StrengthResult : Type := mkStrengthResult {
  score : Z;
  label : Strength;
  feedback : list jsstring
}.

Definition is_lower (c : Z) : bool := (97 <=? c) && (c <=? 122).
Definition is_upper (c : Z) : bool := (65 <=? c) && (c <=? 90).
Definition is_letter (c : Z) : bool := is_lower c || is_upper c.
Definition is_alnum (c : Z) : bool := is_letter c || is_digit c.

(** The characters that a dot of a regular expression does not match. *)
Definition is_line_terminator (c : Z) : bool :=
  (c =? 10) || (c =? 13) || (c =? 0x2028) || (c =? 0x2029).

(** [/(.)\1{2,}/.test(s)]: a character, not a line terminator, three times
    in a row. *)
Fixpoint has_repeat (s : jsstring) : bool :=
  match s with
  | a :: rest =>
      match rest with
      | b :: c :: _ =>
          (negb (is_line_terminator a) && (a =? b) && (b =? c))
          || has_repeat rest
      | _ => false
      end
  | [] => false
  end.

(** [if (test) score += n] and [if (test) feedback.push(message)] *)
Definition add_if (test : bool) (n : Z) (score : Z) : Z :=
  if test then score + n else score.

Definition push_if (test : bool) (message : string) (feedback : list jsstring)
  : list jsstring :=
  if test then feedback ++ [js message] else feedback.

Definition calculateStrength (password : jsstring) : StrengthResult :=
  let len := Z.of_nat (List.length password) in
  let score := 0 in
  let feedback := [] in
  (* length *)
  let score := add_if (8 <=? len) 1 score in
  let score := add_if (12 <=? len) 1 score in
  let score := add_if (16 <=? len) 1 score in
  let score := add_if (20 <=? len) 1 score in
  (* variety *)
  let score := add_if (existsb is_lower password) 1 score in
  let score := add_if (existsb is_upper password) 1 score in
  let score := add_if (existsb is_digit password) 1 score in
  let score := add_if (existsb (fun c => negb (is_alnum c)) password) 1 score in
  (* penalties *)
  let only_letters := truthy password && forallb is_letter password in
  let score := add_if only_letters (-1) score in
  let feedback := push_if only_letters "Add numbers or symbols" feedback in
  let only_digits := truthy password && forallb is_digit password in
  let score := add_if only_digits (-2) score in
  let feedback := push_if only_digits "Add letters and symbols" feedback in
  let score := add_if (has_repeat password) (-1) score in
  let feedback :=
    push_if (has_repeat password) "Avoid repeated characters" feedback in
  let feedback := push_if (len <? 8) "Use at least 8 characters" feedback in
  let feedback := push_if (len <? 12) "Consider using 12+ characters" feedback in
  let score := Z.max 0 (Z.min score 8) in
  let label := if score <=? 3 then Weak
               else if score <=? 5 then Medium else Strong in
  mkStrengthResult score label feedback.

(** ** [generatePassphrase] *)

Definition WORDS : list jsstring :=
  map js
    ["apple"; "brave"; "cloud"; "delta"; "eagle"; "flame"; "grace"; "haven";
     "ivory"; "jewel"; "karma"; "lunar"; "magic"; "noble"; "ocean"; "pulse";
     "quest"; "river"; "solar"; "tiger"; "urban"; "vivid"; "waves"; "xenon";
     "yield"; "zesty"; "amber"; "blaze"; "coral"; "drift"; "ember"; "frost";
     "gleam"; "honey"; "inlet"; "jazzy"; "kelp"; "lotus"; "maple"; "north";
     "oasis"; "pearl"; "quill"; "ridge"; "storm"; "torch"; "unity"; "vault";
     "wisp"; "xerox"; "yacht"; "zenith"; "arrow"; "birch"; "crisp"; "dune"]%string.

(** [word.charAt(0).toUpperCase() + word.slice(1)], for a word of unaccented
    Latin letters as all of [WORDS] are: the capital of a letter from a to z
    is 32 code units below it. *)
Definition capitalise (word : jsstring) : jsstring :=
  match word with
  | [] => []
  | c :: rest => (if is_lower c then c - 32 else c) :: rest
  end.

(** [result.join('-')] *)
Fixpoint join_hyphen (parts : list jsstring) : jsstring :=
  match parts with
  | [] => []
  | p :: [] => p
  | p :: rest => p ++ 45 :: join_hyphen rest
  end.

Section Passphrase.
Context {H : Host}.

(** [generatePassphrase(wordCount)]: [None] when [getRandomValues] throws. *)
Definition generatePassphrase (wordCount : nat) (g : Rng)
  : option jsstring * Rng :=
  match getRandomUint32s wordCount g with
  | (None, g') => (None, g')
  | (Some array, g') =>
      (Some (join_hyphen
               (map (fun v =>
                       capitalise
                         (nth (Z.to_nat (v mod Z.of_nat (List.length WORDS)))
                              WORDS []))
                    array)),
       g')
  end.

End Passphrase.

(** ** More shorthands of the statements *)

Section MoreShorthands.
Context {H : Host}.

(** Every mounted hook instance holds the store's current state, and the
    session marker is set while a local key is held. *)
Definition in_sync (ks : KeyStore) : Prop :=
  Forall (fun st => st = globalState ks) (setters ks)
  /\ (localKey (globalState ks) <> None -> isLocalUnlocked ks = true).

End MoreShorthands.

(** A password that the codec gives back as it took it, and that is not
    itself shaped like an envelope. *)
Definition plain_password (pw : jsstring) : Prop :=
  isWellFormed pw = true
  /\ startsWith pw [BOM] = false
  /\ isEncryptedBundle pw = false.

(** What may lie in storage for a password when a key was there at the
    save: an envelope, the empty string, or a value that begins with the lock
    emoji. *)
Definition sealed (pw : jsstring) : Prop :=
  isEncryptedBundle pw = true \/ pw = [] \/ startsWith pw LOCK = true.

(** An object whose members are all strings, and the tokens of its members
    in a JSON text. *)
Definition string_members (ms : list (jsstring * jsstring))
  : list (jsstring * json) :=
  map (fun kv => (fst kv, JString (snd kv))) ms.

Fixpoint member_tokens (ms : list (jsstring * jsstring)) : list token :=
  match ms with
  | [] => []
  | (k, v) :: [] => [TStr k; TColon; TStr v]
  | (k, v) :: rest => TStr k :: TColon :: TStr v :: TComma :: member_tokens rest
  end.

(** The bundle of a sharing link, as [encryptData] builds it. *)
Definition share_bundle (salt iv ct : bytes) : jsstring :=
  b64_encode
    (JSON_stringify
       (JObject [(js "s", JString (b64_encode (map Z_of_byte salt)));
                 (js "iv", JString (b64_encode (map Z_of_byte iv)));
                 (js "ct", JString (b64_encode (map Z_of_byte ct)))])).

Definition strings_of_code_units (ms : list (jsstring * jsstring)) : Prop :=
  Forall (fun kv => code_units (fst kv) /\ code_units (snd kv)) ms.

(** The views among a run of calls that returned the data of a token's
    share, and the table after the run. *)
Fixpoint run_views (calls : list (Z * option jsstring)) (t : jsstring)
  (table : list Share) : Z * list Share :=
  match calls with
  | [] => (0, table)
  | (now, p) :: rest =>
      let '(r, table') := view_shared_password now p table in
      let '(n, table'') := run_views rest t table' in
      (match r, p with
       | RpcData _, Some t' => if jsstring_eqb t' t then n + 1 else n
       | _, _ => n
       end,
       table'')
  end.

(** The views that a token's share has left. *)
Definition views_left (t : jsstring) (table : list Share) : Z :=
  match find (fun sp => jsstring_eqb (share_token sp) t) table with
  | Some sp => Z.max 0 (max_views sp - view_count sp)
  | None => 0
  end.

(** The characters of a base32 secret: the capital letters, the digits 2
    to 7, and the padding sign. *)
Definition is_base32 (c : Z) : bool :=
  ((65 <=? c) && (c <=? 90)) || ((50 <=? c) && (c <=? 55)) || (c =? 61).

(** The characters that the options ask for. *)
Definition asked_for (options : GeneratorOptions) (c : Z) : bool :=
  ((includeLetters options && is_letter c)
   || (includeNumbers options && is_digit c)
   || (includeSymbols options && includes SYMBOLS [c]))
  && negb (excludeAmbiguous options && includes AMBIGUOUS [c])
  && negb (excludeSimilar options && includes SIMILAR [c]).

(** A word of a passphrase: a capital letter, then 3 to 5 small letters, no
    character three times in a row. *)
Definition passphrase_word (w : jsstring) : bool :=
  match w with
  | c :: rest =>
      is_upper c && forallb is_lower rest
      && (3 <=? Z.of_nat (List.length rest)) && (Z.of_nat (List.length rest) <=? 5)
      && negb (has_repeat w)
  | [] => false
  end.

(** A small validator of codes and a small auth service, to run the
    handler on. *)
Definition toy_totp_validate (secret code : jsstring) (now : Z)
  : Outcome (option Z) :=
  if negb (forallb is_base32 secret) then Thrown TypeError
  else if jsstring_eqb code (js "123456") then Returned (Some 0)
  else Returned None.

Definition toy_getUser (authHeader : jsstring) : option jsstring :=
  if jsstring_eqb authHeader (js "Bearer user42") then Some (js "user42")
  else None.

(** * Part II: properties *)

Example TextEncoder_lock_emoji :
  TextEncoder_encode [0xD83D; 0xDD12] = [xf0; x9f; x94; x92].
Proof. vm_compute. reflexivity. Qed.

Example TextDecoder_ascii :
  TextDecoder_decode (TextEncoder_encode (js "hunter2")) = js "hunter2".
Proof. vm_compute. reflexivity. Qed.

Example TextDecoder_bom :
  TextDecoder_decode (TextEncoder_encode [BOM; 97]) = [97].
Proof. vm_compute. reflexivity. Qed.

Example TextDecoder_lone :
  TextDecoder_decode (TextEncoder_encode [0xD800]) = [REPLACEMENT].
Proof. vm_compute. reflexivity. Qed.

(** ** Bytes *)

Lemma Z_of_byte_range (b : byte) : 0 <= Z_of_byte b < 256.
Proof.
  unfold Z_of_byte. pose proof (Byte.to_N_bounded b). lia.
Qed.

Lemma byte_of_Z_of_byte (b : byte) : byte_of_Z (Z_of_byte b) = b.
Proof.
  unfold byte_of_Z. pose proof (Z_of_byte_range b) as Hr.
  rewrite Z.mod_small by exact Hr.
  unfold Z_of_byte. rewrite N2Z.id, Byte.of_to_N. reflexivity.
Qed.

Lemma Z_of_byte_of_Z (z : Z) : 0 <= z < 256 -> Z_of_byte (byte_of_Z z) = z.
Proof.
  intros Hz. unfold byte_of_Z, Z_of_byte.
  rewrite Z.mod_small by exact Hz.
  destruct (Byte.of_N (Z.to_N z)) as [b|] eqn:E.
  - apply Byte.to_of_N in E. rewrite E. lia.
  - apply Byte.of_N_None_iff in E. lia.
Qed.

Lemma map_byte_of_Z_of_byte (bs : bytes) : map byte_of_Z (map Z_of_byte bs) = bs.
Proof.
  induction bs as [|b bs IH]; simpl; [reflexivity|].
  now rewrite byte_of_Z_of_byte, IH.
Qed.

Lemma map_Z_of_byte_of_Z (zs : list Z) :
  Forall (fun z => 0 <= z < 256) zs -> map Z_of_byte (map byte_of_Z zs) = zs.
Proof.
  induction 1 as [|z zs Hz _ IH]; simpl; [reflexivity|].
  now rewrite Z_of_byte_of_Z, IH.
Qed.

(** ** UTF-8: decoding what the encoder wrote *)

Ltac decide_cmp :=
  repeat match goal with
  | |- context [?a <=? ?b] => destruct (Z.leb_spec a b); try lia
  | |- context [?a <? ?b] => destruct (Z.ltb_spec a b); try lia
  | |- context [?a =? ?b] => destruct (Z.eqb_spec a b); try lia
  end.

Lemma utf8_encode_cp_bytes (cp : Z) :
  is_scalar cp -> Forall (fun z => 0 <= z < 256) (utf8_encode_cp cp).
Proof.
  intros Hs. unfold is_scalar in Hs. unfold utf8_encode_cp.
  decide_cmp; repeat constructor;
    try (apply Z.add_nonneg_nonneg; [lia|]);
    try (pose proof (Z.mod_pos_bound cp 64); pose proof (Z.mod_pos_bound (cp / 64) 64);
         pose proof (Z.mod_pos_bound (cp / 4096) 64); lia);
    try (apply Z.div_pos; lia).
  all: try (assert (cp / 64 < 32) by (apply Z.div_lt_upper_bound; lia); lia).
  all: try (assert (cp / 4096 < 16) by (apply Z.div_lt_upper_bound; lia); lia).
  all: try (assert (cp / 262144 < 5) by (apply Z.div_lt_upper_bound; lia); lia).
Qed.

Ltac dlia := Z.div_mod_to_equations; lia.

Lemma continuation_mod (x : Z) : 0 <= x < 64 -> (0x80 + x) mod 64 = x.
Proof. intros Hx. dlia. Qed.

Lemma utf8_continue (p : utf8_pending) (x : Z) (rest : list Z) :
  0 <= x < 64 ->
  pending_lower p <= 0x80 + x <= pending_upper p ->
  utf8_decode (Some p) (0x80 + x :: rest)
  = match pending_needed p with
    | O => (pending_cp p * 64 + x) :: utf8_decode None rest
    | S n => utf8_decode (Some (mkPending (pending_cp p * 64 + x) n 0x80 0xBF)) rest
    end.
Proof.
  intros Hx [Hlo Hhi]. cbn [utf8_decode].
  rewrite (proj2 (Z.leb_le _ _) Hlo), (proj2 (Z.leb_le _ _) Hhi). cbn [andb].
  now rewrite continuation_mod by exact Hx.
Qed.

Lemma utf8_lead_2 (a : Z) :
  2 <= a < 32 -> utf8_lead (0xC0 + a) = ([], Some (mkPending a 0 0x80 0xBF)).
Proof.
  intros Ha. unfold utf8_lead. decide_cmp. cbn [andb]. do 3 f_equal. lia.
Qed.

Lemma utf8_lead_3 (a : Z) :
  0 <= a < 16 ->
  utf8_lead (0xE0 + a)
  = ([], Some (mkPending a 1 (if a =? 0 then 0xA0 else 0x80)
                             (if a =? 13 then 0x9F else 0xBF))).
Proof.
  intros Ha. unfold utf8_lead.
  destruct (Z.leb_spec (0xE0 + a) 0x7F); [lia|].
  destruct (Z.leb_spec 0xC2 (0xE0 + a)); [|lia].
  destruct (Z.leb_spec (0xE0 + a) 0xDF); [lia|].
  destruct (Z.leb_spec 0xE0 (0xE0 + a)); [|lia].
  destruct (Z.leb_spec (0xE0 + a) 0xEF); [|lia].
  cbn [andb].
  replace (0xE0 + a - 0xE0) with a by lia.
  replace (0xE0 + a =? 0xE0) with (a =? 0)
    by (destruct (Z.eqb_spec a 0), (Z.eqb_spec (0xE0 + a) 0xE0); lia || reflexivity).
  replace (0xE0 + a =? 0xED) with (a =? 13)
    by (destruct (Z.eqb_spec a 13), (Z.eqb_spec (0xE0 + a) 0xED); lia || reflexivity).
  reflexivity.
Qed.

Lemma utf8_lead_4 (a : Z) :
  0 <= a < 5 ->
  utf8_lead (0xF0 + a)
  = ([], Some (mkPending a 2 (if a =? 0 then 0x90 else 0x80)
                             (if a =? 4 then 0x8F else 0xBF))).
Proof.
  intros Ha. unfold utf8_lead.
  destruct (Z.leb_spec (0xF0 + a) 0x7F); [lia|].
  destruct (Z.leb_spec 0xC2 (0xF0 + a)); [|lia].
  destruct (Z.leb_spec (0xF0 + a) 0xDF); [lia|].
  destruct (Z.leb_spec 0xE0 (0xF0 + a)); [|lia].
  destruct (Z.leb_spec (0xF0 + a) 0xEF); [lia|].
  destruct (Z.leb_spec 0xF0 (0xF0 + a)); [|lia].
  destruct (Z.leb_spec (0xF0 + a) 0xF4); [|lia].
  cbn [andb].
  replace (0xF0 + a - 0xF0) with a by lia.
  replace (0xF0 + a =? 0xF0) with (a =? 0)
    by (destruct (Z.eqb_spec a 0), (Z.eqb_spec (0xF0 + a) 0xF0); lia || reflexivity).
  replace (0xF0 + a =? 0xF4) with (a =? 4)
    by (destruct (Z.eqb_spec a 4), (Z.eqb_spec (0xF0 + a) 0xF4); lia || reflexivity).
  reflexivity.
Qed.

Lemma utf8_decode_2 (a x : Z) (rest : list Z) :
  2 <= a < 32 -> 0 <= x < 64 ->
  utf8_decode None (0xC0 + a :: 0x80 + x :: rest)
  = (a * 64 + x) :: utf8_decode None rest.
Proof.
  intros Ha Hx.
  change (utf8_decode None (0xC0 + a :: 0x80 + x :: rest))
    with (let '(out, st') := utf8_lead (0xC0 + a) in
          out ++ utf8_decode st' (0x80 + x :: rest)).
  rewrite utf8_lead_2 by exact Ha. cbn [app].
  rewrite utf8_continue by (cbn [pending_lower pending_upper]; lia).
  reflexivity.
Qed.

Lemma utf8_decode_3 (a x y : Z) (rest : list Z) :
  0 <= a < 16 -> 0 <= x < 64 -> 0 <= y < 64 ->
  (a = 0 -> 32 <= x) -> (a = 13 -> x < 32) ->
  utf8_decode None (0xE0 + a :: 0x80 + x :: 0x80 + y :: rest)
  = ((a * 64 + x) * 64 + y) :: utf8_decode None rest.
Proof.
  intros Ha Hx Hy H0 H13.
  change (utf8_decode None (0xE0 + a :: 0x80 + x :: 0x80 + y :: rest))
    with (let '(out, st') := utf8_lead (0xE0 + a) in
          out ++ utf8_decode st' (0x80 + x :: 0x80 + y :: rest)).
  rewrite utf8_lead_3 by exact Ha. cbn [app].
  rewrite utf8_continue;
    [|exact Hx
     |cbn [pending_lower pending_upper];
      destruct (Z.eqb_spec a 0), (Z.eqb_spec a 13); lia].
  cbn [pending_needed pending_cp].
  rewrite utf8_continue by (cbn [pending_lower pending_upper]; lia).
  reflexivity.
Qed.

Lemma utf8_decode_4 (a x y z : Z) (rest : list Z) :
  0 <= a < 5 -> 0 <= x < 64 -> 0 <= y < 64 -> 0 <= z < 64 ->
  (a = 0 -> 16 <= x) -> (a = 4 -> x < 16) ->
  utf8_decode None (0xF0 + a :: 0x80 + x :: 0x80 + y :: 0x80 + z :: rest)
  = (((a * 64 + x) * 64 + y) * 64 + z) :: utf8_decode None rest.
Proof.
  intros Ha Hx Hy Hz H0 H4.
  change (utf8_decode None (0xF0 + a :: 0x80 + x :: 0x80 + y :: 0x80 + z :: rest))
    with (let '(out, st') := utf8_lead (0xF0 + a) in
          out ++ utf8_decode st' (0x80 + x :: 0x80 + y :: 0x80 + z :: rest)).
  rewrite utf8_lead_4 by exact Ha. cbn [app].
  rewrite utf8_continue;
    [|exact Hx
     |cbn [pending_lower pending_upper];
      destruct (Z.eqb_spec a 0), (Z.eqb_spec a 4); lia].
  cbn [pending_needed pending_cp].
  rewrite utf8_continue by (cbn [pending_lower pending_upper]; lia).
  cbn [pending_needed pending_cp].
  rewrite utf8_continue by (cbn [pending_lower pending_upper]; lia).
  reflexivity.
Qed.

Lemma utf8_decode_encode_cp (cp : Z) (rest : list Z) :
  is_scalar cp ->
  utf8_decode None (utf8_encode_cp cp ++ rest) = cp :: utf8_decode None rest.
Proof.
  intros Hs. unfold is_scalar in Hs. unfold utf8_encode_cp.
  destruct (Z.ltb_spec cp 0x80);
    [|destruct (Z.ltb_spec cp 0x800); [|destruct (Z.ltb_spec cp 0x10000)]];
    cbn [app].
  - cbn [utf8_decode]. unfold utf8_lead.
    destruct (Z.leb_spec cp 0x7F); [reflexivity|lia].
  - rewrite utf8_decode_2 by dlia. f_equal. dlia.
  - rewrite utf8_decode_3 by dlia. f_equal. dlia.
  - rewrite utf8_decode_4 by dlia. f_equal. dlia.
Qed.

Lemma utf8_decode_encode (cps : list Z) :
  Forall is_scalar cps ->
  utf8_decode None (flat_map utf8_encode_cp cps) = cps.
Proof.
  induction 1 as [|cp cps Hcp _ IH]; [reflexivity|].
  cbn [flat_map]. rewrite utf8_decode_encode_cp by exact Hcp. now rewrite IH.
Qed.

Lemma utf8_encode_bytes (cps : list Z) :
  Forall is_scalar cps ->
  Forall (fun z => 0 <= z < 256) (flat_map utf8_encode_cp cps).
Proof.
  induction 1 as [|cp cps Hcp _ IH]; cbn [flat_map]; [constructor|].
  apply Forall_app. split; [now apply utf8_encode_cp_bytes|exact IH].
Qed.

(** Induction two elements at a time, as [code_points] reads a string. *)
Lemma list_pair_ind {A : Type} (P : list A -> Prop) :
  P [] -> (forall x, P [x]) ->
  (forall x y l, P l -> P (y :: l) -> P (x :: y :: l)) ->
  forall l, P l.
Proof.
  intros H0 H1 H2 l.
  enough (P l /\ forall x, P (x :: l)) by tauto.
  induction l as [|y l [IHl IHy]]; split; auto.
Qed.

Lemma is_code_unit_spec (u : Z) : is_code_unit u = true <-> 0 <= u < 65536.
Proof. unfold is_code_unit. rewrite andb_true_iff, Z.leb_le, Z.ltb_lt. tauto. Qed.

Lemma is_high_surrogate_spec (u : Z) :
  is_high_surrogate u = true <-> 0xD800 <= u <= 0xDBFF.
Proof. unfold is_high_surrogate. rewrite andb_true_iff, !Z.leb_le. tauto. Qed.

Lemma is_low_surrogate_spec (u : Z) :
  is_low_surrogate u = true <-> 0xDC00 <= u <= 0xDFFF.
Proof. unfold is_low_surrogate. rewrite andb_true_iff, !Z.leb_le. tauto. Qed.

Lemma is_high_surrogate_false (u : Z) :
  is_high_surrogate u = false <-> ~ (0xD800 <= u <= 0xDBFF).
Proof. rewrite <- is_high_surrogate_spec. now destruct (is_high_surrogate u). Qed.

Lemma is_low_surrogate_false (u : Z) :
  is_low_surrogate u = false <-> ~ (0xDC00 <= u <= 0xDFFF).
Proof. rewrite <- is_low_surrogate_spec. now destruct (is_low_surrogate u). Qed.

Lemma replacement_scalar : is_scalar REPLACEMENT.
Proof. unfold is_scalar, REPLACEMENT. lia. Qed.

Lemma code_points_scalar (s : jsstring) :
  code_units s -> Forall is_scalar (code_points s).
Proof.
  unfold code_units. induction s as [| u | u l rest IH1 IH2] using list_pair_ind;
    intros Hs.
  - constructor.
  - inversion Hs as [|? ? Hu _]; subst. apply is_code_unit_spec in Hu.
    cbn [code_points].
    destruct (is_high_surrogate u) eqn:Eh;
      [constructor; [apply replacement_scalar|constructor]|].
    apply is_high_surrogate_false in Eh.
    destruct (is_low_surrogate u) eqn:El; (constructor; [|constructor]);
      [apply replacement_scalar|].
    apply is_low_surrogate_false in El. unfold is_scalar. lia.
  - inversion Hs as [|? ? Hu Hs']; subst. apply is_code_unit_spec in Hu.
    inversion Hs' as [|? ? Hl Hs'']; subst.
    specialize (IH1 Hs''). specialize (IH2 Hs').
    change (code_points (u :: l :: rest)) with
      (if is_high_surrogate u then
         if is_low_surrogate l
         then (0x10000 + (u - 0xD800) * 0x400 + (l - 0xDC00)) :: code_points rest
         else REPLACEMENT :: code_points (l :: rest)
       else if is_low_surrogate u then REPLACEMENT :: code_points (l :: rest)
       else u :: code_points (l :: rest)).
    destruct (is_high_surrogate u) eqn:Eh.
    + apply is_high_surrogate_spec in Eh.
      destruct (is_low_surrogate l) eqn:El; constructor; auto using replacement_scalar.
      apply is_low_surrogate_spec in El. unfold is_scalar. lia.
    + apply is_high_surrogate_false in Eh.
      destruct (is_low_surrogate u) eqn:El; constructor; auto using replacement_scalar.
      apply is_low_surrogate_false in El. unfold is_scalar. lia.
Qed.

(** What a string becomes on its way through [TextEncoder] and [TextDecoder]:
    lone surrogates are replaced and a leading U+FEFF is lost. *)
Lemma TextDecoder_TextEncoder (s : jsstring) :
  code_units s ->
  TextDecoder_decode (TextEncoder_encode s)
  = flat_map utf16_encode_cp (strip_bom (code_points s)).
Proof.
  intros Hs. unfold TextDecoder_decode, TextEncoder_encode.
  pose proof (code_points_scalar s Hs) as Hcp.
  rewrite map_Z_of_byte_of_Z by (now apply utf8_encode_bytes).
  now rewrite utf8_decode_encode.
Qed.

Lemma isWellFormed_code_units (s : jsstring) :
  isWellFormed s = true -> code_units s.
Proof.
  unfold code_units. induction s as [| u | u l rest IH1 IH2] using list_pair_ind;
    intros Hs.
  - constructor.
  - cbn [isWellFormed] in Hs. apply andb_true_iff in Hs as [Hu _].
    repeat constructor. exact Hu.
  - change (isWellFormed (u :: l :: rest)) with
      (is_code_unit u &&
       (if is_high_surrogate u then is_low_surrogate l && isWellFormed rest
        else negb (is_low_surrogate u) && isWellFormed (l :: rest))) in Hs.
    apply andb_true_iff in Hs as [Hu Hs]. constructor; [exact Hu|].
    destruct (is_high_surrogate u).
    + apply andb_true_iff in Hs as [Hl Hs]. constructor; [|now apply IH1].
      apply is_low_surrogate_spec in Hl. apply is_code_unit_spec. lia.
    + apply andb_true_iff in Hs as [_ Hs]. now apply IH2.
Qed.

Lemma utf16_code_points (s : jsstring) :
  isWellFormed s = true -> flat_map utf16_encode_cp (code_points s) = s.
Proof.
  induction s as [| u | u l rest IH1 IH2] using list_pair_ind; intros Hs.
  - reflexivity.
  - cbn [isWellFormed] in Hs. apply andb_true_iff in Hs as [Hu Hs].
    apply is_code_unit_spec in Hu. cbn [code_points].
    destruct (is_high_surrogate u); [discriminate|].
    destruct (is_low_surrogate u); [discriminate|].
    cbn [flat_map]. unfold utf16_encode_cp.
    destruct (Z.ltb_spec u 0x10000); [reflexivity|lia].
  - change (isWellFormed (u :: l :: rest)) with
      (is_code_unit u &&
       (if is_high_surrogate u then is_low_surrogate l && isWellFormed rest
        else negb (is_low_surrogate u) && isWellFormed (l :: rest))) in Hs.
    change (code_points (u :: l :: rest)) with
      (if is_high_surrogate u then
         if is_low_surrogate l
         then (0x10000 + (u - 0xD800) * 0x400 + (l - 0xDC00)) :: code_points rest
         else REPLACEMENT :: code_points (l :: rest)
       else if is_low_surrogate u then REPLACEMENT :: code_points (l :: rest)
       else u :: code_points (l :: rest)).
    apply andb_true_iff in Hs as [Hu Hs]. apply is_code_unit_spec in Hu.
    destruct (is_high_surrogate u) eqn:Eh.
    + apply andb_true_iff in Hs as [Hl Hs]. rewrite Hl.
      apply is_high_surrogate_spec in Eh. apply is_low_surrogate_spec in Hl.
      cbn [flat_map]. rewrite (IH1 Hs). unfold utf16_encode_cp.
      destruct (Z.ltb_spec (0x10000 + (u - 0xD800) * 0x400 + (l - 0xDC00)) 0x10000);
        [lia|].
      cbn [app]. f_equal; [dlia|]. f_equal. dlia.
    + apply andb_true_iff in Hs as [Hl Hs].
      destruct (is_low_surrogate u); [discriminate|].
      cbn [flat_map]. rewrite (IH2 Hs). unfold utf16_encode_cp.
      destruct (Z.ltb_spec u 0x10000); [reflexivity|lia].
Qed.

Lemma code_points_head (s : jsstring) :
  isWellFormed s = true -> startsWith s [BOM] = false ->
  strip_bom (code_points s) = code_points s.
Proof.
  destruct s as [|u rest]; [reflexivity|].
  intros Hwf Hb. cbn [startsWith] in Hb. rewrite andb_true_r in Hb.
  apply Z.eqb_neq in Hb.
  cbn [isWellFormed] in Hwf. apply andb_true_iff in Hwf as [Hu Hwf].
  cbn [code_points].
  destruct (is_high_surrogate u) eqn:Eh.
  - destruct rest as [|l rest']; [discriminate|].
    apply andb_true_iff in Hwf as [Hl _]. rewrite Hl.
    apply is_high_surrogate_spec in Eh. apply is_low_surrogate_spec in Hl.
    unfold strip_bom, BOM.
    destruct (Z.eqb_spec (0x10000 + (u - 0xD800) * 0x400 + (l - 0xDC00)) 0xFEFF);
      [lia|reflexivity].
  - apply andb_true_iff in Hwf as [Hl _].
    destruct (is_low_surrogate u); [discriminate|].
    unfold strip_bom. destruct (Z.eqb_spec u BOM); [contradiction|reflexivity].
Qed.

(** A well-formed string that does not begin with U+FEFF survives the pair. *)
Lemma TextDecoder_TextEncoder_id (s : jsstring) :
  isWellFormed s = true -> startsWith s [BOM] = false ->
  TextDecoder_decode (TextEncoder_encode s) = s.
Proof.
  intros Hwf Hb.
  rewrite TextDecoder_TextEncoder by (now apply isWellFormed_code_units).
  rewrite code_points_head by assumption. now apply utf16_code_points.
Qed.

(** ** Base64 *)

Example atob_plain_text : atob (js "plain text") = Thrown InvalidCharacterError.
Proof. vm_compute. reflexivity. Qed.

Example atob_forgiving :
  atob (js " aGk= ") = Returned (js "hi") /\ atob (js "aGk") = Returned (js "hi")
  /\ atob (js "aGk==") = Thrown InvalidCharacterError
  /\ atob (js "a===") = Thrown InvalidCharacterError.
Proof. vm_compute. repeat split. Qed.

Example btoa_hi : btoa (js "hi") = Returned (js "aGk=").
Proof. vm_compute. reflexivity. Qed.
Lemma b64_value_char (n : Z) : is_sextet n -> b64_value (b64_char n) = Some n.
Proof.
  unfold is_sextet, b64_value, b64_char. intros Hn.
  decide_cmp; cbn [andb]; decide_cmp; cbn [andb]; f_equal; lia.
Qed.

Lemma b64_char_not_pad (n : Z) : is_sextet n -> (b64_char n =? PAD) = false.
Proof.
  unfold is_sextet, b64_char, PAD. intros Hn. apply Z.eqb_neq. decide_cmp.
Qed.

Lemma b64_char_not_whitespace (n : Z) :
  is_sextet n -> is_ascii_whitespace (b64_char n) = false.
Proof.
  unfold is_sextet, b64_char. intros Hn.
  decide_cmp; unfold is_ascii_whitespace; decide_cmp; reflexivity.
Qed.

(** The four sextets of three octets. *)
Lemma sextets_of_octets (a b c : Z) :
  is_octet a -> is_octet b -> is_octet c ->
  is_sextet (a / 4) /\ is_sextet (a mod 4 * 16 + b / 16)
  /\ is_sextet (b mod 16 * 4 + c / 64) /\ is_sextet (c mod 64)
  /\ is_sextet (a mod 4 * 16) /\ is_sextet (b mod 16 * 4).
Proof. unfold is_octet, is_sextet. intros Ha Hb Hc. repeat split; dlia. Qed.

Lemma octets_of_sextets (a b c : Z) :
  is_octet a -> is_octet b -> is_octet c ->
  a / 4 * 4 + (a mod 4 * 16 + b / 16) / 16 = a
  /\ (a mod 4 * 16 + b / 16) mod 16 * 16 + (b mod 16 * 4 + c / 64) / 4 = b
  /\ (b mod 16 * 4 + c / 64) mod 4 * 64 + c mod 64 = c.
Proof. unfold is_octet. intros Ha Hb Hc. repeat split; dlia. Qed.

Lemma list_triple_ind {A : Type} (P : list A -> Prop) :
  P [] -> (forall a, P [a]) -> (forall a b, P [a; b]) ->
  (forall a b c l, P l -> P (a :: b :: c :: l)) ->
  forall l, P l.
Proof.
  intros H0 H1 H2 H3 l.
  enough (P l /\ (forall a, P (a :: l)) /\ forall a b, P (a :: b :: l)) by tauto.
  induction l as [|x l (IH0 & IH1 & IH2)]; repeat split; auto.
Qed.

Lemma length_mod4_cons4 (c1 c2 c3 c4 : Z) (d : jsstring) :
  length_mod4 (c1 :: c2 :: c3 :: c4 :: d) = length_mod4 d.
Proof.
  unfold length_mod4. cbn [List.length]. rewrite !Nat2Z.inj_succ. dlia.
Qed.

Lemma forgiving_base64_decode_cons4 (n1 n2 n3 n4 : Z) (d : jsstring) :
  is_sextet n1 -> is_sextet n2 -> is_sextet n3 -> is_sextet n4 ->
  forgiving_base64_decode
    (b64_char n1 :: b64_char n2 :: b64_char n3 :: b64_char n4 :: d)
  = (l <- forgiving_base64_decode d ;;
     Returned ((n1 * 4 + n2 / 16) :: (n2 mod 16 * 16 + n3 / 4)
               :: (n3 mod 4 * 64 + n4) :: l)).
Proof.
  intros H1 H2 H3 H4. unfold forgiving_base64_decode.
  rewrite length_mod4_cons4.
  assert (Hs : strip_padding
                 (b64_char n1 :: b64_char n2 :: b64_char n3 :: b64_char n4 :: d)
               = b64_char n1 :: b64_char n2 :: b64_char n3 :: b64_char n4
                 :: strip_padding d).
  { cbn [strip_padding]. rewrite !b64_char_not_pad by assumption. reflexivity. }
  rewrite Hs.
  assert (Hl : forall x, length_mod4
                 (b64_char n1 :: b64_char n2 :: b64_char n3 :: b64_char n4 :: x)
               = length_mod4 x) by (intros; apply length_mod4_cons4).
  assert (Hv : forall x, b64_values
                 (b64_char n1 :: b64_char n2 :: b64_char n3 :: b64_char n4 :: x)
               = match b64_values x with
                 | Some vs => Some (n1 :: n2 :: n3 :: n4 :: vs)
                 | None => None
                 end).
  { intros x. cbn [b64_values]. rewrite !b64_value_char by assumption.
    now destruct (b64_values x). }
  destruct (length_mod4 d =? 0); rewrite Hl, Hv.
  - destruct (length_mod4 (strip_padding d) =? 1); [reflexivity|].
    now destruct (b64_values (strip_padding d)).
  - destruct (length_mod4 d =? 1); [reflexivity|].
    now destruct (b64_values d).
Qed.

Lemma forgiving_base64_decode_encode (s : list Z) :
  Forall is_octet s -> forgiving_base64_decode (b64_encode s) = Returned s.
Proof.
  induction s as [| a | a b | a b c s IH] using list_triple_ind; intros Hs.
  - reflexivity.
  - inversion Hs as [|? ? Ha _]; subst.
    destruct (sextets_of_octets a 0 0 Ha) as (S1 & _ & _ & _ & S2 & _);
      try (unfold is_octet; lia).
    unfold forgiving_base64_decode, b64_encode.
    change (length_mod4 [b64_char (a / 4); b64_char (a mod 4 * 16); PAD; PAD]) with 0.
    cbn [Z.eqb strip_padding]. rewrite !b64_char_not_pad by assumption.
    cbn [andb Z.eqb PAD Pos.eqb].
    change (length_mod4 [b64_char (a / 4); b64_char (a mod 4 * 16)]) with 2.
    cbn [Z.eqb Pos.eqb b64_values]. rewrite !b64_value_char by assumption.
    cbn [b64_decode]. do 2 f_equal. unfold is_octet in Ha. dlia.
  - inversion Hs as [|? ? Ha Hs']; subst. inversion Hs' as [|? ? Hb _]; subst.
    destruct (sextets_of_octets a b 0 Ha Hb) as (S1 & S2 & _ & _ & _ & S3);
      try (unfold is_octet; lia).
    unfold forgiving_base64_decode, b64_encode.
    change (length_mod4 [b64_char (a / 4); b64_char (a mod 4 * 16 + b / 16);
                         b64_char (b mod 16 * 4); PAD]) with 0.
    cbn [Z.eqb strip_padding]. rewrite !b64_char_not_pad by assumption.
    cbn [andb Z.eqb PAD Pos.eqb].
    change (length_mod4 [b64_char (a / 4); b64_char (a mod 4 * 16 + b / 16);
                         b64_char (b mod 16 * 4)]) with 3.
    cbn [Z.eqb Pos.eqb b64_values]. rewrite !b64_value_char by assumption.
    cbn [b64_decode]. unfold is_octet in Ha, Hb.
    f_equal. f_equal; [dlia|]. f_equal. dlia.
  - inversion Hs as [|? ? Ha Hs1]; subst. inversion Hs1 as [|? ? Hb Hs2]; subst.
    inversion Hs2 as [|? ? Hc Hs3]; subst.
    destruct (sextets_of_octets a b c Ha Hb Hc) as (S1 & S2 & S3 & S4 & _ & _).
    destruct (octets_of_sextets a b c Ha Hb Hc) as (E1 & E2 & E3).
    change (b64_encode (a :: b :: c :: s)) with
      (b64_char (a / 4) :: b64_char (a mod 4 * 16 + b / 16)
       :: b64_char (b mod 16 * 4 + c / 64) :: b64_char (c mod 64)
       :: b64_encode s).
    rewrite forgiving_base64_decode_cons4 by assumption.
    rewrite (IH Hs3). cbn [bind]. now rewrite E1, E2, E3.
Qed.

Lemma b64_encode_no_whitespace (s : list Z) :
  Forall is_octet s ->
  filter (fun c => negb (is_ascii_whitespace c)) (b64_encode s) = b64_encode s.
Proof.
  induction s as [| a | a b | a b c s IH] using list_triple_ind; intros Hs.
  - reflexivity.
  - inversion Hs as [|? ? Ha _]; subst.
    destruct (sextets_of_octets a 0 0 Ha) as (S1 & _ & _ & _ & S2 & _);
      try (unfold is_octet; lia).
    cbn [b64_encode filter]. rewrite !b64_char_not_whitespace by assumption.
    reflexivity.
  - inversion Hs as [|? ? Ha Hs']; subst. inversion Hs' as [|? ? Hb _]; subst.
    destruct (sextets_of_octets a b 0 Ha Hb) as (S1 & S2 & _ & _ & _ & S3);
      try (unfold is_octet; lia).
    cbn [b64_encode filter]. rewrite !b64_char_not_whitespace by assumption.
    reflexivity.
  - inversion Hs as [|? ? Ha Hs1]; subst. inversion Hs1 as [|? ? Hb Hs2]; subst.
    inversion Hs2 as [|? ? Hc Hs3]; subst.
    destruct (sextets_of_octets a b c Ha Hb Hc) as (S1 & S2 & S3 & S4 & _ & _).
    change (b64_encode (a :: b :: c :: s)) with
      (b64_char (a / 4) :: b64_char (a mod 4 * 16 + b / 16)
       :: b64_char (b mod 16 * 4 + c / 64) :: b64_char (c mod 64)
       :: b64_encode s).
    cbn [filter]. rewrite !b64_char_not_whitespace by assumption.
    cbn [negb]. now rewrite (IH Hs3).
Qed.

Lemma forallb_is_latin1 (s : jsstring) :
  forallb is_latin1 s = true <-> Forall is_octet s.
Proof.
  rewrite forallb_forall, Forall_forall. unfold is_latin1, is_octet.
  split; intros H x Hx; specialize (H x Hx).
  - apply andb_true_iff in H as [H1 H2]. apply Z.leb_le in H1, H2. lia.
  - apply andb_true_iff. rewrite !Z.leb_le. lia.
Qed.

(** [atob(btoa(s)) = s] for every binary string. *)
Lemma atob_btoa (s : jsstring) :
  Forall is_octet s ->
  btoa s = Returned (b64_encode s) /\ atob (b64_encode s) = Returned s.
Proof.
  intros Hs. split.
  - unfold btoa. now rewrite (proj2 (forallb_is_latin1 s) Hs).
  - unfold atob. rewrite b64_encode_no_whitespace by exact Hs.
    now apply forgiving_base64_decode_encode.
Qed.

Lemma octets_of_bytes (buf : bytes) : Forall is_octet (map Z_of_byte buf).
Proof.
  induction buf; constructor; [apply Z_of_byte_range|assumption].
Qed.

Lemma ab2b64_returns (buf : bytes) :
  ab2b64 buf = Returned (b64_encode (map Z_of_byte buf)).
Proof. unfold ab2b64. apply atob_btoa, octets_of_bytes. Qed.

Lemma b642ab_ab2b64 (buf : bytes) :
  b642ab (b64_encode (map Z_of_byte buf)) = Returned buf.
Proof.
  unfold b642ab.
  rewrite (proj2 (atob_btoa _ (octets_of_bytes buf))). cbn [bind].
  now rewrite map_byte_of_Z_of_byte.
Qed.

(** ** JSON *)

Example JSON_parse_object :
  JSON_parse (jsq "{ 'iv' : 'YQ==', 'n':[1,-2.5e3,true,null], 'iv':'bA' }")
  = Returned (JObject [(js "iv", JString (js "YQ=="));
                       (js "n", JArray [JNumber (js "1"); JNumber (js "-2.5e3");
                                        JBool true; JNull]);
                       (js "iv", JString (js "bA"))]).
Proof. vm_compute. reflexivity. Qed.

(** ** The envelope codec *)

Example isEncryptedBundle_plain : isEncryptedBundle (js "plain text") = false.
Proof. vm_compute. reflexivity. Qed.

Example isEncryptedBundle_shapes :
  isEncryptedBundle (js "bnVsbA==") = false            (* null *)
  /\ isEncryptedBundle (js "eyJpdiI6MSwiY3QiOiIifQ==") = false   (* iv is a number *)
  /\ isEncryptedBundle (js "eyJpdiI6IiIsImN0IjoiIn0=") = true.   (* both empty strings *)
Proof. vm_compute. repeat split. Qed.
Lemma b64_char_text (n : Z) : is_sextet n -> b64_text (b64_char n).
Proof.
  unfold is_sextet, b64_text, b64_char. intros Hn. decide_cmp; lia.
Qed.

Lemma pad_text : b64_text PAD.
Proof. unfold b64_text, PAD. lia. Qed.

Lemma b64_encode_text (s : list Z) :
  Forall is_octet s -> Forall b64_text (b64_encode s).
Proof.
  induction s as [| a | a b | a b c s IH] using list_triple_ind; intros Hs.
  - constructor.
  - inversion Hs as [|? ? Ha _]; subst.
    destruct (sextets_of_octets a 0 0 Ha) as (S1 & _ & _ & _ & S2 & _);
      try (unfold is_octet; lia).
    cbn [b64_encode]. repeat (constructor; auto using b64_char_text, pad_text).
  - inversion Hs as [|? ? Ha Hs']; subst. inversion Hs' as [|? ? Hb _]; subst.
    destruct (sextets_of_octets a b 0 Ha Hb) as (S1 & S2 & _ & _ & _ & S3);
      try (unfold is_octet; lia).
    cbn [b64_encode]. repeat (constructor; auto using b64_char_text, pad_text).
  - inversion Hs as [|? ? Ha Hs1]; subst. inversion Hs1 as [|? ? Hb Hs2]; subst.
    inversion Hs2 as [|? ? Hc Hs3]; subst.
    destruct (sextets_of_octets a b c Ha Hb Hc) as (S1 & S2 & S3 & S4 & _ & _).
    change (b64_encode (a :: b :: c :: s)) with
      (b64_char (a / 4) :: b64_char (a mod 4 * 16 + b / 16)
       :: b64_char (b mod 16 * 4 + c / 64) :: b64_char (c mod 64)
       :: b64_encode s).
    repeat (constructor; auto using b64_char_text).
Qed.

Lemma b64_text_octet (c : Z) : b64_text c -> is_octet c.
Proof. unfold b64_text, is_octet. lia. Qed.

Lemma quote_body_text (s : jsstring) : Forall b64_text s -> quote_body s = s.
Proof.
  induction 1 as [|c s [Hc Hne] _ IH]; [reflexivity|].
  cbn [quote_body].
  replace (is_high_surrogate c) with false
    by (symmetry; apply is_high_surrogate_false; lia).
  replace (is_low_surrogate c) with false
    by (symmetry; apply is_low_surrogate_false; lia).
  rewrite IH. unfold quote_unit. decide_cmp. reflexivity.
Qed.

Lemma lex_string_text (s : jsstring) :
  Forall b64_text s ->
  forall (acc : jsstring) (toks : list token) (rest : jsstring),
    lex (LString acc) toks (s ++ 34 :: rest)
    = lex LIdle (TStr (rev acc ++ s) :: toks) rest.
Proof.
  induction 1 as [|c s [Hc Hne] _ IH]; intros acc toks rest.
  - cbn [app lex]. now rewrite app_nil_r.
  - cbn [app lex]. decide_cmp. rewrite IH. cbn [rev]. now rewrite <- app_assoc.
Qed.

Lemma packed_text (iv64 ct64 : jsstring) :
  Forall b64_text iv64 -> Forall b64_text ct64 ->
  packed iv64 ct64
  = 123 :: 34 :: 105 :: 118 :: 34 :: 58 :: 34
    :: iv64 ++ 34 :: 44 :: 34 :: 99 :: 116 :: 34 :: 58 :: 34
    :: ct64 ++ [34; 125].
Proof.
  intros Hiv Hct. unfold packed. cbn [JSON_stringify map join_comma fst snd].
  unfold quote.
  change (quote_body (js "iv")) with [105; 118].
  change (quote_body (js "ct")) with [99; 116].
  rewrite (quote_body_text iv64), (quote_body_text ct64) by assumption.
  cbn [app]. repeat (rewrite <- app_assoc; cbn [app]). reflexivity.
Qed.

Lemma JSON_parse_packed (iv64 ct64 : jsstring) :
  Forall b64_text iv64 -> Forall b64_text ct64 ->
  JSON_parse (packed iv64 ct64)
  = Returned (JObject [(js "iv", JString iv64); (js "ct", JString ct64)]).
Proof.
  intros Hiv Hct. rewrite packed_text by assumption.
  unfold JSON_parse.
  change (lex LIdle [] (123 :: 34 :: 105 :: 118 :: 34 :: 58 :: 34
          :: iv64 ++ 34 :: 44 :: 34 :: 99 :: 116 :: 34 :: 58 :: 34
          :: ct64 ++ [34; 125]))
    with (lex (LString []) [TColon; TStr (js "iv"); TLBrace]
              (iv64 ++ 34 :: 44 :: 34 :: 99 :: 116 :: 34 :: 58 :: 34
               :: ct64 ++ [34; 125])).
  rewrite lex_string_text by assumption.
  change (lex LIdle (TStr (rev [] ++ iv64) :: [TColon; TStr (js "iv"); TLBrace])
              (44 :: 34 :: 99 :: 116 :: 34 :: 58 :: 34 :: ct64 ++ [34; 125]))
    with (lex (LString [])
              [TColon; TStr (js "ct"); TComma; TStr iv64; TColon;
               TStr (js "iv"); TLBrace]
              (ct64 ++ 34 :: [125])).
  rewrite lex_string_text by assumption.
  reflexivity.
Qed.

Lemma packed_octets (iv64 ct64 : jsstring) :
  Forall b64_text iv64 -> Forall b64_text ct64 ->
  Forall is_octet (packed iv64 ct64).
Proof.
  intros Hiv Hct. rewrite packed_text by assumption.
  repeat (constructor; [unfold is_octet; lia|]).
  apply Forall_app. split;
    [eapply Forall_impl; [apply b64_text_octet|assumption]|].
  repeat (constructor; [unfold is_octet; lia|]).
  apply Forall_app. split;
    [eapply Forall_impl; [apply b64_text_octet|assumption]|].
  repeat (constructor; [unfold is_octet; lia|]). constructor.
Qed.
Lemma bytes_eqb_refl (a : bytes) : bytes_eqb a a = true.
Proof.
  induction a as [|x a IH]; [reflexivity|].
  cbn [bytes_eqb]. now rewrite (Byte.byte_dec_lb (eq_refl x)), IH.
Qed.

(** The small host keeps the law of the interface. *)
#[export] Instance toy_host_laws : HostLaws toy_host.
Proof.
  constructor. intros k iv pt _. cbn [aes_gcm_decrypt aes_gcm_encrypt toy_host].
  unfold toy_decrypt, toy_encrypt.
  rewrite firstn_app, Nat.sub_diag, firstn_all, firstn_O, app_nil_r.
  rewrite bytes_eqb_refl.
  now rewrite skipn_app, Nat.sub_diag, skipn_all, skipn_O.
Qed.

Section Codec.
Context {H : Host}.

Lemma envelope_parts (iv ct : bytes) :
  Forall b64_text (b64_encode (map Z_of_byte iv))
  /\ Forall b64_text (b64_encode (map Z_of_byte ct)).
Proof. split; apply b64_encode_text, octets_of_bytes. Qed.

(** What [encryptWithKey] returns: it never throws, and draws 12 bytes. *)
Lemma encryptWithKey_envelope (plaintext : jsstring) (key : CryptoKey) (g : Rng) :
  encryptWithKey plaintext key g
  = (Returned (envelope (map entropy (seq g 12))
                        (aes_gcm_encrypt key (map entropy (seq g 12))
                                         (TextEncoder_encode plaintext))),
     (g + 12)%nat).
Proof.
  unfold encryptWithKey, getRandomValues.
  rewrite !ab2b64_returns. cbn [bind]. f_equal.
  destruct (envelope_parts (map entropy (seq g 12))
              (aes_gcm_encrypt key (map entropy (seq g 12))
                               (TextEncoder_encode plaintext))) as [Hiv Hct].
  apply atob_btoa. now apply packed_octets.
Qed.

Lemma atob_envelope (iv ct : bytes) :
  atob (envelope iv ct)
  = Returned (packed (b64_encode (map Z_of_byte iv))
                     (b64_encode (map Z_of_byte ct))).
Proof.
  destruct (envelope_parts iv ct) as [Hiv Hct].
  apply atob_btoa. now apply packed_octets.
Qed.

Lemma isEncryptedBundle_envelope (iv ct : bytes) :
  isEncryptedBundle (envelope iv ct) = true.
Proof.
  destruct (envelope_parts iv ct) as [Hiv Hct].
  unfold isEncryptedBundle. rewrite atob_envelope. cbn [bind].
  rewrite JSON_parse_packed by assumption. reflexivity.
Qed.

Lemma decryptWithKey_envelope (iv ct : bytes) (key : CryptoKey) :
  decryptWithKey (envelope iv ct) key
  = match aes_gcm_decrypt key iv ct with
    | Some decrypted => Returned (TextDecoder_decode decrypted)
    | None => Thrown OperationError
    end.
Proof.
  destruct (envelope_parts iv ct) as [Hiv Hct].
  unfold decryptWithKey. rewrite atob_envelope. cbn [bind].
  rewrite JSON_parse_packed by assumption. cbn [bind].
  change (get_property
            (JObject [(js "iv", JString (b64_encode (map Z_of_byte iv)));
                      (js "ct", JString (b64_encode (map Z_of_byte ct)))])
            (js "iv"))
    with (Returned (Some (JString (b64_encode (map Z_of_byte iv))))).
  change (get_property
            (JObject [(js "iv", JString (b64_encode (map Z_of_byte iv)));
                      (js "ct", JString (b64_encode (map Z_of_byte ct)))])
            (js "ct"))
    with (Returned (Some (JString (b64_encode (map Z_of_byte ct))))).
  cbn [bind ToString json_ToString].
  rewrite !b642ab_ab2b64. reflexivity.
Qed.

End Codec.
(** ** Round trip of the codec *)

Section RoundTrip.
Context {H : Host} {L : HostLaws H}.

(** Decrypting what [encryptWithKey] made of [p], under the same key, gives
    [p] as it comes back from [TextEncoder] and [TextDecoder]. *)
Lemma decryptWithKey_encryptWithKey (p : jsstring) (key : CryptoKey) (g : Rng) :
  exists e g',
    encryptWithKey p key g = (Returned e, g')
    /\ decryptWithKey e key
       = Returned (TextDecoder_decode (TextEncoder_encode p)).
Proof.
  rewrite encryptWithKey_envelope. eexists. eexists. split; [reflexivity|].
  rewrite decryptWithKey_envelope.
  now rewrite aes_gcm_correct by (now rewrite length_map, length_seq).
Qed.

(** C1, as amended: for every plaintext that is well formed (no lone
    surrogate) and does not begin with U+FEFF, every key and every state of
    the random source, [encryptWithKey] returns an envelope, and
    [decryptWithKey] of that envelope under the same key returns the
    plaintext. *)
Theorem decrypt_encrypt_roundtrip (p : jsstring) (key : CryptoKey) (g : Rng) :
  isWellFormed p = true ->
  startsWith p [BOM] = false ->
  exists e g',
    encryptWithKey p key g = (Returned e, g')
    /\ decryptWithKey e key = Returned p.
Proof.
  intros Hwf Hbom.
  destruct (decryptWithKey_encryptWithKey p key g) as (e & g' & He & Hd).
  exists e, g'. split; [exact He|].
  rewrite Hd. f_equal. now apply TextDecoder_TextEncoder_id.
Qed.

End RoundTrip.

Lemma decrypt_encrypt_roundtrip_witness :
  exists e g',
    @encryptWithKey toy_host (js "hunter2") toy_key 0%nat = (Returned e, g')
    /\ @decryptWithKey toy_host e toy_key = Returned (js "hunter2").
Proof.
  apply (@decrypt_encrypt_roundtrip toy_host toy_host_laws
           (js "hunter2") toy_key 0%nat); reflexivity.
Defined.

(** C1 as stated fails on two kinds of plaintext: a lone surrogate comes back
    as U+FFFD, and a leading U+FEFF is lost. *)
Lemma decrypt_encrypt_counterexample :
  (exists e g',
     @encryptWithKey toy_host [0xD800] toy_key 0%nat = (Returned e, g')
     /\ @decryptWithKey toy_host e toy_key = Returned [REPLACEMENT]
     /\ [REPLACEMENT] <> [0xD800])
  /\ (exists e g',
        @encryptWithKey toy_host (BOM :: js "hunter2") toy_key 0%nat
        = (Returned e, g')
        /\ @decryptWithKey toy_host e toy_key = Returned (js "hunter2")
        /\ js "hunter2" <> BOM :: js "hunter2").
Proof.
  split.
  - destruct (@decryptWithKey_encryptWithKey toy_host toy_host_laws
                [0xD800] toy_key 0%nat) as (e & g' & He & Hd).
    exists e, g'. repeat split; [exact He|exact Hd|discriminate].
  - destruct (@decryptWithKey_encryptWithKey toy_host toy_host_laws
                (BOM :: js "hunter2") toy_key 0%nat) as (e & g' & He & Hd).
    exists e, g'. repeat split; [exact He|exact Hd|discriminate].
Qed.
(** ** isEncryptedBundle *)

Lemma typeof_string_spec (x : option json) :
  typeof_string x = true <-> exists s, x = Some (JString s).
Proof.
  split.
  - destruct x as [[]|]; try discriminate. intros _. now eexists.
  - intros [s ->]. reflexivity.
Qed.

(** C6, as amended: [isEncryptedBundle] is a total function to [bool]; it is
    true exactly when the value base64-decodes to a JSON text that parses to an
    object whose [iv] and [ct] members are strings (the length of the decoded
    [iv] is not looked at); it is false on the string [plain text], and true on
    whatever [encryptWithKey] returns, which always returns. *)
Theorem isEncryptedBundle_spec :
  (forall value : jsstring,
     isEncryptedBundle value = true <->
     exists bin members iv ct,
       atob value = Returned bin
       /\ JSON_parse bin = Returned (JObject members)
       /\ lookup_member members (js "iv") = Some (JString iv)
       /\ lookup_member members (js "ct") = Some (JString ct))
  /\ isEncryptedBundle (js "plain text") = false
  /\ (forall (H : Host) (x : jsstring) (key : CryptoKey) (g : Rng),
        exists e g',
          encryptWithKey x key g = (Returned e, g')
          /\ isEncryptedBundle e = true).
Proof.
  split; [|split].
  - intros value. unfold isEncryptedBundle. split.
    + destruct (atob value) as [bin|] eqn:Ea; cbn [bind try_catch]; [|discriminate].
      destruct (JSON_parse bin) as [parsed|] eqn:Ep; cbn [bind try_catch];
        [|discriminate].
      destruct parsed as [| b | l | s | elems | members];
        cbn [get_property bind typeof_string try_catch]; try discriminate.
      destruct (typeof_string (lookup_member members (js "iv"))) eqn:Eiv;
        cbn [bind try_catch]; [|discriminate].
      intros Ect.
      apply typeof_string_spec in Eiv as [iv Eiv].
      apply typeof_string_spec in Ect as [ct Ect].
      exists bin, members, iv, ct. repeat split; assumption.
    + intros (bin & members & iv & ct & Ea & Ep & Eiv & Ect).
      rewrite Ea. cbn [bind]. rewrite Ep. cbn [bind get_property].
      rewrite Eiv. cbn [typeof_string bind]. now rewrite Ect.
  - vm_compute. reflexivity.
  - intros H x key g. rewrite encryptWithKey_envelope.
    eexists. eexists. split; [reflexivity|]. apply isEncryptedBundle_envelope.
Qed.

(** C6 as stated asks for a decoded [iv] of exactly 12 bytes.  This value is
    classified as an envelope, and its [iv] decodes to no byte at all. *)
Lemma isEncryptedBundle_counterexample :
  let value := js "eyJpdiI6IiIsImN0IjoiIn0=" in
  isEncryptedBundle value = true
  /\ atob value = Returned (jsq "{'iv':'','ct':''}")
  /\ exists iv_bytes,
       (bin <- atob value ;;
        parsed <- JSON_parse bin ;;
        iv <- get_property parsed (js "iv") ;;
        match iv with
        | Some (JString iv64) => b642ab iv64
        | _ => Thrown TypeError
        end) = Returned iv_bytes
       /\ List.length iv_bytes <> 12%nat.
Proof.
  cbn zeta. split; [vm_compute; reflexivity|]. split; [vm_compute; reflexivity|].
  exists []. split; [vm_compute; reflexivity|discriminate].
Qed.

(** ** safeDecrypt *)

Section ReadPath.
Context {H : Host}.

(** C3: [safeDecrypt] is a total function to strings (nothing it calls can
    throw past it), and it returns the value itself when the value is not an
    envelope; the locked sentinel when it is one and there is no key; the
    wrong-key sentinel when it is one, there is a key and [decryptWithKey]
    throws; and what [decryptWithKey] returns otherwise. *)
Theorem safeDecrypt_cases (value : jsstring) (key : option CryptoKey) :
  (isEncryptedBundle value = false -> safeDecrypt value key = value)
  /\ (isEncryptedBundle value = true -> key = None ->
      safeDecrypt value key = LOCKED)
  /\ (forall k e, isEncryptedBundle value = true -> key = Some k ->
        decryptWithKey value k = Thrown e ->
        safeDecrypt value key = WRONG_KEY)
  /\ (forall k p, isEncryptedBundle value = true -> key = Some k ->
        decryptWithKey value k = Returned p ->
        safeDecrypt value key = p).
Proof.
  unfold safeDecrypt. repeat split.
  - intros ->. reflexivity.
  - intros -> ->. reflexivity.
  - intros k e -> -> Hd. cbn [negb]. now rewrite Hd.
  - intros k p -> -> Hd. cbn [negb]. now rewrite Hd.
Qed.

End ReadPath.

Lemma safeDecrypt_cases_witness :
  @safeDecrypt toy_host (js "hunter2") None = js "hunter2"
  /\ @safeDecrypt toy_host toy_envelope None = LOCKED
  /\ @safeDecrypt toy_host toy_envelope (Some toy_other_key) = WRONG_KEY
  /\ @safeDecrypt toy_host toy_envelope (Some toy_key) = js "hunter2".
Proof.
  split; [|split; [|split]].
  - apply (proj1 (@safeDecrypt_cases toy_host (js "hunter2") None)).
    vm_compute. reflexivity.
  - apply (proj1 (proj2 (@safeDecrypt_cases toy_host toy_envelope None)));
      vm_compute; reflexivity.
  - apply (proj1 (proj2 (proj2 (@safeDecrypt_cases toy_host toy_envelope
                                   (Some toy_other_key))))
             toy_other_key OperationError); vm_compute; reflexivity.
  - apply (proj2 (proj2 (proj2 (@safeDecrypt_cases toy_host toy_envelope
                                   (Some toy_key))))
             toy_key (js "hunter2")); vm_compute; reflexivity.
Defined.
(** ** The write path *)

Lemma with_password_same (p : Entry.t) :
  Entry.with_password p (Entry.password p) = p.
Proof. now destruct p. Qed.

Lemma jsstring_eqb_refl (a : jsstring) : jsstring_eqb a a = true.
Proof.
  induction a as [|x a IH]; [reflexivity|].
  cbn [jsstring_eqb]. now rewrite Z.eqb_refl, IH.
Qed.

Section WritePath.
Context {H : Host} {L : HostLaws H}.






(** C4, on the code: with no key published, the load shows an encrypted
    entry as the locked sentinel, and the persist effect that follows writes
    that sentinel over the stored envelope, so that a later load, whatever
    the key, shows the sentinel; on the remote path an update whose password
    is the sentinel writes it over the row's ciphertext. *)
Theorem sentinel_overwrites_ciphertext
  (p : Entry.t) (iv ct : bytes) (remote : list Entry.t) (g : Rng)
  (k : CryptoKey) (uid : jsstring) :
  (let w := mkStores (Some [Entry.with_password p (envelope iv ct)]) remote g in
   let w' := persist None (loadLocal None w initial_Passwords) w in
   stored_passwords w'
   = Some [Entry.with_password (Entry.with_storageType p LocalStorage) LOCKED]
   /\ localPasswords (loadLocal (Some k) w' initial_Passwords)
      = [Entry.with_password (Entry.with_storageType p LocalStorage) LOCKED])
  /\ (let row := Entry.with_password p (envelope iv ct) in
      let w := mkStores None [row] g in
      let st := mkPasswords [] [Entry.with_password p LOCKED] false true in
      let '(_, _, w') :=
        updatePassword (Some uid) (Some k) (Entry.id p) (password_only LOCKED) st w in
      remote_passwords w' = [Entry.with_password p LOCKED]).
Proof.
  split.
  - cbn zeta. unfold loadLocal, persist.
    cbn [stored_passwords map localLoaded negb localPasswords promise_all_map
         persist_entry bind rng remote_passwords Entry.password
         Entry.with_password Entry.with_storageType].
    unfold safeDecrypt. rewrite isEncryptedBundle_envelope.
    change (isEncryptedBundle LOCKED) with false.
    split; reflexivity.
  - cbn zeta. unfold updatePassword, find_id.
    cbn [cloudPasswords find Entry.id Entry.with_password].
    rewrite jsstring_eqb_refl.
    cbn [Partial.password password_only].
    change (truthy LOCKED && negb (startsWith LOCKED LOCK)) with false.
    cbn [remote_passwords remote_update map Entry.id Entry.with_password].
    rewrite jsstring_eqb_refl. destruct p. reflexivity.
Qed.

End WritePath.


(** ** Key derivation *)

(** C9, as amended: the three derivation call sites all use PBKDF2 with
    SHA-256, at least 100,000 iterations and a 256-bit AES-GCM key that
    cannot be extracted.  The vault path ([deriveAesKey], behind
    [setCloudKey] and [setLocalKey]) uses 200,000 iterations and the salt
    [securevault-v1-] followed by the scope label; the sharing path uses
    100,000 iterations and the salt its caller drew at random; the TOTP
    function uses 100,000 iterations and a fixed salt. *)
Theorem derivation_parameters
  (token scope userId masterPassword masterKey : jsstring) (salt : bytes) :
  let vault := deriveAesKey_call token scope in
  let share := passwordGenerator_deriveKey_call token salt in
  let totp := getEncryptionKey_call masterKey in
  Forall (fun c =>
            kdf_name (dk_algorithm c) = PBKDF2
            /\ ik_algorithm (dk_baseKey c) = PBKDF2
            /\ kdf_hash (dk_algorithm c) = SHA_256
            /\ 100000 <= kdf_iterations (dk_algorithm c)
            /\ dk_derived c = mkAesKeyGen AES_GCM 256
            /\ dk_extractable c = false)
         [vault; share; totp]
  /\ kdf_iterations (dk_algorithm vault) = PBKDF2_ITERATIONS
  /\ PBKDF2_ITERATIONS = 200000
  /\ kdf_salt (dk_algorithm vault) = TextEncoder_encode (APP_SALT_PREFIX ++ scope)
  /\ kdf_iterations (dk_algorithm share) = 100000
  /\ kdf_salt (dk_algorithm share) = salt
  /\ kdf_iterations (dk_algorithm totp) = 100000
  /\ kdf_salt (dk_algorithm totp)
     = TextEncoder_encode (js "totp-secret-encryption-salt-v1")
  /\ (forall (H : Host) (ks : KeyStore),
        cloudKey (globalState (setCloudKey userId ks))
        = Some (subtle_deriveKey
                  (deriveAesKey_call userId (js "cloud-" ++ userId)))
        /\ localKey (globalState (setLocalKey masterPassword userId ks))
           = Some (subtle_deriveKey
                     (deriveAesKey_call masterPassword (js "local-" ++ userId)))).
Proof.
  cbn zeta. split.
  - repeat constructor; cbn; lia || discriminate.
  - repeat split.
Qed.

(** C9 as stated wants one iteration count on every path and the salt made
    of the application prefix and a scope label.  The vault path and the
    sharing path differ in the count, and the sharing path's salt is whatever
    its caller passes. *)
Lemma derivation_parameters_counterexample :
  kdf_iterations (dk_algorithm (deriveAesKey_call (js "token") (js "local-user42")))
  = 200000
  /\ kdf_iterations
       (dk_algorithm (passwordGenerator_deriveKey_call (js "token") [x00; x01]))
     = 100000
  /\ kdf_salt (dk_algorithm (passwordGenerator_deriveKey_call (js "token") [x00; x01]))
     = [x00; x01]
  /\ [x00; x01] <> TextEncoder_encode (APP_SALT_PREFIX ++ js "local-user42").
Proof. repeat split. vm_compute. discriminate. Qed.

(** ** The lock state machine *)

Lemma idle_check (now : Z) (s : Security) :
  Qle_bool (inject_Z (autoLockTimeout s)) (idle_minutes now s)
  = (deadline s <=? now).
Proof.
  unfold idle_minutes, deadline, Qle_bool, Qdiv, Qmult, Qinv, inject_Z.
  cbn [Qnum Qden]. 
  destruct (Z.leb_spec (autoLockTimeout s * Z.pos (1 * 1000 * 60))
                       ((now - lastActivity s) * 1 * 1 * 1));
    destruct (Z.leb_spec (lastActivity s + autoLockTimeout s * 60000) now);
    try reflexivity; lia.
Qed.
Lemma autoLock_effect_matches (now : Z) (s : Security) :
  timer_matches (autoLock_effect now s).
Proof.
  unfold timer_matches, effect_returns_early, autoLock_effect, has_user.
  cbn [interval autoLockEnabled user isLocked].
  destruct (negb (autoLockEnabled s)
            || negb match user s with Some _ => true | None => false end
            || isLocked s); split; intros; reflexivity || discriminate.
Qed.

Lemma setIsLocked_matches (now : Z) (b : bool) (s : Security) :
  timer_matches s -> timer_matches (setIsLocked now b s).
Proof.
  intros Hs. unfold setIsLocked.
  destruct (Bool.eqb (isLocked s) b); [exact Hs|apply autoLock_effect_matches].
Qed.

Lemma settings_effect_matches (now : Z) (enabled : bool) (minutes : Z)
  (s : Security) :
  timer_matches s -> timer_matches (settings_effect now enabled minutes s).
Proof.
  intros Hs. unfold settings_effect.
  destruct (Bool.eqb (autoLockEnabled s) enabled && (autoLockTimeout s =? minutes));
    [exact Hs|apply autoLock_effect_matches].
Qed.

Lemma step_matches (s : Security) (e : Event) :
  timer_matches s -> timer_matches (step s e).
Proof.
  intros Hs. destruct e as [now | now | now | now | now b | now m | now b m | now u];
    cbn [step].
  - destruct (interval s); [|exact Hs]. unfold checkLock.
    destruct (Qle_bool _ _); [now apply setIsLocked_matches|exact Hs].
  - apply autoLock_effect_matches.
  - now apply setIsLocked_matches.
  - apply autoLock_effect_matches.
  - now apply settings_effect_matches.
  - now apply settings_effect_matches.
  - now apply settings_effect_matches.
  - destruct (option_jsstring_eqb (user s) u);
      [exact Hs|apply autoLock_effect_matches].
Qed.

Lemma reachable_timer_matches (s : Security) : reachable s -> timer_matches s.
Proof.
  induction 1 as [now u | s e _ IH].
  - apply autoLock_effect_matches.
  - now apply step_matches.
Qed.

Lemma run_ticks_no_timer (n : nat) (k t0 : Z) (s : Security) :
  interval s = None -> run_ticks n k t0 s = s.
Proof.
  revert k. induction n as [|n IH]; intros k Hi; [reflexivity|].
  cbn [run_ticks step]. rewrite Hi. now apply IH.
Qed.

Lemma tick_before_deadline (now : Z) (s : Security) :
  now < deadline s -> step s (Tick now) = s.
Proof.
  intros Hd. cbn [step]. destruct (interval s); [|reflexivity].
  unfold checkLock. rewrite idle_check.
  destruct (Z.leb_spec (deadline s) now); [lia|reflexivity].
Qed.

Lemma tick_after_deadline (now t0 : Z) (s : Security) :
  interval s = Some t0 -> isLocked s = false -> deadline s <= now ->
  step s (Tick now)
  = mkSecurity true (autoLockEnabled s) (autoLockTimeout s) (lastActivity s)
               (user s) None.
Proof.
  intros Hi Hl Hd. cbn [step]. rewrite Hi. unfold checkLock. rewrite idle_check.
  destruct (Z.leb_spec (deadline s) now); [|lia].
  unfold setIsLocked. rewrite Hl. cbn [Bool.eqb].
  unfold autoLock_effect. cbn [isLocked autoLockEnabled autoLockTimeout
                               lastActivity user].
  now rewrite orb_true_r.
Qed.

(** With nothing but the timer running, the state is locked once a firing
    falls on or after the deadline, and is untouched before. *)
Lemma run_ticks_before (n : nat) (k t0 : Z) (s : Security) :
  t0 + (k + Z.of_nat n - 1) * CHECK_PERIOD < deadline s ->
  run_ticks n k t0 s = s.
Proof.
  revert k. induction n as [|n IH]; intros k Hd; [reflexivity|].
  cbn [run_ticks]. unfold CHECK_PERIOD in *.
  rewrite tick_before_deadline by lia. apply IH. lia.
Qed.

Lemma run_ticks_after (n : nat) (k t0 : Z) (s : Security) :
  interval s = Some t0 -> isLocked s = false -> (0 < n)%nat ->
  deadline s <= t0 + (k + Z.of_nat n - 1) * CHECK_PERIOD ->
  isLocked (run_ticks n k t0 s) = true.
Proof.
  revert k. induction n as [|n IH]; intros k Hi Hl Hn Hd; [lia|].
  cbn [run_ticks]. unfold CHECK_PERIOD in *.
  destruct (Z.lt_ge_cases (t0 + k * 10000) (deadline s)) as [Hlt|Hge].
  - rewrite tick_before_deadline by exact Hlt.
    apply IH; try assumption; lia.
  - rewrite (tick_after_deadline _ t0) by assumption.
    now rewrite run_ticks_no_timer.
Qed.
Lemma elapse_before (t : Z) (s : Security) :
  t < deadline s -> elapse t s = s.
Proof.
  intros Hd. unfold elapse. destruct (interval s) as [t0|]; [|reflexivity].
  destruct (Z.to_nat ((t - t0) / CHECK_PERIOD)) as [|n] eqn:En; [reflexivity|].
  apply run_ticks_before. unfold CHECK_PERIOD in *.
  assert (0 < (t - t0) / 10000) by lia.
  assert (Z.of_nat (S n) = (t - t0) / 10000) by lia.
  dlia.
Qed.

(** Whatever the phase of the timer, a firing falls within one period after
    the deadline (or after the timer was set, if that was later). *)
Lemma elapse_locks (t t0 : Z) (s : Security) :
  interval s = Some t0 -> isLocked s = false ->
  deadline s + CHECK_PERIOD <= t -> t0 + CHECK_PERIOD <= t ->
  isLocked (elapse t s) = true.
Proof.
  intros Hi Hl Hd Ht. unfold elapse. rewrite Hi. unfold CHECK_PERIOD in *.
  assert (1 <= (t - t0) / 10000) by dlia.
  apply run_ticks_after; try assumption; [lia|].
  unfold CHECK_PERIOD. rewrite Z2Nat.id by lia. dlia.
Qed.

(** When the timer was set at the last activity, the firings fall on the
    deadline itself. *)
Lemma elapse_locks_on_time (t : Z) (s : Security) :
  interval s = Some (lastActivity s) -> isLocked s = false ->
  0 < autoLockTimeout s -> deadline s <= t ->
  isLocked (elapse t s) = true.
Proof.
  intros Hi Hl Hpos Hd. unfold elapse. rewrite Hi.
  unfold deadline, CHECK_PERIOD in *.
  assert (1 <= (t - lastActivity s) / 10000) by dlia.
  apply run_ticks_after; try assumption; [lia|].
  unfold deadline, CHECK_PERIOD. rewrite Z2Nat.id by lia. dlia.
Qed.

Lemma activity_arms (now : Z) (u : jsstring) (s : Security) :
  user s = Some u -> autoLockEnabled s = true -> isLocked s = false ->
  step s (Activity now)
  = mkSecurity false true (autoLockTimeout s) now (Some u) (Some now).
Proof.
  intros Hu He Hl. cbn [step]. unfold setLastActivity, autoLock_effect, has_user.
  cbn [isLocked autoLockEnabled autoLockTimeout lastActivity user].
  now rewrite Hu, He, Hl.
Qed.

(** C7, as amended: with a user signed in, auto-lock enabled, a timeout of
    5 minutes and the state unlocked, after an activity at [t0] and nothing
    but the timer since: the state is locked at every time from [t0] plus
    5 minutes on, and untouched at every time before; a check at or after
    that time locks, an earlier one does nothing; and after an activity at
    4 minutes 59 seconds the state is unlocked until 5 minutes after that
    activity.  (Whatever the phase of the timer, the lock comes within one
    check period of the deadline.) *)
Theorem auto_lock_after_timeout (s0 : Security) (t0 : Z) (u : jsstring) :
  user s0 = Some u ->
  autoLockEnabled s0 = true ->
  autoLockTimeout s0 = 5 ->
  isLocked s0 = false ->
  let s := step s0 (Activity t0) in
  (forall t, t0 + 300000 <= t -> isLocked (elapse t s) = true)
  /\ (forall t, t < t0 + 300000 -> elapse t s = s /\ isLocked (elapse t s) = false)
  /\ (forall now, t0 + 300000 <= now -> isLocked (step s (Tick now)) = true)
  /\ (forall now, now < t0 + 300000 -> step s (Tick now) = s)
  /\ (let s' := step (elapse (t0 + 299000) s) (Activity (t0 + 299000)) in
      isLocked s' = false
      /\ (forall t, t < t0 + 599000 -> isLocked (elapse t s') = false)
      /\ (forall t, t0 + 599000 <= t -> isLocked (elapse t s') = true))
  /\ (forall s1 t1 t,
        user s1 = Some u -> autoLockEnabled s1 = true ->
        autoLockTimeout s1 = 5 -> isLocked s1 = false ->
        interval s1 = Some t1 ->
        (t < lastActivity s1 + 300000 -> isLocked (elapse t s1) = false)
        /\ (lastActivity s1 + 310000 <= t -> t1 + 10000 <= t ->
            isLocked (elapse t s1) = true)).
Proof.
  intros Hu He Ht Hl. cbn zeta.
  rewrite (activity_arms t0 u s0 Hu He Hl). rewrite Ht.
  set (s := mkSecurity false true 5 t0 (Some u) (Some t0)).
  assert (Hd : deadline s = t0 + 300000) by (unfold deadline; cbn; lia).
  assert (Hb : forall t, t < t0 + 300000 -> elapse t s = s)
    by (intros t Hlt; apply elapse_before; lia).
  split; [|split; [|split; [|split; [|split]]]].
  - intros t Hge. apply elapse_locks_on_time; try reflexivity;
      unfold deadline, s; cbn [lastActivity autoLockTimeout]; lia.
  - intros t Hlt. rewrite (Hb t Hlt). now split.
  - intros now Hge.
    rewrite (tick_after_deadline now t0 s) by (try reflexivity; lia).
    reflexivity.
  - intros now Hlt. apply tick_before_deadline. lia.
  - rewrite (Hb (t0 + 299000)) by lia.
    rewrite (activity_arms (t0 + 299000) u s) by reflexivity.
    cbn [autoLockTimeout s].
    set (s' := mkSecurity false true 5 (t0 + 299000) (Some u) (Some (t0 + 299000))).
    split; [reflexivity|]. split.
    + intros t Hlt. rewrite elapse_before; [reflexivity|].
      unfold deadline, s'; cbn [lastActivity autoLockTimeout]; lia.
    + intros t Hge. apply elapse_locks_on_time; try reflexivity;
        unfold deadline, s'; cbn [lastActivity autoLockTimeout]; lia.
  - intros s1 t1 t Hu1 He1 Ht1 Hl1 Hi1. split.
    + intros Hlt. rewrite elapse_before; [exact Hl1|].
      unfold deadline. lia.
    + intros Hge Hge1. apply (elapse_locks t t1); try assumption;
        unfold deadline, CHECK_PERIOD; lia.
Qed.

Lemma auto_lock_after_timeout_witness :
  let s := step (initial_Security 0 (Some (js "user42"))) (Activity 1000) in
  isLocked (elapse 301000 s) = true
  /\ isLocked (elapse 300999 s) = false
  /\ (let s' := step (elapse 300000 s) (Activity 300000) in
      isLocked (elapse 301000 s') = false).
Proof.
  pose proof (auto_lock_after_timeout
                (initial_Security 0 (Some (js "user42"))) 1000 (js "user42")
                eq_refl eq_refl eq_refl eq_refl) as (H1 & H2 & _ & _ & H5 & _).
  cbn zeta in *. split; [|split].
  - apply H1. lia.
  - apply H2. lia.
  - apply H5. lia.
Defined.

(** C7 as stated does not ask for a signed-in user.  With none, with
    auto-lock enabled and a timeout of 5 minutes, ten idle minutes leave the
    state unlocked, after an activity event too. *)
Lemma auto_lock_counterexample :
  let s := initial_Security 0 None in
  autoLockEnabled s = true /\ autoLockTimeout s = 5 /\ isLocked s = false
  /\ isLocked (elapse 600000 s) = false
  /\ isLocked (elapse 600000 (step s (Activity 0))) = false.
Proof. vm_compute. repeat split. Qed.

(** C10: in every reachable state the interval exists only when auto-lock
    is enabled, a user is signed in and the state is unlocked; so with no
    user signed in, whatever the idle time, no firing of the timer and no
    lapse of time changes the state: the idle check locks nothing. *)
Theorem no_auto_lock_without_user (s : Security) :
  reachable s ->
  user s = None ->
  interval s = None
  /\ (forall now, step s (Tick now) = s)
  /\ (forall t, elapse t s = s)
  /\ (forall s', reachable s' ->
        (autoLockEnabled s' = false \/ isLocked s' = true \/ user s' = None) ->
        interval s' = None).
Proof.
  intros Hr Hu.
  assert (Hinv : forall s', reachable s' ->
            (autoLockEnabled s' = false \/ isLocked s' = true \/ user s' = None) ->
            interval s' = None).
  { intros s' Hr' Hg. apply (reachable_timer_matches s' Hr').
    unfold effect_returns_early, has_user.
    destruct Hg as [-> | [-> | ->]]; cbn [negb orb];
      now rewrite ?orb_true_r. }
  assert (Hi : interval s = None) by (apply Hinv; auto).
  repeat split.
  - exact Hi.
  - intros now. cbn [step]. now rewrite Hi.
  - intros t. unfold elapse. now rewrite Hi.
  - exact Hinv.
Qed.

Lemma no_auto_lock_without_user_witness :
  let s := step (step (initial_Security 0 (Some (js "user42")))
                      (UserChanged 5000 None))
                (Activity 9000) in
  interval s = None
  /\ step s (Tick 3600000) = s
  /\ elapse 3600000 s = s.
Proof.
  cbn zeta.
  pose proof (no_auto_lock_without_user
                (step (step (initial_Security 0 (Some (js "user42")))
                            (UserChanged 5000 None))
                      (Activity 9000))
                (reachable_step _ _ (reachable_step _ _ (reachable_initial _ _)))
                eq_refl) as (H1 & H2 & H3 & _).
  split; [exact H1|]. split; [apply H2|apply H3].
Defined.
(** ** Re-deriving a key *)

Section Derivation.
Context {H : Host} {L : HostLaws H}.

Lemma setLocalKey_publishes (pass uid : jsstring) (ks : KeyStore) :
  localKey (globalState (setLocalKey pass uid ks))
  = Some (deriveAesKey pass (js "local-" ++ uid))
  /\ Forall (fun st => st = globalState (setLocalKey pass uid ks))
            (setters (setLocalKey pass uid ks)).
Proof.
  split; [reflexivity|].
  unfold setLocalKey, notifySetters. cbn [setters globalState].
  induction (setters ks); constructor; auto.
Qed.

Lemma clearKeys_empties (ks : KeyStore) :
  globalState (clearKeys ks) = mkVaultKeyState None None
  /\ Forall (fun st => st = mkVaultKeyState None None) (setters (clearKeys ks))
  /\ isLocalUnlocked (clearKeys ks) = false.
Proof.
  repeat split. unfold clearKeys, notifySetters. cbn [setters globalState].
  induction (setters ks); constructor; auto.
Qed.

(** C8, as amended: two derivations from the same passphrase and scope
    publish the same key, to the store and to every subscriber, so each
    decrypts any bundle as the other does; and for a plaintext that is well
    formed and does not begin with U+FEFF: encrypted under the local key, it
    reads as the locked sentinel once the store is cleared, and as itself
    again once the key is derived again from the same inputs. *)
Theorem rederived_key_decrypts (pass uid p : jsstring) (ks : KeyStore) (g : Rng) :
  isWellFormed p = true ->
  startsWith p [BOM] = false ->
  let ks1 := setLocalKey pass uid ks in
  let ks2 := clearKeys ks1 in
  let ks3 := setLocalKey pass uid ks2 in
  exists k e g',
    localKey (globalState ks1) = Some k
    /\ encryptWithKey p k g = (Returned e, g')
    /\ localKey (globalState ks2) = None
    /\ safeDecrypt e (localKey (globalState ks2)) = LOCKED
    /\ localKey (globalState ks3) = Some k
    /\ Forall (fun st => localKey st = Some k) (setters ks3)
    /\ safeDecrypt e (localKey (globalState ks3)) = p
    /\ (forall bundle k',
          localKey (globalState ks3) = Some k' ->
          decryptWithKey bundle k' = decryptWithKey bundle k).
Proof.
  intros Hwf Hbom. cbn zeta.
  destruct (decryptWithKey_encryptWithKey p
              (deriveAesKey pass (js "local-" ++ uid)) g) as (e & g' & He & Hd).
  rewrite (TextDecoder_TextEncoder_id p Hwf Hbom) in Hd.
  exists (deriveAesKey pass (js "local-" ++ uid)), e, g'.
  assert (Hb : isEncryptedBundle e = true).
  { rewrite encryptWithKey_envelope in He. inversion He.
    apply isEncryptedBundle_envelope. }
  split; [reflexivity|]. split; [exact He|]. split; [reflexivity|].
  split; [unfold safeDecrypt; now rewrite Hb|].
  split; [reflexivity|]. split.
  - destruct (setLocalKey_publishes pass uid (clearKeys (setLocalKey pass uid ks)))
      as [_ Hall].
    eapply Forall_impl; [|exact Hall]. intros st ->. reflexivity.
  - split.
    + unfold safeDecrypt. rewrite Hb. cbn [negb].
      change (localKey (globalState
                (setLocalKey pass uid (clearKeys (setLocalKey pass uid ks)))))
        with (Some (deriveAesKey pass (js "local-" ++ uid))).
      cbn iota. now rewrite Hd.
    + intros bundle k' Hk. inversion Hk. reflexivity.
Qed.

End Derivation.

Lemma rederived_key_decrypts_witness :
  let ks1 := @setLocalKey toy_host (js "correct-horse-battery") (js "user42")
               (useVaultKey_mount initial_KeyStore) in
  let ks2 := clearKeys ks1 in
  let ks3 := setLocalKey (js "correct-horse-battery") (js "user42") ks2 in
  exists k e g',
    localKey (globalState ks1) = Some k
    /\ encryptWithKey (js "hunter2") k 0%nat = (Returned e, g')
    /\ localKey (globalState ks2) = None
    /\ safeDecrypt e (localKey (globalState ks2)) = LOCKED
    /\ localKey (globalState ks3) = Some k
    /\ Forall (fun st => localKey st = Some k) (setters ks3)
    /\ safeDecrypt e (localKey (globalState ks3)) = js "hunter2"
    /\ (forall bundle k',
          localKey (globalState ks3) = Some k' ->
          decryptWithKey bundle k' = decryptWithKey bundle k).
Proof.
  apply (@rederived_key_decrypts toy_host toy_host_laws
           (js "correct-horse-battery") (js "user42") (js "hunter2")
           (useVaultKey_mount initial_KeyStore) 0%nat); reflexivity.
Defined.

(** C8 as stated returns every plaintext after the key is derived again.  A
    plaintext that begins with U+FEFF comes back without it. *)
Lemma rederived_key_counterexample :
  let p := BOM :: js "hunter2" in
  let ks1 := @setLocalKey toy_host (js "correct-horse-battery") (js "user42")
               initial_KeyStore in
  let ks3 := setLocalKey (js "correct-horse-battery") (js "user42")
               (clearKeys ks1) in
  exists k e g',
    localKey (globalState ks1) = Some k
    /\ encryptWithKey p k 0%nat = (Returned e, g')
    /\ safeDecrypt e (localKey (globalState ks3)) = js "hunter2"
    /\ js "hunter2" <> p.
Proof.
  cbn zeta. eexists. eexists. eexists.
  split; [reflexivity|]. split; [vm_compute; reflexivity|].
  split; [vm_compute; reflexivity|discriminate].
Qed.
(** ** panic *)

Section PanicProperties.
Context {H : Host}.

Lemma setIsLocked_true (now : Z) (s : Security) :
  isLocked (setIsLocked now true s) = true
  /\ user (setIsLocked now true s) = user s.
Proof.
  unfold setIsLocked. destruct (isLocked s) eqn:E; cbn [Bool.eqb]; auto.
Qed.

Lemma signed_out (now : Z) (s : Security) :
  user (step s (UserChanged now None)) = None
  /\ isLocked (step s (UserChanged now None)) = isLocked s.
Proof.
  cbn [step]. destruct (user s) eqn:E; cbn [option_jsstring_eqb]; auto.
Qed.

(** C2, as amended.  [panic] runs its steps in order and stops at the first
    one that throws; it never touches the key store.  It always leaves the
    state locked.  When no step throws it has also erased the stored
    entries, ended the session and asked for the reload (and emptied the
    clipboard when that API works); the keys go only with the reload, which
    starts the page again, unlocked and with an empty key store.  When
    [removeItem] throws, the session is not ended and no reload is asked
    for; when sign-out rejects, no reload is asked for. *)
Theorem panic_steps (env : Environment) (now : Z) (pg : Page) :
  isLocked (security (snd (panic env now pg))) = true
  /\ keyStore (snd (panic env now pg)) = keyStore pg
  /\ (env_clipboard env <> ClipboardThrows ->
      env_storage_denied env = false ->
      env_signOut_rejects env = false ->
      fst (panic env now pg) = Returned tt
      /\ page_stored_passwords (snd (panic env now pg)) = None
      /\ user (security (snd (panic env now pg))) = None
      /\ reload_requested (snd (panic env now pg)) = true
      /\ (env_clipboard env = ClipboardResolves ->
          clipboard (snd (panic env now pg)) = [])
      /\ (forall now',
            globalState (keyStore (reloaded now' (snd (panic env now pg))))
            = mkVaultKeyState None None
            /\ isLocked (security (reloaded now' (snd (panic env now pg)))) = false))
  /\ (env_clipboard env = ClipboardThrows ->
      fst (panic env now pg) = Thrown TypeError
      /\ page_stored_passwords (snd (panic env now pg)) = page_stored_passwords pg
      /\ user (security (snd (panic env now pg))) = user (security pg)
      /\ reload_requested (snd (panic env now pg)) = reload_requested pg)
  /\ (env_clipboard env <> ClipboardThrows ->
      env_storage_denied env = true ->
      fst (panic env now pg) = Thrown SecurityError
      /\ page_stored_passwords (snd (panic env now pg)) = page_stored_passwords pg
      /\ user (security (snd (panic env now pg))) = user (security pg)
      /\ reload_requested (snd (panic env now pg)) = reload_requested pg)
  /\ (env_clipboard env <> ClipboardThrows ->
      env_storage_denied env = false ->
      env_signOut_rejects env = true ->
      fst (panic env now pg) = Thrown AuthError
      /\ page_stored_passwords (snd (panic env now pg)) = None
      /\ user (security (snd (panic env now pg))) = user (security pg)
      /\ reload_requested (snd (panic env now pg)) = reload_requested pg).
Proof.
  destruct (setIsLocked_true now (security pg)) as [Hlock Huser].
  destruct (signed_out now (setIsLocked now true (security pg))) as [Hout Hkeep].
  unfold panic, and_then, panic_setIsLocked, clipboard_writeText,
    localStorage_removeItem, signOut, location_reload.
  destruct env as [cb denied rejects]. cbn [env_clipboard env_storage_denied
                                             env_signOut_rejects].
  destruct cb, denied, rejects;
    cbn [fst snd security keyStore page_stored_passwords clipboard
         reload_requested reloaded globalState initial_Security autoLock_effect
         isLocked];
    rewrite ?Hkeep, ?Hout, ?Hlock, ?Huser;
    repeat split; intros; try reflexivity; try discriminate; try contradiction.
Qed.

End PanicProperties.

Lemma panic_steps_witness :
  let env := mkEnvironment ClipboardResolves false false in
  fst (panic env 5000 toy_page) = Returned tt
  /\ isLocked (security (snd (panic env 5000 toy_page))) = true
  /\ page_stored_passwords (snd (panic env 5000 toy_page)) = None
  /\ user (security (snd (panic env 5000 toy_page))) = None
  /\ reload_requested (snd (panic env 5000 toy_page)) = true.
Proof.
  cbn zeta.
  pose proof (@panic_steps toy_host (mkEnvironment ClipboardResolves false false)
                5000 toy_page) as (H1 & _ & H3 & _).
  destruct H3 as (R & S & U & Q & _); [discriminate|reflexivity|reflexivity|].
  repeat split; assumption.
Defined.

(** C2 as stated has every step attempted whatever fails, and the key store
    emptied.  When storage access is denied the session is not ended; when
    sign-out rejects the page is not reloaded; and in both cases, as in the
    run where nothing fails, the local key is still in the store when
    [panic] is over. *)
Lemma panic_counterexample :
  let denied := mkEnvironment ClipboardResolves true false in
  let rejects := mkEnvironment ClipboardResolves false true in
  let fine := mkEnvironment ClipboardResolves false false in
  (fst (panic denied 5000 toy_page) = Thrown SecurityError
   /\ user (security (snd (panic denied 5000 toy_page))) = Some (js "user42")
   /\ page_stored_passwords (snd (panic denied 5000 toy_page))
      = Some [toy_entry toy_envelope])
  /\ (fst (panic rejects 5000 toy_page) = Thrown AuthError
      /\ user (security (snd (panic rejects 5000 toy_page))) = Some (js "user42")
      /\ reload_requested (snd (panic rejects 5000 toy_page)) = false
      /\ localKey (globalState (keyStore (snd (panic rejects 5000 toy_page))))
         = Some toy_key)
  /\ localKey (globalState (keyStore (snd (panic fine 5000 toy_page))))
     = Some toy_key.
Proof. vm_compute. repeat split. Qed.
(** ** Further properties of the code *)

Section Further.
Context {H : Host}.

(** X1: [encryptWithKey] never throws; each call takes the next 12 bytes of
    the random source as its nonce, so two calls in a row use two adjacent
    windows of the stream that do not overlap. *)
Theorem encryptWithKey_fresh_nonce (p1 p2 : jsstring) (k : CryptoKey) (g : Rng) :
  let iv1 := map entropy (seq g 12) in
  let iv2 := map entropy (seq (g + 12) 12) in
  encryptWithKey p1 k g
  = (Returned (envelope iv1 (aes_gcm_encrypt k iv1 (TextEncoder_encode p1))),
     (g + 12)%nat)
  /\ encryptWithKey p2 k (g + 12)%nat
     = (Returned (envelope iv2 (aes_gcm_encrypt k iv2 (TextEncoder_encode p2))),
        (g + 24)%nat)
  /\ List.length iv1 = 12%nat /\ List.length iv2 = 12%nat
  /\ (forall i j, In i (seq g 12) -> In j (seq (g + 12) 12) -> i <> j).
Proof.
  cbn zeta. rewrite !encryptWithKey_envelope.
  replace (g + 12 + 12)%nat with (g + 24)%nat by lia.
  repeat split; try (now rewrite length_map, length_seq).
  intros i j Hi Hj. apply in_seq in Hi, Hj. lia.
Qed.

Lemma envelope_head (iv ct : bytes) :
  exists rest, envelope iv ct = 101 :: 121 :: 74 :: 112 :: rest.
Proof.
  destruct (envelope_parts iv ct) as [Hiv Hct].
  unfold envelope. rewrite packed_text by assumption.
  eexists. reflexivity.
Qed.

(** X2: in the earlier revision of the hook, [persist] has no test for a
    value that is an envelope already: with a key, such a value is encrypted
    again, and what is stored is an envelope of the envelope. *)
Theorem persist_rev0_encrypts_again
  (k : CryptoKey) (p : Entry.t) (iv ct : bytes) (g : Rng) :
  let e := envelope iv ct in
  let iv' := map entropy (seq g 12) in
  persist_entry_rev0 (Some k) (Entry.with_password p e) g
  = (Returned (Entry.with_password p
                 (envelope iv' (aes_gcm_encrypt k iv' (TextEncoder_encode e)))),
     (g + 12)%nat).
Proof.
  cbn zeta. unfold persist_entry_rev0.
  cbn [Entry.password Entry.with_password].
  destruct (envelope_head iv ct) as [rest Hrest]. rewrite Hrest at 1 2.
  change (truthy (101 :: 121 :: 74 :: 112 :: rest)
          && negb (startsWith (101 :: 121 :: 74 :: 112 :: rest) LOCK))
    with true.
  cbn iota. rewrite encryptWithKey_envelope. cbn [bind].
  now destruct p.
Qed.

End Further.

(** ** What changes the lock state *)









(** X5: [unlock] starts a full idle period.  With a user signed in,
    auto-lock enabled and a timeout of [m > 0] minutes, after [unlock] at a
    time [t0] the state is unlocked, and with nothing but the timer running
    it stays untouched at every time before [t0 + m] minutes and is locked
    at every time from then on, whatever the last activity before the lock
    was. *)
Theorem unlock_restarts_idle_period (s : Security) (t0 t : Z) (u : jsstring) :
  isLocked s = true ->
  user s = Some u ->
  autoLockEnabled s = true ->
  0 < autoLockTimeout s ->
  let s' := step s (DoUnlock t0) in
  s' = mkSecurity false true (autoLockTimeout s) t0 (Some u) (Some t0)
  /\ (t < t0 + autoLockTimeout s * 60000 -> elapse t s' = s')
  /\ (t0 + autoLockTimeout s * 60000 <= t -> isLocked (elapse t s') = true).
Proof.
  intros Hl Hu He Hm s'.
  assert (Hs' : s' = mkSecurity false true (autoLockTimeout s) t0 (Some u) (Some t0)).
  { unfold s'. cbn [step]. unfold setIsLocked. rewrite Hl. cbn [Bool.eqb].
    unfold setLastActivity, autoLock_effect, has_user.
    cbn [isLocked autoLockEnabled autoLockTimeout lastActivity user].
    now rewrite Hu, He. }
  split; [exact Hs'|]. rewrite Hs'. split; intros Ht.
  - apply elapse_before. unfold deadline. cbn [lastActivity autoLockTimeout]. lia.
  - apply elapse_locks_on_time; cbn [interval lastActivity isLocked autoLockTimeout];
      try reflexivity; assumption.
Qed.

Lemma unlock_restarts_idle_period_witness :
  let s := step (initial_Security 0 (Some (js "user42"))) (DoLock 1000) in
  let s' := step s (DoUnlock 2000) in
  s' = mkSecurity false true (autoLockTimeout s) 2000 (Some (js "user42"))
                  (Some 2000)
  /\ (302000 < 2000 + autoLockTimeout s * 60000 -> elapse 302000 s' = s')
  /\ (2000 + autoLockTimeout s * 60000 <= 302000
      -> isLocked (elapse 302000 s') = true).
Proof.
  apply (unlock_restarts_idle_period
           (step (initial_Security 0 (Some (js "user42"))) (DoLock 1000))
           2000 302000 (js "user42")); reflexivity.
Defined.

(** ** The key store over the life of a page *)

Section KeyStoreLife.
Context {H : Host}.

Lemma notifySetters_in_sync (g : VaultKeyState) (l : list VaultKeyState)
  (m : option jsstring) :
  Forall (fun st => st = g) (setters (notifySetters (mkKeyStore g l m))).
Proof.
  unfold notifySetters. cbn [setters globalState].
  induction l; constructor; auto.
Qed.

Lemma run_op_in_sync (ks : KeyStore) (op : KeyStoreOp) :
  in_sync ks -> in_sync (run_op ks op).
Proof.
  intros [Hs Hm]. destruct op as [|uid|pw uid|]; cbn [run_op].
  - split.
    + unfold useVaultKey_mount. cbn [setters globalState].
      apply Forall_app. split; [exact Hs|]. now constructor.
    + exact Hm.
  - split.
    + apply notifySetters_in_sync.
    + exact Hm.
  - split.
    + apply notifySetters_in_sync.
    + intros _. reflexivity.
  - split.
    + apply notifySetters_in_sync.
    + intros Hk. now contradiction Hk.
Qed.

(** X6: whatever the components do with the key store (mount the hook, set
    the cloud key, set the local key, clear the keys, in any order and any
    number of times), the state of every mounted hook instance is the
    store's current state, so no component works with a stale key; and
    while a local key is held the session marker is set. *)
Theorem key_store_in_sync (ops : list KeyStoreOp) :
  let ks := fold_left run_op ops initial_KeyStore in
  Forall (fun st => st = globalState ks) (setters ks)
  /\ (localKey (globalState ks) <> None -> isLocalUnlocked ks = true).
Proof.
  cbn zeta. change (in_sync (fold_left run_op ops initial_KeyStore)).
  assert (Hi : in_sync initial_KeyStore).
  { split; [constructor|]. intros Hk. now contradiction Hk. }
  revert Hi. generalize initial_KeyStore.
  induction ops as [|op ops IH]; intros ks Hks; [exact Hks|].
  cbn [fold_left]. apply IH. now apply run_op_in_sync.
Qed.

(** X7: the marker does not imply the key.  After the master password was
    entered and the page is loaded again in the same tab, the session
    marker is still set while the key store is empty: the master-password
    dialog stays hidden, and the load shows every stored envelope as
    locked (a stored value that is not an envelope is shown as it is). *)
Theorem reload_leaves_vault_locked
  (now : Z) (pw : jsstring) (ix : IndexPage) (l remote : list Entry.t)
  (g : Rng) (st : Passwords) :
  page_stored_passwords (index_page ix) = Some l ->
  let ix' := Index_reloaded now (handleMasterPasswordSubmit pw ix) in
  let key := localKey (globalState (keyStore (index_page ix'))) in
  masterPwMode ix' = PwHidden
  /\ isLocalUnlocked (keyStore (index_page ix')) = true
  /\ key = None
  /\ localPasswords
       (loadLocal key
          (mkStores (page_stored_passwords (index_page ix')) remote g) st)
     = map (fun p =>
              Entry.with_password (Entry.with_storageType p LocalStorage)
                (if isEncryptedBundle (Entry.password p) then LOCKED
                 else Entry.password p))
           l.
Proof.
  intros Hl. cbn zeta.
  unfold Index_reloaded, handleMasterPasswordSubmit, Index_mount, reloaded.
  cbn [index_page page_stored_passwords keyStore local_vault_setup_done
       securevault_welcome_seen masterPwMode].
  rewrite Hl. unfold setLocalKey, isLocalUnlocked.
  cbn [local_vault_unlocked globalState setters].
  change (jsstring_eqb (js "1") (js "1")) with true. cbn [negb].
  cbn [index_page page_stored_passwords keyStore masterPwMode globalState
       localKey local_vault_unlocked].
  repeat split.
  unfold loadLocal. cbn [stored_passwords localPasswords].
  apply map_ext. intros p. unfold safeDecrypt.
  now destruct (isEncryptedBundle (Entry.password p)).
Qed.

End KeyStoreLife.

Lemma reload_leaves_vault_locked_witness :
  let ix := mkIndexPage toy_page None None PwHidden in
  let ix' := Index_reloaded 9000 (handleMasterPasswordSubmit (js "correct-horse-battery") ix) in
  let key := localKey (globalState (keyStore (index_page ix'))) in
  masterPwMode ix' = PwHidden
  /\ isLocalUnlocked (keyStore (index_page ix')) = true
  /\ key = None
  /\ localPasswords
       (loadLocal key
          (mkStores (page_stored_passwords (index_page ix')) [] 0%nat)
          initial_Passwords)
     = map (fun p =>
              Entry.with_password (Entry.with_storageType p LocalStorage)
                (if isEncryptedBundle (Entry.password p) then LOCKED
                 else Entry.password p))
           [toy_entry toy_envelope].
Proof.
  apply (@reload_leaves_vault_locked toy_host 9000 (js "correct-horse-battery")
           (mkIndexPage toy_page None None PwHidden)
           [toy_entry toy_envelope] [] 0%nat initial_Passwords).
  reflexivity.
Defined.

(** ** The local vault: save, then load *)

Section LocalVault.
Context {H : Host} {L : HostLaws H}.

Lemma safeDecrypt_envelope (k : CryptoKey) (iv pt : bytes) :
  List.length iv = 12%nat ->
  safeDecrypt (envelope iv (aes_gcm_encrypt k iv pt)) (Some k)
  = TextDecoder_decode pt.
Proof.
  intros Hiv. unfold safeDecrypt.
  rewrite isEncryptedBundle_envelope. cbn [negb].
  rewrite decryptWithKey_envelope, aes_gcm_correct by assumption.
  reflexivity.
Qed.

(** One entry through [persist_entry]: what is stored is sealed, and
    [safeDecrypt] gives the password back. *)
Lemma persist_entry_roundtrip (k : CryptoKey) (p : Entry.t) (g : Rng) :
  plain_password (Entry.password p) ->
  exists q g',
    persist_entry (Some k) p g = (Returned q, g')
    /\ sealed (Entry.password q)
    /\ Entry.with_password q (safeDecrypt (Entry.password q) (Some k)) = p.
Proof.
  intros (Hwf & Hbom & Hne). unfold persist_entry. rewrite Hne. cbn [negb].
  rewrite andb_true_r.
  destruct (Entry.password p) as [|c pw] eqn:Epw.
  - cbn [truthy andb]. exists (Entry.with_password p []), g.
    split; [reflexivity|]. cbn [Entry.password Entry.with_password].
    split; [right; left; reflexivity|].
    unfold safeDecrypt.
    change (isEncryptedBundle []) with false. cbn [negb].
    rewrite <- Epw. now destruct p.
  - cbn [truthy andb]. destruct (startsWith (c :: pw) LOCK) eqn:Hs; cbn [negb].
    + exists (Entry.with_password p (c :: pw)), g.
      split; [reflexivity|]. cbn [Entry.password Entry.with_password].
      split; [right; right; exact Hs|].
      unfold safeDecrypt. rewrite Hne. cbn [negb].
      rewrite <- Epw. now destruct p.
    + rewrite encryptWithKey_envelope. cbn [bind].
      eexists. eexists. split; [reflexivity|].
      cbn [Entry.password Entry.with_password].
      split; [left; apply isEncryptedBundle_envelope|].
      rewrite safeDecrypt_envelope by (now rewrite length_map, length_seq).
      rewrite TextDecoder_TextEncoder_id by assumption.
      rewrite <- Epw. now destruct p.
Qed.

Lemma persist_all_roundtrip (k : CryptoKey) (l : list Entry.t) (g : Rng) :
  Forall (fun p => plain_password (Entry.password p)) l ->
  exists stored g',
    promise_all_map (persist_entry (Some k)) l g = (Returned stored, g')
    /\ Forall (fun q => sealed (Entry.password q)) stored
    /\ map (fun q => Entry.with_password q (safeDecrypt (Entry.password q) (Some k)))
           stored = l.
Proof.
  intros Hl. revert g. induction Hl as [|p l Hp _ IH]; intros g.
  - exists [], g. repeat split. constructor.
  - cbn [promise_all_map].
    destruct (persist_entry_roundtrip k p g Hp) as (q & g1 & Eq & Hq & Hback).
    rewrite Eq.
    destruct (IH g1) as (stored & g2 & Es & Hs & Hmap). rewrite Es.
    cbn [bind]. exists (q :: stored), g2. split; [reflexivity|].
    split; [now constructor|]. cbn [map]. now rewrite Hback, Hmap.
Qed.

(** X8: the local vault gives back what was saved.  With a local key, when
    the persist effect has saved a list of entries whose passwords are plain
    (well formed, not beginning with U+FEFF, not shaped like an envelope),
    every password in storage is sealed (an envelope, or the empty string, or
    a value beginning with the lock emoji: nothing else is stored in clear),
    and a load under the same key gives the saved list back, every entry
    marked as local. *)
Theorem local_vault_roundtrip (k : CryptoKey) (st st' : Passwords) (w : Stores) :
  localLoaded st = true ->
  Forall (fun p => plain_password (Entry.password p)) (localPasswords st) ->
  exists stored,
    stored_passwords (persist (Some k) st w) = Some stored
    /\ Forall (fun q => sealed (Entry.password q)) stored
    /\ localPasswords (loadLocal (Some k) (persist (Some k) st w) st')
       = map (fun p => Entry.with_storageType p LocalStorage) (localPasswords st).
Proof.
  intros Hloaded Hl. unfold persist. rewrite Hloaded. cbn [negb].
  destruct (persist_all_roundtrip k (localPasswords st) (rng w) Hl)
    as (stored & g' & Es & Hs & Hmap).
  rewrite Es. exists stored. cbn [stored_passwords].
  split; [reflexivity|]. split; [exact Hs|].
  unfold loadLocal. cbn [stored_passwords localPasswords].
  rewrite <- Hmap. rewrite map_map. apply map_ext. intros q.
  now destruct q.
Qed.

End LocalVault.

Lemma local_vault_roundtrip_witness :
  let st := mkPasswords [toy_entry (js "hunter2"); toy_entry []] [] false true in
  let w := @mkStores None [] 0%nat in
  exists stored,
    stored_passwords (@persist toy_host (Some toy_key) st w) = Some stored
    /\ Forall (fun q => sealed (Entry.password q)) stored
    /\ localPasswords
         (@loadLocal toy_host (Some toy_key)
            (@persist toy_host (Some toy_key) st w) initial_Passwords)
       = map (fun p => Entry.with_storageType p LocalStorage) (localPasswords st).
Proof.
  apply (@local_vault_roundtrip toy_host toy_host_laws toy_key
           (mkPasswords [toy_entry (js "hunter2"); toy_entry []] [] false true)
           initial_Passwords (@mkStores None [] 0%nat)).
  - reflexivity.
  - repeat constructor; vm_compute; reflexivity.
Defined.

Section WithoutKey.
Context {H : Host}.

Lemma persist_all_without_key (l : list Entry.t) (g : Rng) :
  promise_all_map (persist_entry None) l g = (Returned l, g).
Proof.
  induction l as [|p l IH]; [reflexivity|].
  cbn [promise_all_map]. unfold persist_entry at 1. rewrite IH. cbn [bind].
  now rewrite with_password_same.
Qed.

Lemma persist_without_key (st : Passwords) (w : Stores) :
  localLoaded st = true ->
  persist None st w
  = mkStores (Some (localPasswords st)) (remote_passwords w) (rng w).
Proof.
  intros Hl. unfold persist. rewrite Hl. cbn [negb].
  now rewrite persist_all_without_key.
Qed.

(** X9: with no local key the persist effect encrypts nothing: once the
    first load is done, every save replaces the stored list by the list as
    it is in memory, passwords in clear, and draws no randomness; a load
    with no key then gives the same passwords back, except those that are
    shaped like an envelope, which are shown as locked. *)
Theorem persist_without_key_stores_plaintext (st st' : Passwords) (w : Stores) :
  localLoaded st = true ->
  persist None st w
  = mkStores (Some (localPasswords st)) (remote_passwords w) (rng w)
  /\ map Entry.password (localPasswords (loadLocal None (persist None st w) st'))
     = map (fun p => if isEncryptedBundle (Entry.password p) then LOCKED
                     else Entry.password p)
           (localPasswords st).
Proof.
  intros Hl. rewrite persist_without_key by exact Hl. split; [reflexivity|].
  unfold loadLocal. cbn [stored_passwords localPasswords]. rewrite map_map.
  apply map_ext. intros p. cbn [Entry.password Entry.with_password].
  unfold safeDecrypt. now destruct (isEncryptedBundle (Entry.password p)).
Qed.

(** X10: an entry asked to be stored in the cloud is stored locally, with
    no error, when nobody is signed in, when there is no cloud key, or when
    the remote insert fails: it is put first in the local list with the id
    of [randomUUID] and its password as typed, and the remote table is left
    as it was.  With no local key, the next save writes that password in
    clear to local storage. *)
Theorem addPassword_falls_back_to_local
  (user : option jsstring) (key : option CryptoKey) (entry : Draft.t)
  (response : InsertResponse) (uuid : jsstring) (now : Z)
  (st : Passwords) (w : Stores) :
  Draft.storageType entry = Some CloudStorage ->
  user = None \/ key = None \/ response = InsertFailed ->
  localLoaded st = true ->
  let newEntry := Draft.entry entry uuid now LocalStorage in
  let '(r, st', w') := addPassword user key entry response uuid now st w in
  r = Returned newEntry
  /\ localPasswords st' = newEntry :: localPasswords st
  /\ cloudPasswords st' = cloudPasswords st
  /\ remote_passwords w' = remote_passwords w
  /\ stored_passwords (persist None st' w')
     = Some (newEntry :: localPasswords st).
Proof.
  intros Hs Hwhy Hl. cbn zeta. unfold addPassword. rewrite Hs.
  assert (Hlocal : forall w0,
    remote_passwords w0 = remote_passwords w ->
    let '(r, st', w') :=
      (Returned (Draft.entry entry uuid now LocalStorage),
       mkPasswords (Draft.entry entry uuid now LocalStorage :: localPasswords st)
                   (cloudPasswords st) (isLoading st) (localLoaded st), w0) in
    r = Returned (Draft.entry entry uuid now LocalStorage)
    /\ localPasswords st' = Draft.entry entry uuid now LocalStorage :: localPasswords st
    /\ cloudPasswords st' = cloudPasswords st
    /\ remote_passwords w' = remote_passwords w
    /\ stored_passwords (persist None st' w')
       = Some (Draft.entry entry uuid now LocalStorage :: localPasswords st)).
  { intros w0 Hw0. repeat split; [exact Hw0|].
    rewrite persist_without_key by exact Hl. reflexivity. }
  destruct user as [u|]; [|now apply Hlocal].
  destruct key as [k|]; [|now apply Hlocal].
  destruct Hwhy as [Hu|[Hk|Hr]]; try discriminate.
  rewrite encryptWithKey_envelope, Hr. now apply Hlocal.
Qed.

End WithoutKey.

Lemma persist_without_key_stores_plaintext_witness :
  let st := mkPasswords [toy_entry (js "hunter2"); toy_entry toy_envelope]
                        [] false true in
  let w := @mkStores None [] 0%nat in
  @persist toy_host None st w
  = mkStores (Some (localPasswords st)) (remote_passwords w) (rng w)
  /\ map Entry.password
       (localPasswords
          (@loadLocal toy_host None (@persist toy_host None st w)
                      initial_Passwords))
     = map (fun p => if isEncryptedBundle (Entry.password p) then LOCKED
                     else Entry.password p)
           (localPasswords st).
Proof.
  apply (@persist_without_key_stores_plaintext toy_host
           (mkPasswords [toy_entry (js "hunter2"); toy_entry toy_envelope]
                        [] false true)
           initial_Passwords (@mkStores None [] 0%nat)).
  reflexivity.
Defined.
Lemma addPassword_falls_back_to_local_witness :
  let entry := Draft.mk (js "Mail") (js "ada") (js "hunter2") None (js "email")
                        [] Strong (Some CloudStorage) None None false in
  let st := mkPasswords [] [] false true in
  let w := @mkStores None [] 0%nat in
  let newEntry := Draft.entry entry (js "7f3c") 1700000000000 LocalStorage in
  let '(r, st', w') :=
    @addPassword toy_host (Some (js "user42")) None entry
                 (Inserted (js "9a1b") 1700000000001) (js "7f3c")
                 1700000000000 st w in
  r = Returned newEntry
  /\ localPasswords st' = newEntry :: localPasswords st
  /\ cloudPasswords st' = cloudPasswords st
  /\ remote_passwords w' = remote_passwords w
  /\ stored_passwords (@persist toy_host None st' w')
     = Some (newEntry :: localPasswords st).
Proof.
  apply (@addPassword_falls_back_to_local toy_host (Some (js "user42")) None
           (Draft.mk (js "Mail") (js "ada") (js "hunter2") None (js "email")
                     [] Strong (Some CloudStorage) None None false)
           (Inserted (js "9a1b") 1700000000001) (js "7f3c") 1700000000000
           (mkPasswords [] [] false true) (@mkStores None [] 0%nat)).
  - reflexivity.
  - right. left. reflexivity.
  - reflexivity.
Defined.

Section CloudAdd.
Context {H : Host} {L : HostLaws H}.


End CloudAdd.


Section Metadata.
Context {H : Host}.






End Metadata.


(** ** JSON texts of objects of strings *)

Lemma hex_value_digit (n : Z) : 0 <= n < 16 -> hex_value (hex_digit n) = Some n.
Proof.
  intros Hn. unfold hex_digit, hex_value.
  destruct (Z.ltb_spec n 10); decide_cmp; cbn [andb]; f_equal; lia.
Qed.

Lemma lex_unicode_escape (u : Z) :
  0 <= u < 65536 ->
  forall (acc : jsstring) (toks : list token) (rest : jsstring),
    lex (LString acc) toks (unicode_escape u ++ rest)
    = lex (LString (u :: acc)) toks rest.
Proof.
  intros Hu acc toks rest. unfold unicode_escape. cbn [app lex].
  change (92 =? 34) with false. change (92 =? 92) with true.
  change (117 =? 117) with true. cbv iota.
  rewrite !hex_value_digit by dlia.
  f_equal. f_equal. f_equal. dlia.
Qed.

Lemma lex_quote_unit (u : Z) :
  0 <= u < 65536 ->
  forall (acc : jsstring) (toks : list token) (rest : jsstring),
    lex (LString acc) toks (quote_unit u ++ rest)
    = lex (LString (u :: acc)) toks rest.
Proof.
  intros Hu acc toks rest. unfold quote_unit.
  destruct (Z.eqb_spec u 8) as [->|]; [reflexivity|].
  destruct (Z.eqb_spec u 9) as [->|]; [reflexivity|].
  destruct (Z.eqb_spec u 10) as [->|]; [reflexivity|].
  destruct (Z.eqb_spec u 12) as [->|]; [reflexivity|].
  destruct (Z.eqb_spec u 13) as [->|]; [reflexivity|].
  destruct (Z.eqb_spec u 34) as [->|]; [reflexivity|].
  destruct (Z.eqb_spec u 92) as [->|]; [reflexivity|].
  destruct (Z.ltb_spec u 32); [now apply lex_unicode_escape|].
  cbn [app lex]. decide_cmp. reflexivity.
Qed.

Lemma lex_surrogate (u : Z) :
  0xD800 <= u ->
  forall (acc : jsstring) (toks : list token) (rest : jsstring),
    lex (LString acc) toks (u :: rest) = lex (LString (u :: acc)) toks rest.
Proof. intros Hu acc toks rest. cbn [lex]. decide_cmp. reflexivity. Qed.

Lemma quote_body_cons2 (u l : Z) (s : jsstring) :
  quote_body (u :: l :: s)
  = if is_high_surrogate u then
      if is_low_surrogate l then u :: l :: quote_body s
      else unicode_escape u ++ quote_body (l :: s)
    else if is_low_surrogate u then unicode_escape u ++ quote_body (l :: s)
    else quote_unit u ++ quote_body (l :: s).
Proof. reflexivity. Qed.

(** The lexer reads back the string that [QuoteJSONString] wrote, whatever
    its code units. *)
Lemma lex_quote_body (s : jsstring) :
  code_units s ->
  forall (acc : jsstring) (toks : list token) (rest : jsstring),
    lex (LString acc) toks (quote_body s ++ 34 :: rest)
    = lex LIdle (TStr (rev acc ++ s) :: toks) rest.
Proof.
  induction s as [| u | u l s IHs IHl] using list_pair_ind;
    intros Hs acc toks rest.
  - cbn [quote_body app lex]. now rewrite app_nil_r.
  - apply Forall_inv in Hs. apply is_code_unit_spec in Hs.
    cbn [quote_body].
    destruct (is_high_surrogate u) eqn:Hh;
      [|destruct (is_low_surrogate u) eqn:Hlo].
    + rewrite lex_unicode_escape by exact Hs. cbn [lex]. reflexivity.
    + rewrite app_nil_r, lex_unicode_escape by exact Hs. cbn [lex]. reflexivity.
    + rewrite app_nil_r, lex_quote_unit by exact Hs. cbn [lex]. reflexivity.
  - pose proof (Forall_inv Hs) as Hu. apply is_code_unit_spec in Hu.
    pose proof (Forall_inv_tail Hs) as Hls.
    pose proof (Forall_inv_tail Hls) as Hss.
    assert (Hnext : lex (LString (u :: acc)) toks (quote_body (l :: s) ++ 34 :: rest)
                    = lex LIdle (TStr (rev acc ++ u :: l :: s) :: toks) rest).
    { rewrite IHl by exact Hls. cbn [rev]. now rewrite <- app_assoc. }
    rewrite quote_body_cons2.
    destruct (is_high_surrogate u) eqn:Hh.
    + destruct (is_low_surrogate l) eqn:Hlo.
      * apply is_high_surrogate_spec in Hh. apply is_low_surrogate_spec in Hlo.
        cbn [app]. rewrite !lex_surrogate by lia.
        rewrite IHs by exact Hss. cbn [rev]. now rewrite <- !app_assoc.
      * rewrite <- app_assoc, lex_unicode_escape by exact Hu. exact Hnext.
    + destruct (is_low_surrogate u) eqn:Hlo.
      * rewrite <- app_assoc, lex_unicode_escape by exact Hu. exact Hnext.
      * rewrite <- app_assoc, lex_quote_unit by exact Hu. exact Hnext.
Qed.

Lemma lex_quote (s : jsstring) :
  code_units s ->
  forall (toks : list token) (rest : jsstring),
    lex LIdle toks (quote s ++ rest) = lex LIdle (TStr s :: toks) rest.
Proof.
  intros Hs toks rest. unfold quote.
  change ((34 :: quote_body s ++ [34]) ++ rest)
    with (34 :: (quote_body s ++ [34]) ++ rest).
  rewrite <- app_assoc. cbn [app].
  transitivity (lex (LString []) toks (quote_body s ++ 34 :: rest));
    [reflexivity|].
  now rewrite lex_quote_body.
Qed.
Lemma lex_member (k v : jsstring) :
  code_units k -> code_units v ->
  forall (toks : list token) (rest : jsstring),
    lex LIdle toks ((quote k ++ 58 :: JSON_stringify (JString v)) ++ rest)
    = lex LIdle (TStr v :: TColon :: TStr k :: toks) rest.
Proof.
  intros Hk Hv toks rest. rewrite <- app_assoc, lex_quote by exact Hk.
  cbn [app JSON_stringify].
  transitivity (lex LIdle (TColon :: TStr k :: toks) (quote v ++ rest));
    [reflexivity|].
  now rewrite lex_quote.
Qed.

Lemma lex_members (ms : list (jsstring * jsstring)) :
  strings_of_code_units ms ->
  forall (toks : list token) (rest : jsstring),
    lex LIdle toks
        (join_comma
           (map (fun kv => quote (fst kv) ++ 58 :: JSON_stringify (snd kv))
                (string_members ms))
         ++ 125 :: rest)
    = lex LIdle (TRBrace :: rev (member_tokens ms) ++ toks) rest.
Proof.
  induction 1 as [|[k v] ms [Hk Hv] Hms IH]; intros toks rest.
  - reflexivity.
  - destruct ms as [|kv ms].
    + cbn [string_members map join_comma fst snd member_tokens].
      cbn [fst snd] in Hk, Hv. rewrite lex_member by assumption. reflexivity.
    + change (string_members ((k, v) :: kv :: ms))
        with ((k, JString v) :: string_members (kv :: ms)).
      change (member_tokens ((k, v) :: kv :: ms))
        with (TStr k :: TColon :: TStr v :: TComma :: member_tokens (kv :: ms)).
      cbn [fst snd] in Hk, Hv.
      change (join_comma
                (map (fun kv0 => quote (fst kv0) ++ 58 :: JSON_stringify (snd kv0))
                     ((k, JString v) :: string_members (kv :: ms))))
        with ((quote k ++ 58 :: JSON_stringify (JString v))
              ++ 44 :: join_comma
                   (map (fun kv0 => quote (fst kv0) ++ 58 :: JSON_stringify (snd kv0))
                        (string_members (kv :: ms)))).
      rewrite <- app_assoc. rewrite lex_member by assumption.
      cbn [app].
      transitivity
        (lex LIdle (TComma :: TStr v :: TColon :: TStr k :: toks)
             (join_comma
                (map (fun kv0 => quote (fst kv0) ++ 58 :: JSON_stringify (snd kv0))
                     (string_members (kv :: ms))) ++ 125 :: rest));
        [reflexivity|].
      rewrite IH. cbn [rev]. now rewrite <- !app_assoc.
Qed.

Lemma parse_members (ms : list (jsstring * jsstring)) :
  ms <> [] ->
  forall (acc : list (jsstring * json)),
    fold_left pstep (member_tokens ms ++ [TRBrace]) (PKey acc [])
    = PDone (JObject (rev acc ++ string_members ms)).
Proof.
  induction ms as [|[k v] ms IH]; intros Hne acc; [now contradiction Hne|].
  destruct ms as [|kv ms].
  - cbn [member_tokens app fold_left pstep value_step complete string_members map
         fst snd rev].
    reflexivity.
  - change (member_tokens ((k, v) :: kv :: ms))
      with (TStr k :: TColon :: TStr v :: TComma :: member_tokens (kv :: ms)).
    cbn [app fold_left pstep value_step complete].
    rewrite IH by discriminate. cbn [rev string_members map fst snd].
    now rewrite <- app_assoc.
Qed.

(** [JSON.parse] gives back the object of strings that [JSON.stringify]
    wrote. *)
Lemma JSON_parse_stringify_strings (ms : list (jsstring * jsstring)) :
  strings_of_code_units ms ->
  JSON_parse (JSON_stringify (JObject (string_members ms)))
  = Returned (JObject (string_members ms)).
Proof.
  intros Hms. unfold JSON_parse. cbn [JSON_stringify].
  transitivity
    (match lex LIdle [TLBrace]
             (join_comma
                (map (fun kv => quote (fst kv) ++ 58 :: JSON_stringify (snd kv))
                     (string_members ms)) ++ 125 :: [])
     with
     | Some toks =>
         match fold_left pstep toks (PValue []) with
         | PDone v => Returned v
         | _ => Thrown SyntaxError
         end
     | None => Thrown SyntaxError
     end); [reflexivity|].
  rewrite lex_members by exact Hms. cbn [lex].
  replace (rev (TRBrace :: rev (member_tokens ms) ++ [TLBrace]))
    with (TLBrace :: member_tokens ms ++ [TRBrace])
    by (cbn [rev]; now rewrite rev_app_distr, rev_involutive).
  cbn [fold_left pstep value_step].
  destruct ms as [|[k v] ms]; [reflexivity|].
  destruct ms as [|kv ms].
  - reflexivity.
  - change (member_tokens ((k, v) :: kv :: ms))
      with (TStr k :: TColon :: TStr v :: TComma :: member_tokens (kv :: ms)).
    cbn [app fold_left pstep value_step complete].
    now rewrite parse_members by discriminate.
Qed.
Lemma isWellFormed_app (a b : jsstring) :
  isWellFormed a = true -> isWellFormed b = true -> isWellFormed (a ++ b) = true.
Proof.
  induction a as [| x | x y l IHl IHy] using list_pair_ind; intros Ha Hb.
  - exact Hb.
  - revert Ha. cbn [app isWellFormed].
    destruct (is_code_unit x); [|discriminate].
    destruct (is_high_surrogate x); [discriminate|].
    destruct (is_low_surrogate x); [discriminate|].
    intros _. cbn [andb negb]. destruct b; exact Hb.
  - revert Ha. change ((x :: y :: l) ++ b) with (x :: y :: (l ++ b)).
    change (isWellFormed (x :: y :: l))
      with (is_code_unit x &&
            (if is_high_surrogate x
             then is_low_surrogate y && isWellFormed l
             else negb (is_low_surrogate x) && isWellFormed (y :: l))).
    change (isWellFormed (x :: y :: (l ++ b)))
      with (is_code_unit x &&
            (if is_high_surrogate x
             then is_low_surrogate y && isWellFormed (l ++ b)
             else negb (is_low_surrogate x) && isWellFormed ((y :: l) ++ b))).
    destruct (is_code_unit x); [|discriminate].
    destruct (is_high_surrogate x).
    + destruct (is_low_surrogate y); [|discriminate]. cbn [andb].
      intros Hl. now apply IHl.
    + destruct (is_low_surrogate x); [discriminate|]. cbn [andb negb].
      intros Hl. now apply IHy.
Qed.

Lemma isWellFormed_below_surrogates (s : jsstring) :
  Forall (fun c => 0 <= c < 0xD800) s -> isWellFormed s = true.
Proof.
  induction 1 as [|c s Hc _ IH]; [reflexivity|].
  cbn [isWellFormed].
  replace (is_code_unit c) with true
    by (symmetry; apply is_code_unit_spec; lia).
  replace (is_high_surrogate c) with false
    by (symmetry; apply is_high_surrogate_false; lia).
  replace (is_low_surrogate c) with false
    by (symmetry; apply is_low_surrogate_false; lia).
  exact IH.
Qed.

Lemma hex_digit_range (n : Z) : 0 <= n < 16 -> 48 <= hex_digit n <= 102.
Proof. intros Hn. unfold hex_digit. destruct (Z.ltb_spec n 10); lia. Qed.

Lemma unicode_escape_wellformed (u : Z) :
  0 <= u < 65536 -> isWellFormed (unicode_escape u) = true.
Proof.
  intros Hu. apply isWellFormed_below_surrogates. unfold unicode_escape.
  pose proof (hex_digit_range (u / 4096)).
  pose proof (hex_digit_range (u / 256 mod 16)).
  pose proof (hex_digit_range (u / 16 mod 16)).
  pose proof (hex_digit_range (u mod 16)).
  repeat (constructor; [dlia|]). constructor.
Qed.

Lemma quote_unit_wellformed (u : Z) :
  0 <= u < 65536 -> is_high_surrogate u = false -> is_low_surrogate u = false ->
  isWellFormed (quote_unit u) = true.
Proof.
  intros Hu Hh Hl. unfold quote_unit.
  destruct (u =? 8); [reflexivity|]. destruct (u =? 9); [reflexivity|].
  destruct (u =? 10); [reflexivity|]. destruct (u =? 12); [reflexivity|].
  destruct (u =? 13); [reflexivity|]. destruct (u =? 34); [reflexivity|].
  destruct (u =? 92); [reflexivity|].
  destruct (u <? 32); [now apply unicode_escape_wellformed|].
  cbn [isWellFormed]. rewrite Hh, Hl.
  now rewrite (proj2 (is_code_unit_spec u) Hu).
Qed.

(** What [QuoteJSONString] writes has no lone surrogate: it escapes them. *)
Lemma quote_body_wellformed (s : jsstring) :
  code_units s -> isWellFormed (quote_body s) = true.
Proof.
  induction s as [| u | u l s IHs IHl] using list_pair_ind; intros Hs.
  - reflexivity.
  - apply Forall_inv in Hs. apply is_code_unit_spec in Hs. cbn [quote_body].
    destruct (is_high_surrogate u) eqn:Hh;
      [now apply unicode_escape_wellformed|].
    destruct (is_low_surrogate u) eqn:Hlo; rewrite app_nil_r;
      [now apply unicode_escape_wellformed|now apply quote_unit_wellformed].
  - pose proof (Forall_inv Hs) as Hu. pose proof Hu as Hcu.
    apply is_code_unit_spec in Hu.
    pose proof (Forall_inv_tail Hs) as Hls.
    pose proof (Forall_inv (Forall_inv_tail Hs)) as Hcl.
    pose proof (Forall_inv_tail Hls) as Hss.
    rewrite quote_body_cons2.
    destruct (is_high_surrogate u) eqn:Hh.
    + destruct (is_low_surrogate l) eqn:Hlo.
      * change (isWellFormed (u :: l :: quote_body s))
          with (is_code_unit u &&
                (if is_high_surrogate u
                 then is_low_surrogate l && isWellFormed (quote_body s)
                 else negb (is_low_surrogate u)
                      && isWellFormed (l :: quote_body s))).
        rewrite Hcu, Hh, Hlo. cbn [andb]. now apply IHs.
      * apply isWellFormed_app;
          [now apply unicode_escape_wellformed|now apply IHl].
    + destruct (is_low_surrogate u) eqn:Hlo; apply isWellFormed_app;
        try (now apply IHl);
        [now apply unicode_escape_wellformed|now apply quote_unit_wellformed].
Qed.

Lemma quote_wellformed (s : jsstring) :
  code_units s -> isWellFormed (quote s) = true.
Proof.
  intros Hs. unfold quote.
  apply (isWellFormed_app [34]); [reflexivity|].
  apply isWellFormed_app; [now apply quote_body_wellformed|reflexivity].
Qed.

Lemma members_wellformed (ms : list (jsstring * jsstring)) :
  strings_of_code_units ms ->
  isWellFormed
    (join_comma
       (map (fun kv => quote (fst kv) ++ 58 :: JSON_stringify (snd kv))
            (string_members ms))) = true.
Proof.
  induction 1 as [|[k v] ms [Hk Hv] Hms IH]; [reflexivity|].
  cbn [fst snd] in Hk, Hv.
  assert (Hm : isWellFormed (quote k ++ 58 :: JSON_stringify (JString v)) = true).
  { apply isWellFormed_app; [now apply quote_wellformed|].
    apply (isWellFormed_app [58]); [reflexivity|].
    now apply quote_wellformed. }
  destruct ms as [|kv ms]; [exact Hm|].
  change (join_comma
            (map (fun kv0 => quote (fst kv0) ++ 58 :: JSON_stringify (snd kv0))
                 (string_members ((k, v) :: kv :: ms))))
    with ((quote k ++ 58 :: JSON_stringify (JString v))
          ++ 44 :: join_comma
               (map (fun kv0 => quote (fst kv0) ++ 58 :: JSON_stringify (snd kv0))
                    (string_members (kv :: ms)))).
  apply isWellFormed_app; [exact Hm|].
  apply (isWellFormed_app [44]); [reflexivity|exact IH].
Qed.

(** The JSON text of an object of strings goes through [TextEncoder] and
    [TextDecoder] unchanged, whatever the strings. *)
Lemma stringify_strings_utf8 (ms : list (jsstring * jsstring)) :
  strings_of_code_units ms ->
  TextDecoder_decode
    (TextEncoder_encode (JSON_stringify (JObject (string_members ms))))
  = JSON_stringify (JObject (string_members ms)).
Proof.
  intros Hms. apply TextDecoder_TextEncoder_id; [|reflexivity].
  cbn [JSON_stringify].
  apply (isWellFormed_app [123]); [reflexivity|].
  apply isWellFormed_app; [now apply members_wellformed|reflexivity].
Qed.
(** ** The codec of the sharing links *)

Lemma b64_text_code_unit (s : jsstring) : Forall b64_text s -> code_units s.
Proof.
  intros Hs. eapply Forall_impl; [|exact Hs].
  intros c [Hc _]. apply is_code_unit_spec. lia.
Qed.

Lemma fold_left_binary (buf : bytes) (acc : jsstring) :
  fold_left (fun binary b => binary ++ [Z_of_byte b]) buf acc
  = acc ++ map Z_of_byte buf.
Proof.
  revert acc. induction buf as [|b buf IH]; intros acc.
  - now rewrite app_nil_r.
  - cbn [fold_left map]. rewrite IH, <- app_assoc. reflexivity.
Qed.

Lemma share_packed_text (s64 iv64 ct64 : jsstring) :
  Forall b64_text s64 -> Forall b64_text iv64 -> Forall b64_text ct64 ->
  JSON_stringify (JObject [(js "s", JString s64); (js "iv", JString iv64);
                           (js "ct", JString ct64)])
  = 123 :: 34 :: 115 :: 34 :: 58 :: 34
    :: s64 ++ 34 :: 44 :: 34 :: 105 :: 118 :: 34 :: 58 :: 34
    :: iv64 ++ 34 :: 44 :: 34 :: 99 :: 116 :: 34 :: 58 :: 34
    :: ct64 ++ [34; 125].
Proof.
  intros Hs Hiv Hct. cbn [JSON_stringify map join_comma fst snd].
  unfold quote.
  change (quote_body (js "s")) with [115].
  change (quote_body (js "iv")) with [105; 118].
  change (quote_body (js "ct")) with [99; 116].
  rewrite (quote_body_text s64), (quote_body_text iv64), (quote_body_text ct64)
    by assumption.
  cbn [app]. repeat (rewrite <- app_assoc; cbn [app]). reflexivity.
Qed.

Lemma share_packed_octets (s64 iv64 ct64 : jsstring) :
  Forall b64_text s64 -> Forall b64_text iv64 -> Forall b64_text ct64 ->
  Forall is_octet
    (JSON_stringify (JObject [(js "s", JString s64); (js "iv", JString iv64);
                              (js "ct", JString ct64)])).
Proof.
  intros Hs Hiv Hct. rewrite share_packed_text by assumption.
  repeat (constructor; [unfold is_octet; lia|]).
  apply Forall_app. split;
    [eapply Forall_impl; [apply b64_text_octet|assumption]|].
  repeat (constructor; [unfold is_octet; lia|]).
  apply Forall_app. split;
    [eapply Forall_impl; [apply b64_text_octet|assumption]|].
  repeat (constructor; [unfold is_octet; lia|]).
  apply Forall_app. split;
    [eapply Forall_impl; [apply b64_text_octet|assumption]|].
  repeat (constructor; [unfold is_octet; lia|]). constructor.
Qed.

Lemma share_packed_parse (s64 iv64 ct64 : jsstring) :
  Forall b64_text s64 -> Forall b64_text iv64 -> Forall b64_text ct64 ->
  JSON_parse
    (JSON_stringify (JObject [(js "s", JString s64); (js "iv", JString iv64);
                              (js "ct", JString ct64)]))
  = Returned (JObject [(js "s", JString s64); (js "iv", JString iv64);
                       (js "ct", JString ct64)]).
Proof.
  intros Hs Hiv Hct.
  apply (JSON_parse_stringify_strings
           [(js "s", s64); (js "iv", iv64); (js "ct", ct64)]).
  repeat constructor; cbn [fst snd];
    try (now apply b64_text_code_unit); now vm_compute.
Qed.

Section SharingCodec.
Context {H : Host}.

Lemma arrayBufferToBase64_returns (buf : bytes) :
  arrayBufferToBase64 buf = Returned (b64_encode (map Z_of_byte buf)).
Proof.
  unfold arrayBufferToBase64. rewrite fold_left_binary. cbn [app].
  apply atob_btoa, octets_of_bytes.
Qed.

Lemma base64ToArrayBuffer_encoded (buf : bytes) :
  base64ToArrayBuffer (b64_encode (map Z_of_byte buf)) = Returned buf.
Proof.
  unfold base64ToArrayBuffer.
  rewrite (proj2 (atob_btoa _ (octets_of_bytes buf))). cbn [bind].
  now rewrite map_byte_of_Z_of_byte.
Qed.

Lemma share_bundle_parts (salt iv ct : bytes) :
  Forall b64_text (b64_encode (map Z_of_byte salt))
  /\ Forall b64_text (b64_encode (map Z_of_byte iv))
  /\ Forall b64_text (b64_encode (map Z_of_byte ct)).
Proof. repeat split; apply b64_encode_text, octets_of_bytes. Qed.

(** What [encryptData] returns: it never throws; it draws 16 bytes for the
    salt, then 12 for the nonce. *)
Lemma encryptData_bundle (plaintext token : jsstring) (g : Rng) :
  let salt := map entropy (seq g 16) in
  let iv := map entropy (seq (g + 16) 12) in
  encryptData plaintext token g
  = (Returned (share_bundle salt iv
                 (aes_gcm_encrypt (deriveKey token salt) iv
                                  (TextEncoder_encode plaintext))),
     (g + 28)%nat).
Proof.
  cbn zeta. unfold encryptData, getRandomValues.
  rewrite !arrayBufferToBase64_returns. cbn [bind].
  replace (g + 16 + 12)%nat with (g + 28)%nat by lia. f_equal.
  destruct (share_bundle_parts (map entropy (seq g 16))
              (map entropy (seq (g + 16) 12))
              (aes_gcm_encrypt (deriveKey token (map entropy (seq g 16)))
                 (map entropy (seq (g + 16) 12))
                 (TextEncoder_encode plaintext))) as (Hs & Hiv & Hct).
  apply atob_btoa. now apply share_packed_octets.
Qed.

Lemma atob_share_bundle (salt iv ct : bytes) :
  atob (share_bundle salt iv ct)
  = Returned
      (JSON_stringify
         (JObject [(js "s", JString (b64_encode (map Z_of_byte salt)));
                   (js "iv", JString (b64_encode (map Z_of_byte iv)));
                   (js "ct", JString (b64_encode (map Z_of_byte ct)))])).
Proof.
  destruct (share_bundle_parts salt iv ct) as (Hs & Hiv & Hct).
  unfold share_bundle. apply atob_btoa. now apply share_packed_octets.
Qed.

Lemma decryptData_bundle (salt iv ct : bytes) (token : jsstring) :
  decryptData (share_bundle salt iv ct) token
  = match aes_gcm_decrypt (deriveKey token salt) iv ct with
    | Some decrypted => Returned (TextDecoder_decode decrypted)
    | None => Thrown OperationError
    end.
Proof.
  destruct (share_bundle_parts salt iv ct) as (Hs & Hiv & Hct).
  unfold decryptData. rewrite atob_share_bundle. cbn [bind].
  rewrite share_packed_parse by assumption. cbn [bind].
  change (get_property
            (JObject [(js "s", JString (b64_encode (map Z_of_byte salt)));
                      (js "iv", JString (b64_encode (map Z_of_byte iv)));
                      (js "ct", JString (b64_encode (map Z_of_byte ct)))])
            (js "s"))
    with (Returned (Some (JString (b64_encode (map Z_of_byte salt))))).
  change (get_property
            (JObject [(js "s", JString (b64_encode (map Z_of_byte salt)));
                      (js "iv", JString (b64_encode (map Z_of_byte iv)));
                      (js "ct", JString (b64_encode (map Z_of_byte ct)))])
            (js "iv"))
    with (Returned (Some (JString (b64_encode (map Z_of_byte iv))))).
  change (get_property
            (JObject [(js "s", JString (b64_encode (map Z_of_byte salt)));
                      (js "iv", JString (b64_encode (map Z_of_byte iv)));
                      (js "ct", JString (b64_encode (map Z_of_byte ct)))])
            (js "ct"))
    with (Returned (Some (JString (b64_encode (map Z_of_byte ct))))).
  cbn [bind ToString json_ToString].
  rewrite !base64ToArrayBuffer_encoded. reflexivity.
Qed.

Lemma isLegacyEncryption_bundle (salt iv ct : bytes) :
  isLegacyEncryption (share_bundle salt iv ct) = false.
Proof.
  destruct (share_bundle_parts salt iv ct) as (Hs & Hiv & Hct).
  unfold isLegacyEncryption. rewrite atob_share_bundle. cbn [bind].
  rewrite share_packed_parse by assumption. reflexivity.
Qed.

End SharingCodec.

Section SharingRoundTrip.
Context {H : Host} {L : HostLaws H}.

Lemma decryptData_encryptData (p token : jsstring) (g : Rng) :
  exists e,
    encryptData p token g = (Returned e, (g + 28)%nat)
    /\ isLegacyEncryption e = false
    /\ decryptData e token
       = Returned (TextDecoder_decode (TextEncoder_encode p)).
Proof.
  rewrite encryptData_bundle. eexists. split; [reflexivity|].
  split; [apply isLegacyEncryption_bundle|].
  rewrite decryptData_bundle.
  now rewrite aes_gcm_correct by (now rewrite length_map, length_seq).
Qed.

(** X14: the codec of the sharing links.  [encryptData] never throws: it
    draws 16 random bytes for the PBKDF2 salt and the next 12 for the
    nonce, and the bundle it returns carries both.  For every plaintext that
    is well formed and does not begin with U+FEFF and for every token,
    [decryptData] under the same token re-derives the key from the salt in
    the bundle and returns the plaintext; and [isLegacyEncryption] is false
    on the bundle, so the page of a shared link never takes a bundle made by
    [encryptData] for legacy base64 data. *)
Theorem share_codec_roundtrip (p token : jsstring) (g : Rng) :
  isWellFormed p = true ->
  startsWith p [BOM] = false ->
  let salt := map entropy (seq g 16) in
  let iv := map entropy (seq (g + 16) 12) in
  let key := subtle_deriveKey (passwordGenerator_deriveKey_call token salt) in
  let e := share_bundle salt iv (aes_gcm_encrypt key iv (TextEncoder_encode p)) in
  encryptData p token g = (Returned e, (g + 28)%nat)
  /\ decryptData e token = Returned p
  /\ isLegacyEncryption e = false.
Proof.
  intros Hwf Hb. cbn zeta. rewrite encryptData_bundle.
  split; [reflexivity|]. split; [|apply isLegacyEncryption_bundle].
  rewrite decryptData_bundle. unfold deriveKey.
  rewrite aes_gcm_correct by (now rewrite length_map, length_seq).
  now rewrite TextDecoder_TextEncoder_id.
Qed.

End SharingRoundTrip.

Lemma share_codec_roundtrip_witness :
  let p := jsq "{'title':'Mail'}" in
  let token := js "00ff" in
  let salt := map (@entropy toy_host) (seq 0 16) in
  let iv := map (@entropy toy_host) (seq (0 + 16) 12) in
  let key := @subtle_deriveKey toy_host
               (passwordGenerator_deriveKey_call token salt) in
  let e := share_bundle salt iv
             (@aes_gcm_encrypt toy_host key iv (TextEncoder_encode p)) in
  @encryptData toy_host p token 0%nat = (Returned e, (0 + 28)%nat)
  /\ @decryptData toy_host e token = Returned p
  /\ isLegacyEncryption e = false.
Proof.
  apply (@share_codec_roundtrip toy_host toy_host_laws
           (jsq "{'title':'Mail'}") (js "00ff") 0%nat); reflexivity.
Defined.
(** ** A sharing link, from the dialog to the page that shows it *)

Lemma hex_digit_lower (n : Z) : 0 <= n < 16 -> is_lower_hex (hex_digit n) = true.
Proof.
  intros Hn. unfold is_lower_hex, hex_digit.
  destruct (Z.ltb_spec n 10); decide_cmp; reflexivity.
Qed.

Lemma hex_token_format (tokenArray : bytes) :
  forallb is_lower_hex (hex_token tokenArray) = true
  /\ List.length (hex_token tokenArray) = (2 * List.length tokenArray)%nat.
Proof.
  induction tokenArray as [|b bs [IHf IHl]]; [now split|].
  pose proof (Z_of_byte_range b) as Hb.
  cbn [hex_token flat_map hex_byte app forallb List.length].
  rewrite !hex_digit_lower by dlia. cbn [andb]. split; [exact IHf|].
  unfold hex_token in IHl. rewrite IHl. lia.
Qed.

Lemma jsstring_eqb_eq (a b : jsstring) : jsstring_eqb a b = true -> a = b.
Proof.
  revert b. induction a as [|x a IH]; intros [|y b]; cbn [jsstring_eqb];
    try discriminate; [reflexivity|].
  intros Hab. apply andb_prop in Hab as [Hxy Hab].
  apply Z.eqb_eq in Hxy. subst y. f_equal. now apply IH.
Qed.

Section SharedLink.
Context {H : Host} {L : HostLaws H}.

Lemma share_data_strings (entry : Entry.t) :
  code_units (Entry.title entry) ->
  code_units (Entry.username entry) ->
  code_units (Entry.password entry) ->
  (forall u, Entry.url entry = Some u -> code_units u) ->
  exists ms, share_data entry = JObject (string_members ms)
             /\ strings_of_code_units ms.
Proof.
  intros Ht Hu Hp Hurl. unfold share_data.
  destruct (Entry.url entry) as [u|].
  - exists [(js "title", Entry.title entry); (js "username", Entry.username entry);
            (js "password", Entry.password entry); (js "url", u)].
    split; [reflexivity|].
    repeat constructor; cbn [fst snd]; try assumption; try (now vm_compute).
    now apply Hurl.
  - exists [(js "title", Entry.title entry); (js "username", Entry.username entry);
            (js "password", Entry.password entry)].
    split; [reflexivity|].
    repeat constructor; cbn [fst snd]; try assumption; now vm_compute.
Qed.

(** X15: a sharing link shows what was shared, whatever the strings.  The
    dialog makes a token of 64 lower-case hexadecimal digits, which the
    remote procedure accepts; and when the link is opened before it
    expires, with no other row under that token, the page shows exactly
    the title, username, password and url of the entry.  Unlike the vault
    codec, this holds for every string of 16-bit code units, a lone
    surrogate or a leading U+FEFF included: what is encrypted is a JSON
    text, in which [JSON.stringify] has escaped them. *)
Theorem shared_link_shows_entry
  (user : jsstring) (entry : Entry.t) (expiry : Expiry) (maxViews : MaxViews)
  (now now' : Z) (id : jsstring) (g : Rng) (table : list Share) :
  code_units (Entry.title entry) ->
  code_units (Entry.username entry) ->
  code_units (Entry.password entry) ->
  (forall u, Entry.url entry = Some u -> code_units u) ->
  now' <= now + expiryMs expiry ->
  let token := hex_token (map entropy (seq g 32)) in
  find (fun sp => jsstring_eqb (share_token sp) token) table = None ->
  exists row,
    fst (handleCreate user entry expiry maxViews now id g)
    = Returned (token, row)
    /\ not_a_share_token token = false
    /\ fst (open_shared_link now' token (row :: table))
       = ShowData (share_data entry).
Proof.
  intros Ht Hu Hp Hurl Hnow token Hfresh.
  destruct (hex_token_format (map entropy (seq g 32))) as [Hhex Hlen].
  rewrite length_map, length_seq in Hlen. fold token in Hhex, Hlen.
  assert (Hok : not_a_share_token token = false).
  { unfold not_a_share_token. rewrite Hhex, Hlen. reflexivity. }
  assert (Htruthy : truthy token = true).
  { destruct token; [discriminate Hlen|reflexivity]. }
  unfold handleCreate, getRandomValues. fold token.
  rewrite encryptData_bundle. cbn [fst bind].
  eexists. split; [reflexivity|]. split; [exact Hok|].
  unfold open_shared_link, view_shared_password. rewrite Hok.
  cbn [find share_token]. rewrite jsstring_eqb_refl.
  cbn [expires_at max_views view_count].
  destruct (Z.ltb_spec (now + expiryMs expiry) now') as [Hlt|_]; [lia|].
  replace (parseInt_maxViews maxViews <=? 0) with false
    by (now destruct maxViews).
  cbn [fst encrypted_data]. unfold loadShared. rewrite Htruthy. cbn [negb].
  unfold decrypt_shared. rewrite isLegacyEncryption_bundle.
  rewrite decryptData_bundle.
  rewrite aes_gcm_correct by (now rewrite length_map, length_seq).
  cbn [bind].
  destruct (share_data_strings entry Ht Hu Hp Hurl) as (ms & Hms & Hcu).
  rewrite Hms, stringify_strings_utf8 by exact Hcu.
  now rewrite JSON_parse_stringify_strings by exact Hcu.
Qed.

End SharedLink.

Lemma shared_link_shows_entry_witness :
  let entry := toy_entry [0xFEFF; 0xD800; 34; 104; 105] in
  let token := hex_token (map (@entropy toy_host) (seq 0 32)) in
  exists row,
    fst (@handleCreate toy_host (js "user42") entry Expiry1h Views1 1000
                       (js "5e1d") 0%nat)
    = Returned (token, row)
    /\ not_a_share_token token = false
    /\ fst (@open_shared_link toy_host 3601000 token (row :: []))
       = ShowData (share_data entry).
Proof.
  apply (@shared_link_shows_entry toy_host toy_host_laws (js "user42")
           (toy_entry [0xFEFF; 0xD800; 34; 104; 105]) Expiry1h Views1
           1000 3601000 (js "5e1d") 0%nat []).
  - vm_compute. repeat constructor.
  - vm_compute. repeat constructor.
  - vm_compute. repeat constructor.
  - intros u Hu. discriminate Hu.
  - vm_compute. discriminate.
  - reflexivity.
Defined.

Section ViewLimit.
Context {H : Host}.

Lemma find_token_map (t : jsstring) (f : Share -> Share) (table : list Share) :
  (forall sp, share_token (f sp) = share_token sp) ->
  find (fun sp => jsstring_eqb (share_token sp) t) (map f table)
  = option_map f (find (fun sp => jsstring_eqb (share_token sp) t) table).
Proof.
  intros Hf. induction table as [|sp table IH]; [reflexivity|].
  cbn [map find]. rewrite Hf.
  destruct (jsstring_eqb (share_token sp) t); [reflexivity|exact IH].
Qed.

(** One call: the views left to a token's share never grow, and go down by
    one when the call returned the data of that share. *)
Lemma view_step (now : Z) (p : option jsstring) (t : jsstring)
  (table : list Share) :
  views_left t (snd (view_shared_password now p table))
  + match fst (view_shared_password now p table), p with
    | RpcData _, Some t' => if jsstring_eqb t' t then 1 else 0
    | _, _ => 0
    end
  <= views_left t table.
Proof.
  unfold view_shared_password.
  destruct p as [t'|]; [|cbn [fst snd]; lia].
  destruct (not_a_share_token t'); [cbn [fst snd]; lia|].
  destruct (find (fun sp => jsstring_eqb (share_token sp) t') table)
    as [v|] eqn:Hv; [|cbn [fst snd]; lia].
  destruct (expires_at v <? now); [cbn [fst snd]; lia|].
  destruct (Z.leb_spec (max_views v) (view_count v)) as [|Hleft];
    [cbn [fst snd]; lia|].
  cbn [fst snd]. unfold views_left.
  rewrite find_token_map by (intros sp; now destruct (jsstring_eqb _ _)).
  destruct (jsstring_eqb t' t) eqn:Ett.
  - apply jsstring_eqb_eq in Ett. subst t'. rewrite Hv. cbn [option_map].
    rewrite jsstring_eqb_refl. cbn [max_views view_count]. lia.
  - destruct (find (fun sp => jsstring_eqb (share_token sp) t) table) as [sp|];
      cbn [option_map]; [|lia].
    destruct (jsstring_eqb (share_id sp) (share_id v));
      cbn [max_views view_count]; lia.
Qed.

(** X16: a share is viewed at most [max_views] times.  In any run of calls
    of [view_shared_password], for any tokens and at any times, the calls
    that return the data of a token's share are no more than the views its
    row had left at the start: [max_views - view_count], and none when
    there is no such row. *)
Theorem share_view_limit (calls : list (Z * option jsstring)) (t : jsstring)
  (table : list Share) :
  fst (run_views calls t table) <= views_left t table.
Proof.
  revert table. induction calls as [|[now p] calls IH]; intros table.
  - cbn [run_views fst]. unfold views_left.
    destruct (find _ table); lia.
  - cbn [run_views]. pose proof (view_step now p t table) as Hstep.
    destruct (view_shared_password now p table) as [r table'].
    cbn [fst snd] in Hstep. specialize (IH table').
    destruct (run_views calls t table') as [n table'']. cbn [fst] in *.
    destruct r; destruct p as [t'|]; try lia.
    destruct (jsstring_eqb t' t); lia.
Qed.

(** X17: the page tells an expired link and a used-up link from an invalid
    one.  The remote procedure hands over the message of the exception it
    raised; for a well-formed token whose row has expired the page shows
    that the link has expired, and for one whose views are used up that it
    has reached its maximum number of views; in both cases the table is
    left as it was. *)
Theorem shared_link_refused (now : Z) (token : jsstring) (sp : Share)
  (table : list Share) :
  not_a_share_token token = false ->
  find (fun sp => jsstring_eqb (share_token sp) token) table = Some sp ->
  (expires_at sp < now ->
   open_shared_link now token table
   = (ShowError (js "This share link has expired."), table))
  /\ (now <= expires_at sp -> max_views sp <= view_count sp ->
      open_shared_link now token table
      = (ShowError (js "This link has reached its maximum number of views."),
         table)).
Proof.
  intros Hok Hsp.
  assert (Htruthy : truthy token = true).
  { destruct token; [discriminate Hok|reflexivity]. }
  unfold open_shared_link, view_shared_password. rewrite Hok, Hsp.
  split.
  - intros He. destruct (Z.ltb_spec (expires_at sp) now); [|lia].
    unfold loadShared. rewrite Htruthy. reflexivity.
  - intros He Hv. destruct (Z.ltb_spec (expires_at sp) now); [lia|].
    destruct (Z.leb_spec (max_views sp) (view_count sp)); [|lia].
    unfold loadShared. rewrite Htruthy. reflexivity.
Qed.

End ViewLimit.

Lemma shared_link_refused_witness :
  let token := hex_token (map (@entropy toy_host) (seq 0 32)) in
  let sp := mkShare (js "5e1d") (js "7f3c") (js "user42") token (js "e30=")
                    3601000 1 1 in
  (expires_at sp < 3600000 ->
   @open_shared_link toy_host 3600000 token [sp]
   = (ShowError (js "This share link has expired."), [sp]))
  /\ (3600000 <= expires_at sp -> max_views sp <= view_count sp ->
      @open_shared_link toy_host 3600000 token [sp]
      = (ShowError (js "This link has reached its maximum number of views."),
         [sp])).
Proof.
  apply (@shared_link_refused toy_host 3600000
           (hex_token (map (@entropy toy_host) (seq 0 32)))
           (mkShare (js "5e1d") (js "7f3c") (js "user42")
                    (hex_token (map (@entropy toy_host) (seq 0 32)))
                    (js "e30=") 3601000 1 1)).
  - vm_compute. reflexivity.
  - vm_compute. reflexivity.
Defined.

(** ** The stored TOTP secret *)

Lemma num_step_base32 (st st' : num_state) (c : Z) :
  is_base32 c = true -> num_step st c = Some st' -> st' <> NZero.
Proof.
  intros Hc Hstep Hz. subst st'.
  destruct st; cbn [num_step] in Hstep;
    repeat match type of Hstep with
           | context [if ?b then _ else _] => destruct b eqn:?
           end;
    try discriminate.
  apply Z.eqb_eq in Heqb. subst c. discriminate Hc.
Qed.

Lemma idle_step_base32 (c : Z) :
  is_base32 c = true ->
  idle_step c = None
  \/ idle_step c = Some (LNumber NInt [c], None) /\ is_digit c = true.
Proof.
  unfold is_base32, idle_step, is_json_whitespace, is_digit.
  intros Hc. revert Hc. decide_cmp; cbn; intros Hc; try discriminate; auto.
Qed.

Lemma num_step_digit (st : num_state) (c : Z) :
  st <> NZero -> is_digit c = true -> c <> 48 -> num_step st c <> None.
Proof.
  intros Hst Hd Hz. destruct st; cbn [num_step]; try congruence;
    rewrite ?Hd; try discriminate.
  - destruct (Z.eqb_spec c 48); [lia|discriminate].
  - destruct ((c =? 43) || (c =? 45)); discriminate.
Qed.

(** Inside a number, a text of base32 characters gives one number token, or
    no token list at all. *)
Lemma lex_number_base32 (s : jsstring) :
  forallb is_base32 s = true ->
  forall (st : num_state) (lexeme : jsstring),
    st <> NZero ->
    lex (LNumber st lexeme) [] s = None
    \/ exists l, lex (LNumber st lexeme) [] s = Some [TNum l].
Proof.
  induction s as [|c s IH]; intros Hs st lexeme Hst.
  - cbn [lex]. destruct (num_accepting st); [right; eexists; reflexivity|now left].
  - cbn [forallb] in Hs. apply andb_prop in Hs as [Hc Hs].
    cbn [lex]. destruct (num_step st c) as [st'|] eqn:Hstep.
    + apply IH; [exact Hs|]. now apply (num_step_base32 st st' c).
    + destruct (num_accepting st); [|now left].
      destruct (idle_step_base32 c Hc) as [Hi|[Hi Hd]].
      * rewrite Hi. now left.
      * exfalso. apply (num_step_digit st c Hst Hd); [|exact Hstep].
        unfold is_base32 in Hc. intros ->. discriminate Hc.
Qed.

Lemma JSON_parse_base32 (s : jsstring) :
  forallb is_base32 s = true ->
  (exists e, JSON_parse s = Thrown e)
  \/ (exists l, JSON_parse s = Returned (JNumber l)).
Proof.
  intros Hs. unfold JSON_parse. destruct s as [|c s].
  - left. eexists. reflexivity.
  - cbn [forallb] in Hs. apply andb_prop in Hs as [Hc Hs]. cbn [lex].
    destruct (idle_step_base32 c Hc) as [Hi|[Hi _]]; rewrite Hi.
    + left. eexists. reflexivity.
    + cbn [push_token].
      destruct (lex_number_base32 s Hs NInt [c]) as [Hl|[l Hl]];
        [discriminate| |]; rewrite Hl.
      * left. eexists. reflexivity.
      * right. exists l. reflexivity.
Qed.

Section TotpSecret.
Context {H : Host}.

Lemma toBase64_returns (buf : bytes) :
  toBase64 buf = Returned (b64_encode (map Z_of_byte buf)).
Proof.
  unfold toBase64. rewrite fold_left_binary. cbn [app].
  apply atob_btoa, octets_of_bytes.
Qed.

Lemma fromBase64_encoded (buf : bytes) :
  fromBase64 (b64_encode (map Z_of_byte buf)) = Returned buf.
Proof.
  unfold fromBase64.
  rewrite (proj2 (atob_btoa _ (octets_of_bytes buf))). cbn [bind].
  now rewrite map_byte_of_Z_of_byte.
Qed.

Lemma b64_encode_truthy (buf : bytes) :
  buf <> [] -> truthy (b64_encode (map Z_of_byte buf)) = true.
Proof.
  destruct buf as [|a [|b [|c buf]]]; [congruence|reflexivity..].
Qed.

(** What [decryptSecret] makes of the bundle of a nonce and a ciphertext
    that is not empty. *)
Lemma decryptSecret_packed (masterKey : jsstring) (iv ct : bytes) :
  iv <> [] -> ct <> [] ->
  decryptSecret masterKey
    (packed (b64_encode (map Z_of_byte iv)) (b64_encode (map Z_of_byte ct)))
  = match aes_gcm_decrypt (getEncryptionKey masterKey) iv ct with
    | Some decrypted => TextDecoder_decode decrypted
    | None => packed (b64_encode (map Z_of_byte iv))
                     (b64_encode (map Z_of_byte ct))
    end.
Proof.
  intros Hiv Hct. destruct (envelope_parts iv ct) as [Tiv Tct].
  unfold decryptSecret. rewrite JSON_parse_packed by assumption. cbn [bind].
  change (get_property
            (JObject [(js "iv", JString (b64_encode (map Z_of_byte iv)));
                      (js "ct", JString (b64_encode (map Z_of_byte ct)))])
            (js "iv"))
    with (Returned (Some (JString (b64_encode (map Z_of_byte iv))))).
  change (get_property
            (JObject [(js "iv", JString (b64_encode (map Z_of_byte iv)));
                      (js "ct", JString (b64_encode (map Z_of_byte ct)))])
            (js "ct"))
    with (Returned (Some (JString (b64_encode (map Z_of_byte ct))))).
  cbn [bind json_truthy]. rewrite !b64_encode_truthy by assumption.
  cbn [negb bind ToString json_ToString]. rewrite !fromBase64_encoded.
  cbn [bind]. now destruct (aes_gcm_decrypt _ iv ct).
Qed.

(** X19: a legacy secret is read as it is.  A stored value made of base32
    characters only (capital letters, digits 2 to 7, the padding sign) is
    not a bundle: [JSON.parse] rejects it, or reads it as a number, which
    has no [iv]; [decryptSecret] returns the value itself, whatever the
    master key, and does not throw. *)
Theorem legacy_totp_secret_passes_through (masterKey secret : jsstring) :
  forallb is_base32 secret = true ->
  decryptSecret masterKey secret = secret.
Proof.
  intros Hs. unfold decryptSecret.
  destruct (JSON_parse_base32 secret Hs) as [[e He]|[l Hl]].
  - rewrite He. reflexivity.
  - rewrite Hl. reflexivity.
Qed.

End TotpSecret.

Lemma legacy_totp_secret_passes_through_witness :
  @decryptSecret toy_host (js "service-role-key") (js "234567")
  = js "234567".
Proof.
  apply (@legacy_totp_secret_passes_through toy_host (js "service-role-key")
           (js "234567")).
  reflexivity.
Defined.

Section TotpRoundTrip.
Context {H : Host} {L : HostLaws H}.

Lemma encryptSecret_returns (masterKey secret : jsstring) (g : Rng) :
  encryptSecret masterKey secret g
  = (Returned
       (packed (b64_encode (map Z_of_byte (map entropy (seq g 12))))
               (b64_encode
                  (map Z_of_byte
                     (aes_gcm_encrypt (getEncryptionKey masterKey)
                        (map entropy (seq g 12)) (TextEncoder_encode secret))))),
     (g + 12)%nat).
Proof.
  unfold encryptSecret, getRandomValues. now rewrite !toBase64_returns.
Qed.

Lemma decryptSecret_encryptSecret (masterKey secret : jsstring) (g : Rng) :
  isWellFormed secret = true ->
  startsWith secret [BOM] = false ->
  aes_gcm_encrypt (getEncryptionKey masterKey) (map entropy (seq g 12))
                  (TextEncoder_encode secret) <> [] ->
  decryptSecret masterKey
    (packed (b64_encode (map Z_of_byte (map entropy (seq g 12))))
            (b64_encode
               (map Z_of_byte
                  (aes_gcm_encrypt (getEncryptionKey masterKey)
                     (map entropy (seq g 12)) (TextEncoder_encode secret)))))
  = secret.
Proof.
  intros Hwf Hb Hct.
  rewrite decryptSecret_packed by (assumption || discriminate).
  rewrite aes_gcm_correct by (now rewrite length_map, length_seq).
  now apply TextDecoder_TextEncoder_id.
Qed.

(** X18: the stored TOTP secret comes back.  [encryptSecret] never throws
    and returns the JSON text of a nonce and a ciphertext (not wrapped in
    base64, unlike the vault's envelope).  When the ciphertext has at least
    one byte (AES-GCM always appends its tag), [decryptSecret] under the
    same master key returns the secret, for every secret that is well
    formed and does not begin with U+FEFF.  Under a key for which AES-GCM
    rejects the ciphertext, [decryptSecret] does not fail: it returns the
    bundle's own text as if it were the secret. *)
Theorem totp_secret_roundtrip (masterKey secret : jsstring) (g : Rng) :
  isWellFormed secret = true ->
  startsWith secret [BOM] = false ->
  let iv := map entropy (seq g 12) in
  let ct := aes_gcm_encrypt (getEncryptionKey masterKey) iv
                            (TextEncoder_encode secret) in
  ct <> [] ->
  let bundle := packed (b64_encode (map Z_of_byte iv))
                       (b64_encode (map Z_of_byte ct)) in
  encryptSecret masterKey secret g = (Returned bundle, (g + 12)%nat)
  /\ decryptSecret masterKey bundle = secret
  /\ (forall otherKey,
        aes_gcm_decrypt (getEncryptionKey otherKey) iv ct = None ->
        decryptSecret otherKey bundle = bundle).
Proof.
  intros Hwf Hb iv ct Hct bundle.
  assert (Hiv : iv <> []) by discriminate.
  split; [|split].
  - apply encryptSecret_returns.
  - now apply decryptSecret_encryptSecret.
  - intros otherKey Hno. unfold bundle.
    rewrite decryptSecret_packed by assumption. now rewrite Hno.
Qed.

End TotpRoundTrip.

Lemma totp_secret_roundtrip_witness :
  let masterKey := js "service-role-key" in
  let secret := js "JBSWY3DPEHPK3PXP" in
  let iv := map (@entropy toy_host) (seq 0 12) in
  let ct := @aes_gcm_encrypt toy_host (@getEncryptionKey toy_host masterKey) iv
              (TextEncoder_encode secret) in
  let bundle := packed (b64_encode (map Z_of_byte iv))
                       (b64_encode (map Z_of_byte ct)) in
  @encryptSecret toy_host masterKey secret 0%nat
  = (Returned bundle, (0 + 12)%nat)
  /\ @decryptSecret toy_host masterKey bundle = secret
  /\ (forall otherKey,
        @aes_gcm_decrypt toy_host (@getEncryptionKey toy_host otherKey) iv ct
        = None ->
        @decryptSecret toy_host otherKey bundle = bundle).
Proof.
  apply (@totp_secret_roundtrip toy_host toy_host_laws (js "service-role-key")
           (js "JBSWY3DPEHPK3PXP") 0%nat).
  - reflexivity.
  - reflexivity.
  - vm_compute. discriminate.
Defined.

(** ** The TOTP request handler *)

Lemma totp_lookup_upsert (user_id : jsstring) (row : TotpRow) (table : TotpTable) :
  totp_lookup user_id (totp_upsert user_id row table) = Some row.
Proof.
  induction table as [|[u old] table IH]; cbn [totp_upsert totp_lookup].
  - now rewrite jsstring_eqb_refl.
  - destruct (jsstring_eqb u user_id) eqn:E; cbn [totp_lookup]; rewrite E;
      [reflexivity|exact IH].
Qed.

Section TotpHandlerProperties.
Context {H : Host}.
Variable totp_validate : jsstring -> jsstring -> Z -> Outcome (option Z).
Variable auth_getUser : jsstring -> option jsstring.
Variable masterKey : jsstring.

Lemma invalid_secret_false (secret : option json) :
  invalid_secret secret = false ->
  exists s, secret = Some (JString s) /\ s <> []
            /\ (List.length s <= 64)%nat.
Proof.
  unfold invalid_secret. intros Hs. apply orb_false_elim in Hs as [Ht Hl].
  destruct secret as [[| | |s| |]|]; try discriminate.
  exists s. split; [reflexivity|]. split.
  - intros ->. discriminate Ht.
  - destruct (Z.ltb_spec 64 (Z.of_nat (List.length s))); [discriminate|lia].
Qed.

Lemma invalid_code_false (code : option json) :
  invalid_code code = false ->
  exists c, code = Some (JString c) /\ six_digits c = true.
Proof.
  unfold invalid_code. intros Hc. apply orb_false_elim in Hc as [_ Hd].
  destruct code as [[| | |c| |]|]; try discriminate.
  exists c. split; [reflexivity|]. now destruct (six_digits c).
Qed.

(** X20: what the handler never does.  Whatever the request, the table of
    TOTP secrets is left as it was, except in two cases, both for a request
    whose Authorization header the auth service resolves to a user, and
    both touching the row of that user only: [verify-and-enable] with a
    secret of 1 to 64 code units and a code of exactly six digits that the
    TOTP check accepts for that secret (the row then holds the encrypted
    secret, enabled), and [disable].  In particular no row is written for a
    code that was not checked, and [disable] asks for no code. *)
Theorem totp_table_changes_only_when
  (fails : TotpFailures) (now : Z) (req : Request) (table : TotpTable) (g : Rng) :
  let result := serve totp_validate auth_getUser masterKey fails now req table g in
  let table' := snd (fst result) in
  table' = table
  \/ exists authHeader user_id,
       req_authorization req = Some authHeader
       /\ auth_getUser authHeader = Some user_id
       /\ resp_status (fst (fst result)) = 200
       /\ ((exists s c delta bundle,
              s <> [] /\ (List.length s <= 64)%nat /\ six_digits c = true
              /\ totp_validate s c now = Returned (Some delta)
              /\ fst (encryptSecret masterKey s g) = Returned bundle
              /\ table' = totp_upsert user_id (mkTotpRow bundle true) table)
           \/ table' = totp_disable user_id table).
Proof.
  cbn zeta. unfold serve.
  destruct (req_options req); [now left|].
  destruct (req_authorization req) as [authHeader|]; [|now left].
  destruct (truthy authHeader); cbn [negb]; [|now left].
  destruct (auth_getUser authHeader) as [user_id|] eqn:Hu; [|now left].
  destruct (read_body (req_body req)) as [[[action code] secret]|]; [|now left].
  destruct (is_action action "check-status"); [now left|].
  destruct (is_action action "verify-and-enable").
  - destruct (invalid_secret secret) eqn:Hs; [now left|].
    destruct (invalid_code code) eqn:Hc; [now left|].
    apply invalid_secret_false in Hs as (s & -> & Hne & Hlen).
    apply invalid_code_false in Hc as (c & -> & Hsix).
    cbn [ToString json_ToString].
    destruct (totp_validate s c now) as [[delta|]|] eqn:Hv; try (now left).
    destruct (encryptSecret masterKey s g) as [[bundle|] g'] eqn:He;
      [|now left].
    destruct (upsert_fails fails); [now left|].
    right. exists authHeader, user_id. cbn [fst snd resp_status json_response].
    split; [reflexivity|]. split; [exact Hu|]. split; [reflexivity|].
    left. exists s, c, delta, bundle.
    split; [exact Hne|]. split; [exact Hlen|]. split; [exact Hsix|].
    split; [exact Hv|]. split; [now rewrite He|reflexivity].
  - destruct (is_action action "verify").
    + destruct (invalid_code code); [now left|].
      destruct (if fetch_fails fails then None else totp_lookup user_id table)
        as [totpData|]; [|now left].
      destruct (totp_is_enabled totpData); [|now left].
      destruct (totp_validate _ _ now); now left.
    + destruct (is_action action "disable"); [|now left].
      destruct (update_fails fails); [now left|].
      right. exists authHeader, user_id. cbn [fst snd resp_status json_response].
      split; [reflexivity|]. split; [exact Hu|]. split; [reflexivity|].
      now right.
Qed.

Lemma check_status_answer
  (fails : TotpFailures) (now : Z) (authHeader : jsstring) (table : TotpTable)
  (g : Rng) :
  let result :=
    serve totp_validate auth_getUser masterKey fails now
          (check_status_request authHeader) table g in
  (fst (fst result) = error_response 401 "Unauthorized"
   \/ fst (fst result) = error_response 500 "Internal server error")
  /\ snd (fst result) = table.
Proof.
  cbn zeta. unfold serve, check_status_request.
  cbn [req_options req_authorization req_body].
  destruct (truthy authHeader); cbn [negb]; [|now split; [left|]].
  destruct (auth_getUser authHeader); [|now split; [left|]].
  change (read_body
            (JSON_stringify (JObject [(js "action", JString (js "check-status"))])))
    with (Returned (Some (JString (js "check-status")),
                    @None json, @None json)).
  cbv iota.
  change (is_action (Some (JString (js "check-status"))) "check-status") with true.
  cbv iota. now split; [right|].
Qed.

(** X22: signing in never asks for the second factor.  After the
    credentials were accepted the dialog asks the function for the status
    of 2FA.  The handler's branch for [check-status] reads [adminClient]
    above the [const] that declares it, so for a user the auth service
    accepts the answer is 500 (and 401 for one it does not); the dialog
    takes any answer that is not 2xx as a status it cannot read, and goes
    on: whatever the table holds, even a row of this user with 2FA enabled,
    the sign-in completes without the six-digit code, and the table is left
    as it was. *)
Theorem sign_in_never_asks_for_totp
  (fails : TotpFailures) (now : Z) (authHeader : jsstring) (table : TotpTable)
  (g : Rng) :
  let result :=
    serve totp_validate auth_getUser masterKey fails now
          (check_status_request authHeader) table g in
  handleSubmit_signIn false (fst (fst result)) = SignedIn
  /\ (forall user_id, truthy authHeader = true ->
        auth_getUser authHeader = Some user_id ->
        resp_status (fst (fst result)) = 500)
  /\ snd (fst result) = table.
Proof.
  cbn zeta.
  destruct (check_status_answer fails now authHeader table g) as [Hr Ht].
  cbn zeta in Hr, Ht. split; [|split; [|exact Ht]].
  - destruct Hr as [-> | ->]; reflexivity.
  - intros user_id Hh Hu. unfold serve, check_status_request.
    cbn [req_options req_authorization req_body]. rewrite Hh, Hu. reflexivity.
Qed.

End TotpHandlerProperties.

Section TotpEnrolment.
Context {H : Host} {L : HostLaws H}.
Variable totp_validate : jsstring -> jsstring -> Z -> Outcome (option Z).
Variable auth_getUser : jsstring -> option jsstring.
Variable masterKey : jsstring.

(** X21: a code is verified against the secret that was enrolled.  After a
    [verify-and-enable] that succeeded for a user with a secret [s] (well
    formed, not beginning with U+FEFF; the ciphertext not empty), the
    user's row is enabled and holds the JSON text of a nonce and a
    ciphertext, which [decryptSecret] turns back into [s]; and
    a later [verify] of the same user with a six-digit code, the table
    answering, gives 200 with [valid] true exactly when the TOTP check
    accepts that code for [s] at that time, and 500 when the check throws. *)
Theorem enable_then_verify
  (fails : TotpFailures) (now now' : Z) (req req' : Request) (table : TotpTable)
  (g : Rng) (authHeader authHeader' user_id s c c' : jsstring) (delta : Z) :
  req_options req = false ->
  req_authorization req = Some authHeader ->
  truthy authHeader = true ->
  auth_getUser authHeader = Some user_id ->
  read_body (req_body req)
  = Returned (Some (JString (js "verify-and-enable")),
              Some (JString c), Some (JString s)) ->
  s <> [] -> (List.length s <= 64)%nat -> six_digits c = true ->
  isWellFormed s = true -> startsWith s [BOM] = false ->
  aes_gcm_encrypt (getEncryptionKey masterKey) (map entropy (seq g 12))
                  (TextEncoder_encode s) <> [] ->
  totp_validate s c now = Returned (Some delta) ->
  upsert_fails fails = false ->
  fetch_fails fails = false ->
  req_options req' = false ->
  req_authorization req' = Some authHeader' ->
  truthy authHeader' = true ->
  auth_getUser authHeader' = Some user_id ->
  read_body (req_body req')
  = Returned (Some (JString (js "verify")), Some (JString c'), None) ->
  six_digits c' = true ->
  let '(resp, table1, g1) :=
    serve totp_validate auth_getUser masterKey fails now req table g in
  resp = json_response 200 (JObject [(js "success", JBool true)])
  /\ (exists bundle,
        totp_lookup user_id table1 = Some (mkTotpRow bundle true)
        /\ bundle
           = packed (b64_encode (map Z_of_byte (map entropy (seq g 12))))
                    (b64_encode
                       (map Z_of_byte
                          (aes_gcm_encrypt (getEncryptionKey masterKey)
                             (map entropy (seq g 12)) (TextEncoder_encode s))))
        /\ decryptSecret masterKey bundle = s)
  /\ serve totp_validate auth_getUser masterKey fails now' req' table1 g1
     = (match totp_validate s c' now' with
        | Returned (Some _) =>
            json_response 200 (JObject [(js "valid", JBool true)])
        | Returned None =>
            json_response 200 (JObject [(js "valid", JBool false)])
        | Thrown _ => error_response 500 "Internal server error"
        end,
        table1, g1).
Proof.
  intros Ho Ha Ht Hu Hb Hne Hlen Hsix Hwf Hbom Hct Hv Hup Hfetch
         Ho' Ha' Ht' Hu' Hb' Hsix'.
  pose proof (encryptSecret_returns masterKey s g) as Henc.
  pose proof (decryptSecret_encryptSecret masterKey s g Hwf Hbom Hct) as Hdec.
  unfold serve at 1. rewrite Ho, Ha, Ht, Hu, Hb.
  change (is_action (Some (JString (js "verify-and-enable"))) "check-status")
    with false.
  change (is_action (Some (JString (js "verify-and-enable"))) "verify-and-enable")
    with true.
  cbn [negb]. cbv iota.
  assert (Hs : invalid_secret (Some (JString s)) = false).
  { unfold invalid_secret. cbn [json_truthy].
    destruct s; [congruence|]. cbn [truthy negb orb].
    destruct (Z.ltb_spec 64 (Z.of_nat (List.length (z :: s)))); [lia|reflexivity]. }
  assert (Hc : forall c0, six_digits c0 = true ->
                          invalid_code (Some (JString c0)) = false).
  { intros c0 H0. unfold invalid_code. cbn [json_truthy]. rewrite H0.
    destruct c0; [discriminate H0|reflexivity]. }
  rewrite Hs, (Hc c Hsix). cbn [ToString json_ToString].
  rewrite Hv, Henc, Hup.
  split; [reflexivity|]. split.
  - eexists. split; [apply totp_lookup_upsert|]. split; [reflexivity|exact Hdec].
  - unfold serve. rewrite Ho', Ha', Ht', Hu', Hb'.
    change (is_action (Some (JString (js "verify"))) "check-status") with false.
    change (is_action (Some (JString (js "verify"))) "verify-and-enable")
      with false.
    change (is_action (Some (JString (js "verify"))) "verify") with true.
    cbn [negb]. cbv iota.
    rewrite (Hc c' Hsix'), Hfetch, totp_lookup_upsert.
    cbn [totp_is_enabled totp_secret ToString json_ToString]. rewrite Hdec.
    destruct (totp_validate s c' now') as [[d|]|]; reflexivity.
Qed.

End TotpEnrolment.

Lemma enable_then_verify_witness :
  let fails := mkTotpFailures false false false in
  let req := mkRequest false (Some (js "Bearer user42"))
               (jsq "{'action':'verify-and-enable','code':'123456','secret':'JBSWY3DPEHPK3PXP'}") in
  let req' := mkRequest false (Some (js "Bearer user42"))
                (jsq "{'action':'verify','code':'654321'}") in
  let s := js "JBSWY3DPEHPK3PXP" in
  let masterKey := js "service-role-key" in
  let '(resp, table1, g1) :=
    @serve toy_host toy_totp_validate toy_getUser masterKey fails 1000 req []
           0%nat in
  resp = json_response 200 (JObject [(js "success", JBool true)])
  /\ (exists bundle,
        totp_lookup (js "user42") table1 = Some (mkTotpRow bundle true)
        /\ bundle
           = packed (b64_encode (map Z_of_byte (map (@entropy toy_host) (seq 0 12))))
                    (b64_encode
                       (map Z_of_byte
                          (@aes_gcm_encrypt toy_host
                             (@getEncryptionKey toy_host masterKey)
                             (map (@entropy toy_host) (seq 0 12))
                             (TextEncoder_encode s))))
        /\ @decryptSecret toy_host masterKey bundle = s)
  /\ @serve toy_host toy_totp_validate toy_getUser masterKey fails 31000 req'
            table1 g1
     = (match toy_totp_validate s (js "654321") 31000 with
        | Returned (Some _) =>
            json_response 200 (JObject [(js "valid", JBool true)])
        | Returned None =>
            json_response 200 (JObject [(js "valid", JBool false)])
        | Thrown _ => error_response 500 "Internal server error"
        end,
        table1, g1).
Proof.
  apply (@enable_then_verify toy_host toy_host_laws toy_totp_validate
           toy_getUser (js "service-role-key")
           (mkTotpFailures false false false) 1000 31000
           (mkRequest false (Some (js "Bearer user42"))
              (jsq "{'action':'verify-and-enable','code':'123456','secret':'JBSWY3DPEHPK3PXP'}"))
           (mkRequest false (Some (js "Bearer user42"))
              (jsq "{'action':'verify','code':'654321'}"))
           [] 0%nat (js "Bearer user42") (js "Bearer user42") (js "user42")
           (js "JBSWY3DPEHPK3PXP") (js "123456") (js "654321") 0);
    try (vm_compute; reflexivity); try discriminate; try (cbn; lia).
Defined.

(** ** The password generator *)

Lemma password_chars_alphabet (options : GeneratorOptions) :
  (0 < List.length (password_chars options))%nat
  /\ (includeLetters options || includeNumbers options || includeSymbols options
      = true ->
      forallb (asked_for options) (password_chars options) = true)
  /\ (includeLetters options || includeNumbers options || includeSymbols options
      = false ->
      password_chars options = LOWERCASE ++ UPPERCASE).
Proof.
  destruct options as [n [|] [|] [|] [|] [|]];
    (split; [vm_compute; lia|]); split; intros Hf;
    try discriminate Hf; vm_compute; reflexivity.
Qed.

Lemma nth_mod_In (chars : jsstring) (v : Z) :
  (0 < List.length chars)%nat ->
  In (nth (Z.to_nat (v mod Z.of_nat (List.length chars))) chars 0) chars.
Proof.
  intros Hl. apply nth_In.
  assert (0 <= v mod Z.of_nat (List.length chars) < Z.of_nat (List.length chars))
    by (apply Z.mod_pos_bound; lia).
  lia.
Qed.

Section GeneratorProperties.
Context {H : Host}.

Lemma length_uint32s (n g : nat) : List.length (uint32s n g) = n.
Proof.
  revert g. induction n as [|n IH]; intros g; [reflexivity|].
  cbn [uint32s List.length]. now rewrite IH.
Qed.

(** X23: the generated password.  For a length of at most 16384 (a larger
    array makes [getRandomValues] throw), [generatePassword] draws four
    random bytes for every character and returns a password of exactly the
    length asked for, every character of which is in the alphabet of the
    options.  When letters, numbers or symbols are asked for, every
    character of that alphabet is of a class that was asked for and, if
    ambiguous or similar characters are excluded, is none of them.  When no
    class is asked for, the alphabet falls back to all 52 letters and the
    two exclusions are not applied to it: the password may then contain
    the letters l, I and O even though they were excluded. *)
Theorem generatePassword_respects_options (options : GeneratorOptions) (g : Rng) :
  Z.of_nat (opt_length options) <= 16384 ->
  exists password,
    generatePassword options g
    = (Some password, (g + 4 * opt_length options)%nat)
    /\ List.length password = opt_length options
    /\ Forall (fun c => In c (password_chars options)) password
    /\ (includeLetters options || includeNumbers options
        || includeSymbols options = true ->
        forallb (asked_for options) password = true)
    /\ (includeLetters options || includeNumbers options
        || includeSymbols options = false ->
        password_chars options = LOWERCASE ++ UPPERCASE).
Proof.
  intros Hn. destruct (password_chars_alphabet options) as (Hlen & Hsome & Hnone).
  unfold generatePassword, getRandomUint32s.
  destruct (Z.ltb_spec 65536 (4 * Z.of_nat (opt_length options))); [lia|].
  eexists. split; [reflexivity|].
  split; [now rewrite length_map, length_uint32s|].
  assert (Hin : Forall (fun c => In c (password_chars options))
                  (map (fun v =>
                          nth (Z.to_nat
                                 (v mod Z.of_nat (List.length (password_chars options))))
                              (password_chars options) 0)
                       (uint32s (opt_length options) g))).
  { apply Forall_forall. intros c Hc. apply in_map_iff in Hc as (v & <- & _).
    now apply nth_mod_In. }
  split; [exact Hin|]. split; [|exact Hnone].
  intros Hf. specialize (Hsome Hf). apply forallb_forall. intros c Hc.
  rewrite Forall_forall in Hin. rewrite forallb_forall in Hsome.
  apply Hsome. now apply Hin.
Qed.

End GeneratorProperties.

Lemma generatePassword_respects_options_witness :
  let options := mkGeneratorOptions 12 false true false true true in
  exists password,
    @generatePassword toy_host options 0%nat
    = (Some password, (0 + 4 * opt_length options)%nat)
    /\ List.length password = opt_length options
    /\ Forall (fun c => In c (password_chars options)) password
    /\ (includeLetters options || includeNumbers options
        || includeSymbols options = true ->
        forallb (asked_for options) password = true)
    /\ (includeLetters options || includeNumbers options
        || includeSymbols options = false ->
        password_chars options = LOWERCASE ++ UPPERCASE).
Proof.
  apply (@generatePassword_respects_options toy_host
           (mkGeneratorOptions 12 false true false true true) 0%nat).
  cbn. lia.
Defined.

(** ** The strength meter *)

Lemma add_if_b2z (test : bool) (n score : Z) :
  add_if test n score = score + n * Z.b2z test.
Proof. destruct test; cbn [add_if Z.b2z]; lia. Qed.

Lemma b2z_range (b : bool) : 0 <= Z.b2z b <= 1.
Proof. destruct b; cbn; lia. Qed.

Lemma forallb_existsb_disjoint (P Q : Z -> bool) (s : jsstring) :
  (forall c, P c = true -> Q c = false) ->
  forallb P s = true -> existsb Q s = false.
Proof.
  intros Hd. induction s as [|c s IH]; [reflexivity|].
  cbn [forallb existsb]. intros Hs. apply andb_prop in Hs as [Hc Hs].
  now rewrite (Hd c Hc), IH.
Qed.

Lemma digit_classes (c : Z) :
  is_digit c = true ->
  is_lower c = false /\ is_upper c = false /\ is_letter c = false
  /\ negb (is_alnum c) = false.
Proof.
  unfold is_alnum, is_letter, is_lower, is_upper, is_digit.
  intros Hc. revert Hc. decide_cmp; cbn; intros Hc; try discriminate;
    repeat split; reflexivity.
Qed.

Lemma letter_classes (c : Z) :
  is_letter c = true -> is_digit c = false /\ negb (is_alnum c) = false.
Proof.
  unfold is_alnum, is_letter, is_lower, is_upper, is_digit.
  intros Hc. revert Hc. decide_cmp; cbn; intros Hc; try discriminate;
    repeat split; reflexivity.
Qed.

(** The score before it is brought between 0 and 8. *)
Lemma calculateStrength_score (password : jsstring) :
  let len := Z.of_nat (List.length password) in
  score (calculateStrength password)
  = Z.max 0
      (Z.min
         (Z.b2z (8 <=? len) + Z.b2z (12 <=? len) + Z.b2z (16 <=? len)
          + Z.b2z (20 <=? len)
          + Z.b2z (existsb is_lower password)
          + Z.b2z (existsb is_upper password)
          + Z.b2z (existsb is_digit password)
          + Z.b2z (existsb (fun c => negb (is_alnum c)) password)
          - Z.b2z (truthy password && forallb is_letter password)
          - 2 * Z.b2z (truthy password && forallb is_digit password)
          - Z.b2z (has_repeat password))
         8).
Proof.
  cbn zeta. unfold calculateStrength. cbn [score].
  rewrite !add_if_b2z. f_equal. f_equal. lia.
Qed.

Lemma calculateStrength_label (password : jsstring) :
  label (calculateStrength password)
  = if score (calculateStrength password) <=? 3 then Weak
    else if score (calculateStrength password) <=? 5 then Medium else Strong.
Proof. reflexivity. Qed.

(** X24: what the strength meter can say.  The score is between 0 and 8.
    A password of digits only is weak, however long.  A password of letters
    only is never strong, and neither is a password of fewer than 12
    characters, whatever it is made of.  A password of 16 characters or
    more with a lower-case letter, an upper-case letter, a digit and a
    symbol is always strong, repeated characters or not. *)
Theorem strength_limits (password : jsstring) :
  let r := calculateStrength password in
  0 <= score r <= 8
  /\ (password <> [] -> forallb is_digit password = true -> label r = Weak)
  /\ (forallb is_letter password = true -> label r <> Strong)
  /\ ((List.length password < 12)%nat -> label r <> Strong)
  /\ ((16 <= List.length password)%nat ->
      existsb is_lower password = true ->
      existsb is_upper password = true ->
      existsb is_digit password = true ->
      existsb (fun c => negb (is_alnum c)) password = true ->
      label r = Strong).
Proof.
  cbn zeta. rewrite calculateStrength_label, calculateStrength_score. cbn zeta.
  pose proof (b2z_range (8 <=? Z.of_nat (List.length password))) as B8.
  pose proof (b2z_range (12 <=? Z.of_nat (List.length password))) as B12.
  pose proof (b2z_range (16 <=? Z.of_nat (List.length password))) as B16.
  pose proof (b2z_range (20 <=? Z.of_nat (List.length password))) as B20.
  pose proof (b2z_range (existsb is_lower password)) as Bl.
  pose proof (b2z_range (existsb is_upper password)) as Bu.
  pose proof (b2z_range (existsb is_digit password)) as Bd.
  pose proof (b2z_range (existsb (fun c => negb (is_alnum c)) password)) as Bs.
  pose proof (b2z_range (truthy password && forallb is_letter password)) as Pl.
  pose proof (b2z_range (truthy password && forallb is_digit password)) as Pd.
  pose proof (b2z_range (has_repeat password)) as Pr.
  split; [lia|]. split; [|split; [|split]].
  - intros Hne Hd.
    rewrite (forallb_existsb_disjoint is_digit is_lower password) in *
      by (intros c Hc; apply (digit_classes c Hc)) || exact Hd.
    rewrite (forallb_existsb_disjoint is_digit is_upper password) in *
      by (intros c Hc; apply (digit_classes c Hc)) || exact Hd.
    rewrite (forallb_existsb_disjoint is_digit (fun c => negb (is_alnum c)) password) in *
      by (intros c Hc; apply (digit_classes c Hc)) || exact Hd.
    rewrite Hd in *.
    replace (truthy password) with true in * by (now destruct password).
    cbn [andb Z.b2z] in *.
    destruct (Z.leb_spec
      (Z.max 0 (Z.min (Z.b2z (8 <=? Z.of_nat (List.length password))
         + Z.b2z (12 <=? Z.of_nat (List.length password))
         + Z.b2z (16 <=? Z.of_nat (List.length password))
         + Z.b2z (20 <=? Z.of_nat (List.length password)) + 0 + 0
         + Z.b2z (existsb is_digit password) + 0
         - Z.b2z (forallb is_letter password) - 2 * 1
         - Z.b2z (has_repeat password)) 8)) 3); [reflexivity|].
    pose proof (b2z_range (forallb is_letter password)). lia.
  - intros Hl.
    rewrite (forallb_existsb_disjoint is_letter is_digit password) in *
      by (intros c Hc; apply (letter_classes c Hc)) || exact Hl.
    rewrite (forallb_existsb_disjoint is_letter (fun c => negb (is_alnum c)) password) in *
      by (intros c Hc; apply (letter_classes c Hc)) || exact Hl.
    rewrite Hl in *. rewrite andb_true_r in *.
    destruct password as [|c password].
    + cbn. discriminate.
    + cbn [truthy Z.b2z] in *.
      repeat match goal with
             | |- context [?a <=? ?b] =>
                 lazymatch a with
                 | Z.max _ _ => destruct (Z.leb_spec a b)
                 end
             end; try discriminate. lia.
  - intros Hlen.
    destruct (Z.leb_spec 12 (Z.of_nat (List.length password))); [lia|].
    destruct (Z.leb_spec 16 (Z.of_nat (List.length password))); [lia|].
    destruct (Z.leb_spec 20 (Z.of_nat (List.length password))); [lia|].
    cbn [Z.b2z] in *.
    repeat match goal with
           | |- context [?a <=? ?b] =>
               lazymatch a with
               | Z.max _ _ => destruct (Z.leb_spec a b)
               end
           end; try discriminate. lia.
  - intros Hlen Hl Hu Hd Hs. rewrite Hl, Hu, Hd, Hs in *.
    destruct (Z.leb_spec 8 (Z.of_nat (List.length password))); [|lia].
    destruct (Z.leb_spec 12 (Z.of_nat (List.length password))); [|lia].
    destruct (Z.leb_spec 16 (Z.of_nat (List.length password))); [|lia].
    assert (Hnl : forallb is_letter password = false).
    { destruct (forallb is_letter password) eqn:E; [|reflexivity].
      now rewrite (forallb_existsb_disjoint is_letter is_digit password) in Hd
        by (intros c Hc; apply (letter_classes c Hc)) || exact E. }
    assert (Hnd : forallb is_digit password = false).
    { destruct (forallb is_digit password) eqn:E; [|reflexivity].
      now rewrite (forallb_existsb_disjoint is_digit is_lower password) in Hl
        by (intros c Hc; apply (digit_classes c Hc)) || exact E. }
    rewrite Hnl, Hnd, !andb_false_r in *. cbn [Z.b2z] in *.
    repeat match goal with
           | |- context [?a <=? ?b] =>
               lazymatch a with
               | Z.max _ _ => destruct (Z.leb_spec a b)
               end
           end; try reflexivity; lia.
Qed.
Lemma strength_limits_witness :
  label (calculateStrength (js "31415926535897932384626433")) = Weak
  /\ label (calculateStrength (js "correcthorsebatterystaple")) <> Strong
  /\ label (calculateStrength (js "aB3$efgh")) <> Strong
  /\ label (calculateStrength (js "aaaaB3$aaaaaaaaa")) = Strong.
Proof.
  split; [|split; [|split]].
  - apply (proj1 (proj2 (strength_limits (js "31415926535897932384626433"))));
      [discriminate|reflexivity].
  - apply (proj1 (proj2 (proj2 (strength_limits (js "correcthorsebatterystaple"))))).
    reflexivity.
  - apply (proj1 (proj2 (proj2 (proj2 (strength_limits (js "aB3$efgh")))))).
    cbn. lia.
  - apply (proj2 (proj2 (proj2 (proj2 (strength_limits (js "aaaaB3$aaaaaaaaa"))))));
      reflexivity.
Defined.

(** ** The passphrase *)

Lemma capitalised_words :
  forallb (fun w => passphrase_word (capitalise w)) WORDS = true.
Proof. vm_compute. reflexivity. Qed.

Lemma has_repeat_cons (x c : Z) (rest : jsstring) :
  x <> c -> has_repeat (x :: c :: rest) = has_repeat (c :: rest).
Proof.
  intros Hx. cbn [has_repeat]. destruct rest as [|d rest]; [reflexivity|].
  destruct (Z.eqb_spec x c); [contradiction|].
  now rewrite andb_false_r.
Qed.

(** A text with no repeat, followed by a character that is not its last
    one: the repeats are those of what follows. *)
Lemma has_repeat_app (w : jsstring) (x : Z) (rest : jsstring) :
  has_repeat w = false -> last w (x + 1) <> x ->
  has_repeat (w ++ x :: rest) = has_repeat (x :: rest).
Proof.
  induction w as [| a | a b w IHw IHb] using list_pair_ind; intros Hw Hl.
  - reflexivity.
  - cbn [last] in Hl. cbn [app]. now apply has_repeat_cons.
  - change (last (a :: b :: w) (x + 1)) with (last (b :: w) (x + 1)) in Hl.
    change ((a :: b :: w) ++ x :: rest) with (a :: b :: (w ++ x :: rest)).
    destruct w as [|c w].
    + cbn [app]. cbn [last] in Hl.
      change (has_repeat (a :: b :: x :: rest))
        with ((negb (is_line_terminator a) && (a =? b) && (b =? x))
              || has_repeat (b :: x :: rest)).
      destruct (Z.eqb_spec b x); [contradiction|].
      rewrite andb_false_r. cbn [orb]. now apply has_repeat_cons.
    + change (has_repeat (a :: b :: c :: w))
        with ((negb (is_line_terminator a) && (a =? b) && (b =? c))
              || has_repeat (b :: c :: w)) in Hw.
      apply orb_false_elim in Hw as [Hw1 Hw2].
      change (has_repeat (a :: b :: (c :: w) ++ x :: rest))
        with ((negb (is_line_terminator a) && (a =? b) && (b =? c))
              || has_repeat ((b :: c :: w) ++ x :: rest)).
      rewrite Hw1. cbn [orb]. now apply IHb.
Qed.

Lemma passphrase_word_facts (w : jsstring) :
  passphrase_word w = true ->
  exists c rest,
    w = c :: rest /\ is_upper c = true /\ forallb is_lower rest = true
    /\ (3 <= List.length rest <= 5)%nat /\ has_repeat w = false.
Proof.
  unfold passphrase_word. destruct w as [|c rest]; [discriminate|].
  intros Hw. apply andb_prop in Hw as [Hw Hr]. apply andb_prop in Hw as [Hw H5].
  apply andb_prop in Hw as [Hw H3]. apply andb_prop in Hw as [Hu Hl].
  exists c, rest. repeat split; try assumption.
  - apply Z.leb_le in H3. lia.
  - apply Z.leb_le in H5. lia.
  - now destruct (has_repeat (c :: rest)).
Qed.

Lemma lower_not_hyphen (c : Z) : is_lower c = true -> c <> 45.
Proof. unfold is_lower. intros Hc ->. discriminate Hc. Qed.

Lemma upper_not_hyphen (c : Z) : is_upper c = true -> c <> 45.
Proof. unfold is_upper. intros Hc ->. discriminate Hc. Qed.

Lemma last_lower (rest : jsstring) (c d : Z) :
  forallb is_lower rest = true -> rest <> [] ->
  is_lower (last (c :: rest) d) = true.
Proof.
  revert c. induction rest as [|a rest IH]; intros c Hl Hne; [congruence|].
  cbn [forallb] in Hl. apply andb_prop in Hl as [Ha Hl].
  change (last (c :: a :: rest) d) with (last (a :: rest) d).
  destruct rest as [|b rest]; [exact Ha|]. apply IH; [exact Hl|discriminate].
Qed.

(** What the strength meter looks at, in a passphrase of words joined by
    hyphens. *)
Lemma join_hyphen_facts (ws : list jsstring) :
  ws <> [] ->
  Forall (fun w => passphrase_word w = true) ws ->
  let p := join_hyphen ws in
  has_repeat p = false
  /\ existsb is_lower p = true
  /\ existsb is_upper p = true
  /\ existsb is_digit p = false
  /\ (exists c rest, p = c :: rest /\ is_upper c = true)
  /\ (5 * List.length ws - 1 <= List.length p <= 7 * List.length ws - 1)%nat
  /\ ((2 <= List.length ws)%nat ->
      existsb (fun c => negb (is_alnum c)) p = true).
Proof.
  intros Hne Hws. cbn zeta.
  induction Hws as [|w ws Hw Hws IH]; [congruence|]. clear Hne.
  apply passphrase_word_facts in Hw as (c & rest & -> & Hu & Hl & Hlen & Hr).
  assert (Hrest : rest <> []) by (destruct rest; [cbn in Hlen; lia|discriminate]).
  assert (Hlow : existsb is_lower (c :: rest) = true).
  { destruct rest as [|a rest]; [congruence|].
    cbn [forallb] in Hl. apply andb_prop in Hl as [Ha _].
    cbn [existsb]. rewrite Ha. now rewrite orb_true_r. }
  assert (Hdig : existsb is_digit (c :: rest) = false).
  { cbn [existsb]. apply orb_false_intro.
    - unfold is_upper in Hu. unfold is_digit. revert Hu. decide_cmp; cbn; congruence.
    - apply (forallb_existsb_disjoint is_lower is_digit); [|exact Hl].
      intros a Ha. unfold is_lower in Ha. unfold is_digit.
      revert Ha. decide_cmp; cbn; congruence. }
  destruct ws as [|w2 ws].
  - cbn [join_hyphen]. split; [exact Hr|]. split; [exact Hlow|].
    split; [cbn [existsb]; now rewrite Hu|]. split; [exact Hdig|].
    split; [exists c, rest; now split|].
    cbn [List.length]. split; lia.
  - specialize (IH ltac:(discriminate)).
    destruct IH as (IHr & IHl & IHu & IHd & (c2 & rest2 & Hp2 & Hu2) & IHlen & _).
    change (join_hyphen ((c :: rest) :: w2 :: ws))
      with ((c :: rest) ++ 45 :: join_hyphen (w2 :: ws)).
    split; [|split; [|split; [|split; [|split; [|split]]]]].
    + rewrite has_repeat_app; [|exact Hr|].
      * rewrite Hp2, has_repeat_cons by (apply not_eq_sym; now apply upper_not_hyphen).
        now rewrite <- Hp2.
      * apply lower_not_hyphen. now apply last_lower.
    + rewrite existsb_app, Hlow. reflexivity.
    + cbn [app existsb]. now rewrite Hu.
    + rewrite existsb_app, Hdig. cbn [existsb orb].
      change (is_digit 45) with false. exact IHd.
    + exists c, (rest ++ 45 :: join_hyphen (w2 :: ws)). now split.
    + rewrite length_app. cbn [List.length] in *. lia.
    + intros _. rewrite existsb_app. cbn [existsb].
      change (negb (is_alnum 45)) with true. cbn [orb]. now rewrite orb_true_r.
Qed.

Lemma nth_word (v : Z) :
  passphrase_word
    (capitalise (nth (Z.to_nat (v mod Z.of_nat (List.length WORDS))) WORDS []))
  = true.
Proof.
  pose proof capitalised_words as Hc. rewrite forallb_forall in Hc.
  apply Hc. apply nth_In.
  assert (0 <= v mod Z.of_nat (List.length WORDS) < Z.of_nat (List.length WORDS))
    by (apply Z.mod_pos_bound; vm_compute; reflexivity).
  lia.
Qed.

Section PassphraseProperties.
Context {H : Host}.

(** X27: a passphrase is rated strong.  For 4 words or more (and at most
    16384), [generatePassphrase] returns that many words of the list, each
    with its first letter a capital, joined by hyphens: between 5 and 7
    characters a word, hyphen included.  Whatever the random source gives,
    the strength meter rates the result strong: it has 19 characters or
    more, a capital letter, small letters and a hyphen, no digit, and no
    character three times in a row. *)
Theorem passphrase_is_strong (wordCount : nat) (g : Rng) :
  (4 <= wordCount)%nat -> Z.of_nat wordCount <= 16384 ->
  exists p,
    generatePassphrase wordCount g = (Some p, (g + 4 * wordCount)%nat)
    /\ (5 * wordCount - 1 <= List.length p <= 7 * wordCount - 1)%nat
    /\ label (calculateStrength p) = Strong
    /\ feedback (calculateStrength p) = [].
Proof.
  intros Hn4 Hn. unfold generatePassphrase, getRandomUint32s.
  destruct (Z.ltb_spec 65536 (4 * Z.of_nat wordCount)); [lia|].
  eexists. split; [reflexivity|].
  set (ws := map (fun v =>
                    capitalise
                      (nth (Z.to_nat (v mod Z.of_nat (List.length WORDS)))
                           WORDS []))
                 (uint32s wordCount g)).
  assert (Hlen : List.length ws = wordCount)
    by (unfold ws; now rewrite length_map, length_uint32s).
  assert (Hws : Forall (fun w => passphrase_word w = true) ws).
  { unfold ws. apply Forall_forall. intros w Hw.
    apply in_map_iff in Hw as (v & <- & _). apply nth_word. }
  assert (Hne : ws <> []) by (intros E; rewrite E in Hlen; cbn in Hlen; lia).
  destruct (join_hyphen_facts ws Hne Hws)
    as (Hr & Hl & Hu & Hd & (c & rest & Hp & Hc) & Hlp & Hs).
  rewrite Hlen in Hlp, Hs. specialize (Hs ltac:(lia)).
  split; [exact Hlp|].
  assert (Hnl : forallb is_letter (join_hyphen ws) = false).
  { destruct (forallb is_letter (join_hyphen ws)) eqn:E; [|reflexivity].
    now rewrite (forallb_existsb_disjoint is_letter
                   (fun c => negb (is_alnum c)) (join_hyphen ws)) in Hs
      by (intros a Ha; apply (letter_classes a Ha)) || exact E. }
  assert (Hnd : forallb is_digit (join_hyphen ws) = false).
  { destruct (forallb is_digit (join_hyphen ws)) eqn:E; [|reflexivity].
    now rewrite (forallb_existsb_disjoint is_digit is_lower (join_hyphen ws)) in Hl
      by (intros a Ha; apply (digit_classes a Ha)) || exact E. }
  split.
  - rewrite calculateStrength_label, calculateStrength_score. cbn zeta.
    rewrite Hl, Hu, Hd, Hs, Hr, Hnl, Hnd, !andb_false_r.
    destruct (Z.leb_spec 8 (Z.of_nat (List.length (join_hyphen ws)))); [|lia].
    destruct (Z.leb_spec 12 (Z.of_nat (List.length (join_hyphen ws)))); [|lia].
    destruct (Z.leb_spec 16 (Z.of_nat (List.length (join_hyphen ws)))); [|lia].
    pose proof (b2z_range (20 <=? Z.of_nat (List.length (join_hyphen ws)))).
    cbn [Z.b2z] in *.
    repeat match goal with
           | |- context [?a <=? ?b] =>
               lazymatch a with
               | Z.max _ _ => destruct (Z.leb_spec a b)
               end
           end; try reflexivity; lia.
  - unfold calculateStrength. cbn [feedback].
    rewrite Hr, Hnl, Hnd, !andb_false_r. unfold push_if.
    destruct (Z.ltb_spec (Z.of_nat (List.length (join_hyphen ws))) 8); [lia|].
    destruct (Z.ltb_spec (Z.of_nat (List.length (join_hyphen ws))) 12); [lia|].
    reflexivity.
Qed.

End PassphraseProperties.

Lemma passphrase_is_strong_witness :
  exists p,
    @generatePassphrase toy_host 4 0%nat = (Some p, (0 + 4 * 4)%nat)
    /\ (5 * 4 - 1 <= List.length p <= 7 * 4 - 1)%nat
    /\ label (calculateStrength p) = Strong
    /\ feedback (calculateStrength p) = [].
Proof.
  apply (@passphrase_is_strong toy_host 4 0%nat).
  - cbn. lia.
  - cbn. lia.
Defined.

(** ** The scopes of the vault keys *)

Lemma TextEncoder_injective (a b : jsstring) :
  isWellFormed a = true -> startsWith a [BOM] = false ->
  isWellFormed b = true -> startsWith b [BOM] = false ->
  TextEncoder_encode a = TextEncoder_encode b -> a = b.
Proof.
  intros Ha Hab Hb Hbb Heq.
  rewrite <- (TextDecoder_TextEncoder_id a Ha Hab).
  rewrite <- (TextDecoder_TextEncoder_id b Hb Hbb).
  now rewrite Heq.
Qed.

(** X25: the keys of the vault are separated by their salts.  The salt of
    the cloud key and the salt of a local key are never the same bytes,
    whatever the user id and the master password (even a master password
    equal to the user id gives two different derivations); and the local
    keys of two well-formed scopes have the same salt only when the scopes
    are equal, so the key made while signed out (scope [anonymous]) is not
    the key made under a user id. *)
Theorem vault_key_scopes_differ (userId masterPassword uid uid' : jsstring) :
  let salt (call : DeriveKeyCall) := kdf_salt (dk_algorithm call) in
  salt (deriveAesKey_call userId (js "cloud-" ++ userId))
  <> salt (deriveAesKey_call masterPassword (js "local-" ++ uid))
  /\ (isWellFormed uid = true -> isWellFormed uid' = true ->
      salt (deriveAesKey_call masterPassword (js "local-" ++ uid))
      = salt (deriveAesKey_call masterPassword (js "local-" ++ uid')) ->
      uid = uid').
Proof.
  cbn zeta. unfold deriveAesKey_call. cbn [dk_algorithm kdf_salt]. split.
  - intros Heq. apply (f_equal (fun l => nth 15 l x00)) in Heq.
    vm_compute in Heq. discriminate Heq.
  - intros Hu Hu' Heq.
    apply TextEncoder_injective in Heq; try reflexivity.
    + apply app_inv_head in Heq. now apply app_inv_head in Heq.
    + apply (isWellFormed_app (APP_SALT_PREFIX ++ js "local-")) in Hu;
        [|reflexivity]. now rewrite <- app_assoc in Hu.
    + apply (isWellFormed_app (APP_SALT_PREFIX ++ js "local-")) in Hu';
        [|reflexivity]. now rewrite <- app_assoc in Hu'.
Qed.

(** ** The base64 helpers *)

(** X26: the three pairs of base64 helpers are inverse to each other on
    every buffer: [ab2b64] and [b642ab] of the vault, [arrayBufferToBase64]
    and [base64ToArrayBuffer] of the sharing codec, [toBase64] and
    [fromBase64] of the TOTP function.  Encoding never throws (every
    character that [btoa] is given is a byte), and decoding the text it
    gives returns the buffer, byte for byte. *)
Theorem base64_helpers_roundtrip (buf : bytes) :
  let text := b64_encode (map Z_of_byte buf) in
  (ab2b64 buf = Returned text /\ b642ab text = Returned buf)
  /\ (arrayBufferToBase64 buf = Returned text
      /\ base64ToArrayBuffer text = Returned buf)
  /\ (toBase64 buf = Returned text /\ fromBase64 text = Returned buf).
Proof.
  cbn zeta.
  split; [split; [apply ab2b64_returns|apply b642ab_ab2b64]|].
  split; [split; [apply arrayBufferToBase64_returns
                 |apply base64ToArrayBuffer_encoded]|].
  split; [apply toBase64_returns|apply fromBase64_encoded].
Qed.
